(** * piniafire: a local mirror of Firestore documents and collections

    A shallow embedding of the repository's JavaScript:

    - [Js]        the JSON-like values the stores hold, with the lodash
                  helpers the sources import ([get], [has], [set],
                  [isEqual], [cloneDeep]);
    - [Piniafire] lib/piniafire.js: the subscription registry, [bind],
                  [unbind] and the two snapshot handlers;
    - [Store]     lib/store.js (options store): [_update], [_sync],
                  [_updateDoc], the handler dispatch and the array helpers;
    - [Lifecycle] the initialization guard of the store accessor;
    - [Proxy]     the get/set traps of the two store variants;
    - [Scenario]  the schema, document and handlers of the test suite.

    The modules [JsFacts], [StoreFacts], [PiniafireFacts], [LifecycleFacts]
    and [ProxyFacts] hold what is proved about them. *)

From Stdlib Require Import ZArith Bool Ascii String List Lia.
From stdpp Require Import base strings pretty list gmap.
Import ListNotations.

Local Open Scope string_scope.
Local Open Scope Z_scope.
Local Open Scope list_scope.

(* ===================================================================== *)
(** * JavaScript values and the lodash helpers                            *)
(* ===================================================================== *)

Module Js.

(** Values as the stores see them.  Numbers are taken in [Z]: the sources
    only count, index and compare them.  An object is the list of its own
    enumerable properties in insertion order (the order matters to object
    spread and to [Object.keys]). *)
#[local] Unset Elimination Schemes.
Inductive value : Type :=
| VUndefined
| VNull
| VBool (b : bool)
| VNum (n : Z)
| VStr (s : string)
| VArr (xs : list value)
| VObj (fields : list (string * value)).
#[local] Set Elimination Schemes.

Definition fields_t : Type := list (string * value).

(** ToBoolean, as used by [if (x)], [!x], [a || b] and [a && b]. *)
Definition truthy (v : value) : bool :=
  match v with
  | VUndefined | VNull => false
  | VBool b => b
  | VNum n => negb (n =? 0)
  | VStr s => negb (String.eqb s "")
  | VArr _ | VObj _ => true
  end.

(** [a || b] on values. *)
Definition js_or (a b : value) : value := if truthy a then a else b.

Definition isArray (v : value) : bool :=
  match v with VArr _ => true | _ => false end.

(** lodash [isObject]: arrays and objects. *)
Definition isObject (v : value) : bool :=
  match v with VArr _ | VObj _ => true | _ => false end.

Definition isPrimitive (v : value) : bool := negb (isObject v).

(** ** Property tables *)

Fixpoint lookup_field (k : string) (fs : fields_t) : option value :=
  match fs with
  | [] => None
  | (k', v) :: fs' => if String.eqb k k' then Some v else lookup_field k fs'
  end.

(** [o[k] = v] on an object: an existing key keeps its position. *)
Fixpoint set_field (k : string) (v : value) (fs : fields_t) : fields_t :=
  match fs with
  | [] => [(k, v)]
  | (k', v') :: fs' =>
      if String.eqb k k' then (k, v) :: fs' else (k', v') :: set_field k v fs'
  end.

(** [delete o[k]]. *)
Fixpoint delete_field (k : string) (fs : fields_t) : fields_t :=
  match fs with
  | [] => []
  | (k', v') :: fs' =>
      if String.eqb k k' then fs' else (k', v') :: delete_field k fs'
  end.

(** [{ ...a, ...b }] and [Object.assign(a, b)]: the keys of [b] are written
    over [a] one after the other. *)
Definition assign_fields (a b : fields_t) : fields_t :=
  fold_left (fun acc kv => set_field (fst kv) (snd kv) acc) b a.

(** ** Array indices *)

Definition digit_of (c : ascii) : option nat :=
  let n := nat_of_ascii c in
  if ((48 <=? n) && (n <=? 57))%nat then Some (n - 48)%nat else None.

Fixpoint digits (s : string) (acc : nat) : option nat :=
  match s with
  | EmptyString => Some acc
  | String c s' =>
      match digit_of c with
      | Some d => digits s' (10 * acc + d)%nat
      | None => None
      end
  end.

(** A property name that is a canonical array index: decimal digits with
    no leading zero. *)
Definition index_of_key (k : string) : option nat :=
  match k with
  | EmptyString => None
  | String c EmptyString => digit_of c
  | String c _ => if Ascii.eqb c "0"%char then None else digits k 0
  end.

Definition isIndex (k : string) : bool :=
  match index_of_key k with Some _ => true | None => false end.

(** [arr[i] = v]: writing past the end pads the array (the holes read as
    [undefined]). *)
Definition set_index (i : nat) (v : value) (xs : list value) : list value :=
  if (i <? length xs)%nat then <[i := v]> xs
  else xs ++ replicate (i - length xs) VUndefined ++ [v].

(** ** Own properties

    [own_prop v k] is [Some x] when [v] has the own property [k] holding
    [x] (which may itself be [undefined]).  For arrays the element indices
    are covered; primitives are taken to have none. *)
Definition own_prop (v : value) (k : string) : option value :=
  match v with
  | VObj fs => lookup_field k fs
  | VArr xs => match index_of_key k with Some i => xs !! i | None => None end
  | _ => None
  end.

(** [v[k]] as an expression: a missing property reads [undefined]. *)
Definition read_prop (v : value) (k : string) : value :=
  match own_prop v k with Some x => x | None => VUndefined end.

(** [v[k] = x] on an object or array. *)
Definition write_prop (v : value) (k : string) (x : value) : value :=
  match v with
  | VObj fs => VObj (set_field k x fs)
  | VArr xs =>
      match index_of_key k with
      | Some i => VArr (set_index i x xs)
      | None => v
      end
  | _ => v
  end.

(** ** Paths

    lodash turns a string path into a list of keys: a string that is an
    own key of the object stands for itself, otherwise it is cut at the
    dots.  Paths here are names joined by dots; the bracket syntax lodash
    also reads ([a[0]]) is not used by the sources and is not covered. *)

Fixpoint split_dots (s : string) (cur : string) : list string :=
  match s with
  | EmptyString => [cur]
  | String c s' =>
      if Ascii.eqb c "."%char then cur :: split_dots s' ""
      else split_dots s' (cur +:+ String c EmptyString)
  end.

Fixpoint has_dot (s : string) : bool :=
  match s with
  | EmptyString => false
  | String c s' => Ascii.eqb c "."%char || has_dot s'
  end.

Definition castPath (path : string) (object : value) : list string :=
  if has_dot path then
    match own_prop object path with
    | Some _ => [path]
    | None => split_dots path ""
    end
  else [path].

(** lodash [baseGet]. *)
Fixpoint baseGet (v : value) (ks : list string) : value :=
  match ks with
  | [] => v
  | k :: ks' =>
      match v with
      | VUndefined | VNull => VUndefined
      | _ => baseGet (read_prop v k) ks'
      end
  end.

Definition get (object : value) (path : string) : value :=
  baseGet object (castPath path object).

(** lodash [hasPath] with [baseHas]: every key on the way is an own
    property. *)
Fixpoint hasPath (v : value) (ks : list string) : bool :=
  match ks with
  | [] => false
  | [k] => match own_prop v k with Some _ => true | None => false end
  | k :: ks' =>
      match own_prop v k with
      | Some v' => hasPath v' ks'
      | None => false
      end
  end.

Definition has (object : value) (path : string) : bool :=
  hasPath object (castPath path object).

(** lodash [baseSet]: intermediate values that are not objects are
    replaced by a fresh array or object, depending on the next key. *)
Fixpoint baseSet (v : value) (ks : list string) (x : value) : value :=
  match ks with
  | [] => v
  | k :: ks' =>
      match ks' with
      | [] => write_prop v k x
      | k' :: _ =>
          let cur := read_prop v k in
          let child :=
            if isObject cur then cur
            else if isIndex k' then VArr [] else VObj [] in
          write_prop v k (baseSet child ks' x)
      end
  end.

Definition set (object : value) (path : string) (x : value) : value :=
  if isObject object then baseSet object (castPath path object) x
  else object.

(** lodash [cloneDeep]: every array and object on the way down is rebuilt. *)
Fixpoint cloneDeep (v : value) : value :=
  match v with
  | VArr xs => VArr (List.map cloneDeep xs)
  | VObj fs => VObj (List.map (fun kv => (fst kv, cloneDeep (snd kv))) fs)
  | _ => v
  end.

(** lodash [isEqual]: deep comparison.  Arrays are compared element by
    element; objects have as many keys and every key of the first holds an
    equal value in the second, whatever the order of the keys. *)
Definition all2 (eq : value -> value -> bool) : list value -> list value -> bool :=
  fix go (xs ys : list value) : bool :=
    match xs, ys with
    | [], [] => true
    | x :: xs', y :: ys' => eq x y && go xs' ys'
    | _, _ => false
    end.

Definition every_field (eq : value -> value -> bool) (gs : fields_t)
  : fields_t -> bool :=
  fix every (fs : fields_t) : bool :=
    match fs with
    | [] => true
    | (k, v) :: fs' =>
        existsb (fun kv' => String.eqb k (fst kv') && eq v (snd kv')) gs
        && every fs'
    end.

Fixpoint isEqual (a b : value) : bool :=
  match a, b with
  | VUndefined, VUndefined => true
  | VNull, VNull => true
  | VBool x, VBool y => Bool.eqb x y
  | VNum x, VNum y => Z.eqb x y
  | VStr x, VStr y => String.eqb x y
  | VArr xs, VArr ys => all2 isEqual xs ys
  | VObj fs, VObj gs => (length fs =? length gs)%nat && every_field isEqual gs fs
  | _, _ => false
  end.

(** SameValueZero on primitives, the comparison of [Array.prototype.includes].
    Arrays and objects are compared by identity there; the embedding keeps
    no identities, so two composite values are taken to be distinct
    objects. *)
Definition sameValueZero (a b : value) : bool :=
  match a, b with
  | VUndefined, VUndefined => true
  | VNull, VNull => true
  | VBool x, VBool y => Bool.eqb x y
  | VNum x, VNum y => Z.eqb x y
  | VStr x, VStr y => String.eqb x y
  | _, _ => false
  end.

(** Strict equality [===], with the same convention for composite values. *)
Definition strictEq (a b : value) : bool := sameValueZero a b.

Definition includes (xs : list value) (x : value) : bool :=
  existsb (fun y => sameValueZero y x) xs.

(** Object spread of an arbitrary value: [{ ...v }]. *)
Definition index_fields (xs : list value) : fields_t :=
  imap (fun i x => (pretty i, x)) xs.

Fixpoint chars (s : string) : list value :=
  match s with
  | EmptyString => []
  | String c s' => VStr (String c EmptyString) :: chars s'
  end.

Definition spread (v : value) : fields_t :=
  match v with
  | VObj fs => fs
  | VArr xs => index_fields xs
  | VStr s => index_fields (chars s)
  | _ => []
  end.

End Js.

(* ===================================================================== *)
(** * lib/piniafire.js: registry, bind, unbind                            *)
(* ===================================================================== *)

Module Piniafire.
Import Js.

(** ** Firestore data handed to the listeners *)

(** A document snapshot: [exists()], [id], [ref.path], [metadata] and
    [data()] ([undefined] for a missing document). *)
Record snapshot := Snapshot {
  snap_exists : bool;
  snap_id : string;
  snap_path : string;
  snap_metadata : value;
  snap_data : value;
}.

Inductive change_type := Added | Modified | Removed.

(** One entry of [querySnapshot.docChanges()]. *)
Record change := Change {
  ch_type : change_type;
  ch_doc : snapshot;
  ch_newIndex : Z;
  ch_oldIndex : Z;
}.

(** What a listener is called with. *)
Inductive payload :=
| DocSnap (s : snapshot)
| QuerySnap (changes : list change).

(** A document or query reference: queries have no [id]. *)
Record reference := Reference {
  ref_type : string;
  ref_id : option string;
}.

(** Template-literal rendering of [ref.id]. *)
Definition render_id (r : reference) : string :=
  match ref_id r with Some s => s | None => "undefined" end.

(** [makeDocumentData]: the three reserved keys, then the fields of the
    snapshot. *)
Definition makeDocumentData (s : snapshot) : fields_t :=
  assign_fields
    [("__id", VStr (snap_id s));
     ("__path", VStr (snap_path s));
     ("__metadata", snap_metadata s)]
    (spread (js_or (snap_data s) (VObj []))).

(** ** The collection array

    The handler keeps the same document object under its position and
    under its id ([docs.splice(i, 0, newDoc); docs[id] = newDoc]), so the
    documents live in a heap and the array holds references to them.

    The array is a JavaScript Array used as a table of ids as well, so a
    document id can meet a name the array answers by itself: [length],
    which the array owns, and the members it inherits from
    [Array.prototype] and [Object.prototype], function objects of the
    realm.  A cell [Member None] is such a member that nobody has written
    to.  Once the handler has written to a member, its properties are a
    heap object, and the table of names keeps [Member (Some a)] for it:
    the name is still no own property of the array.  The methods the
    handler itself calls on the array ([splice]) are taken to be the
    built-in ones.

    Firestore reserves the names of the form [__x__]: no document and no
    field is called [__proto__].  The name is listed with the members,
    since it answers with an object; what a write through it does to the
    prototype itself is outside this model.

    An array has at most 2^32 - 1 elements.  A canonical number from
    there on is an ordinary property name, and a [splice] that would make
    the array longer than that throws. *)

Inductive cell :=
| Plain (v : value)
| Ref (a : nat)
| Member (a : option nat).

Record docs := Docs {
  heap : list fields_t;
  elems : list cell;
  named : list (string * cell);
}.

Definition empty_docs : docs := Docs [] [] [].

Definition hole : cell := Plain VUndefined.

Definition max_length : Z := 2 ^ 32 - 1.

(** The names an array inherits (ECMAScript 2023). *)
Definition array_members : list string :=
  ["at"; "concat"; "constructor"; "copyWithin"; "entries"; "every"; "fill";
   "filter"; "find"; "findIndex"; "findLast"; "findLastIndex"; "flat";
   "flatMap"; "forEach"; "includes"; "indexOf"; "join"; "keys";
   "lastIndexOf"; "map"; "pop"; "push"; "reduce"; "reduceRight"; "reverse";
   "shift"; "slice"; "some"; "sort"; "splice"; "toLocaleString";
   "toReversed"; "toSorted"; "toSpliced"; "toString"; "unshift"; "values";
   "with";
   "hasOwnProperty"; "isPrototypeOf"; "propertyIsEnumerable"; "valueOf";
   "__defineGetter__"; "__defineSetter__"; "__lookupGetter__";
   "__lookupSetter__"; "__proto__"].

Definition is_array_member (k : string) : bool :=
  existsb (String.eqb k) array_members.

Fixpoint lookup_cell (k : string) (l : list (string * cell)) : option cell :=
  match l with
  | [] => None
  | (k', c) :: l' => if String.eqb k k' then Some c else lookup_cell k l'
  end.

Fixpoint set_cell (k : string) (c : cell) (l : list (string * cell))
  : list (string * cell) :=
  match l with
  | [] => [(k, c)]
  | (k', c') :: l' =>
      if String.eqb k k' then (k, c) :: l' else (k', c') :: set_cell k c l'
  end.

Fixpoint delete_cell (k : string) (l : list (string * cell))
  : list (string * cell) :=
  match l with
  | [] => []
  | (k', c') :: l' =>
      if String.eqb k k' then l' else (k', c') :: delete_cell k l'
  end.

(** The position a property name stands for, if it is an array index: a
    canonical number below 2^32 - 1 (a position the array has is one). *)
Definition array_index (d : docs) (k : string) : option nat :=
  match index_of_key k with
  | Some i =>
      if (i <? length (elems d))%nat || (Z.of_nat i <? max_length) then Some i
      else None
  | None => None
  end.

(** [docs[k]]: an element, an own property, the length, an inherited
    member, or [undefined].  (The table of names never holds [length]:
    [arr_set] does not put it there.) *)
Definition arr_get (d : docs) (k : string) : cell :=
  match array_index d k with
  | Some i => match elems d !! i with Some c => c | None => hole end
  | None =>
      match lookup_cell k (named d) with
      | Some (Member (Some a)) => Ref a
      | Some c => c
      | None =>
          if String.eqb k "length" then Plain (VNum (Z.of_nat (length (elems d))))
          else if is_array_member k then Member None
          else hole
      end
  end.

(** What [docs.length = v] accepts: a value whose number is an integer
    from 0 to 2^32 - 1.  [undefined] and objects give NaN.  A string or
    an array is converted through its text, which the values of the model
    do not cover: such an assignment is taken to be refused. *)
Definition to_length (v : value) : option nat :=
  match v with
  | VNum n => if (0 <=? n) && (n <? 2 ^ 32) then Some (Z.to_nat n) else None
  | VBool b => Some (if b then 1%nat else 0%nat)
  | VNull => Some 0%nat
  | _ => None
  end.

(** The elements under a new length: cut, or padded with holes. *)
Definition resize (n : nat) (es : list cell) : list cell :=
  take n es ++ replicate (n - length es) hole.

(** [docs[k] = c]; [None] is the RangeError of an invalid array length.
    Writing under the name of an inherited member makes an own property
    that hides the member. *)
Definition arr_set (d : docs) (k : string) (c : cell) : option docs :=
  match array_index d k with
  | Some i =>
      let es := elems d in
      let es' :=
        if (i <? length es)%nat then <[i := c]> es
        else es ++ replicate (i - length es) hole ++ [c] in
      Some (Docs (heap d) es' (named d))
  | None =>
      match lookup_cell k (named d) with
      | Some (Member _) => Some (Docs (heap d) (elems d) ((k, c) :: named d))
      | Some _ => Some (Docs (heap d) (elems d) (set_cell k c (named d)))
      | None =>
          if String.eqb k "length" then
            match c with
            | Plain v =>
                match to_length v with
                | Some n => Some (Docs (heap d) (resize n (elems d)) (named d))
                | None => None
                end
            | _ => None
            end
          else Some (Docs (heap d) (elems d) (set_cell k c (named d)))
      end
  end.

(** [delete docs[k]]; [None] is the TypeError of strict code deleting
    [length].  Deleting a name the array does not own does nothing. *)
Definition arr_delete (d : docs) (k : string) : option docs :=
  match array_index d k with
  | Some i => Some (Docs (heap d) (<[i := hole]> (elems d)) (named d))
  | None =>
      match lookup_cell k (named d) with
      | Some (Member _) => Some d
      | Some _ => Some (Docs (heap d) (elems d) (delete_cell k (named d)))
      | None =>
          if String.eqb k "length" then None
          else Some (Docs (heap d) (elems d) (delete_cell k (named d)))
      end
  end.

(** An object the array holds by value under [k], after a write to one of
    its properties. *)
Definition write_back (d : docs) (k : string) (c : cell) : docs :=
  match array_index d k with
  | Some i => Docs (heap d) (<[i := c]> (elems d)) (named d)
  | None => Docs (heap d) (elems d) (set_cell k c (named d))
  end.

(** What [splice] makes of the elements: those before [start], the
    items, and those after the ones it takes out. *)
Definition splice (d : docs) (start deleteCount : Z) (items : list cell) : docs :=
  let len := Z.of_nat (length (elems d)) in
  let from := if start <? 0 then Z.max (len + start) 0 else Z.min start len in
  let count := Z.min (Z.max deleteCount 0) (len - from) in
  Docs (heap d)
       (take (Z.to_nat from) (elems d) ++ items
          ++ drop (Z.to_nat (from + count)) (elems d))
       (named d).

(** The key a number indexes an array with. *)
Definition key_of_Z (i : Z) : string := pretty i.

(** Elements moved to positions from 2^32 - 1 on are written as ordinary
    properties, a hole by deleting the property. *)
Fixpoint spill (pos : Z) (cs : list cell) (l : list (string * cell))
  : list (string * cell) :=
  match cs with
  | [] => l
  | c :: cs' =>
      spill (pos + 1) cs'
        (match c with
         | Plain VUndefined => delete_cell (key_of_Z pos) l
         | _ => set_cell (key_of_Z pos) c l
         end)
  end.

(** Outcome of a handler: it returns, or an exception escapes it. *)
Inductive outcome :=
| Done
| Threw (msg : string).

(** [docs.splice(start, deleteCount, ...items)].  When the array would
    grow past its maximal length the elements are moved all the same, and
    the assignment of the new length throws. *)
Definition splice_call (d : docs) (start deleteCount : Z) (items : list cell)
  : docs * outcome :=
  let d' := splice d start deleteCount items in
  if (length (elems d) <? length (elems d'))%nat
     && (max_length <? Z.of_nat (length (elems d')))
  then
    (Docs (heap d') (take (Z.to_nat max_length) (elems d'))
          (spill max_length (drop (Z.to_nat max_length) (elems d')) (named d')),
     Threw "RangeError: Invalid array length")
  else (d', Done).

(** A fresh document object. *)
Definition alloc (d : docs) (o : fields_t) : nat * docs :=
  (length (heap d), Docs (heap d ++ [o]) (elems d) (named d)).

Definition truthy_cell (c : cell) : bool :=
  match c with Plain v => truthy v | Ref _ => true | Member _ => true end.

(** An assignment to the array, made or refused. *)
Definition assigned (d : docs) (r : option docs) : docs * outcome :=
  match r with
  | Some d' => (d', Done)
  | None => (d, Threw "RangeError: Invalid array length")
  end.

(** One change of the feed, as the [switch] of
    [handleCollectionSnapshotUpdate] applies it. *)
Definition apply_change (d : docs) (c : change) : docs * outcome :=
  let id := snap_id (ch_doc c) in
  match ch_type c with
  | Added =>
      let doc := arr_get d id in
      let newIndex := ch_newIndex c in
      if negb (truthy_cell doc) then
        let newDoc :=
          set_field "__index" (VNum newIndex) (makeDocumentData (ch_doc c)) in
        let '(a, d1) := alloc d newDoc in
        match splice_call d1 newIndex 0 [Ref a] with
        | (d2, Done) => assigned d2 (arr_set d2 id (Ref a))
        | failed => failed
        end
      else
        match doc with
        | Ref a =>
            let h' :=
              match heap d !! a with
              | Some o => <[a := set_field "__index" (VNum newIndex) o]> (heap d)
              | None => heap d
              end in
            let d1 := Docs h' (elems d) (named d) in
            assigned d1 (arr_set d1 (key_of_Z newIndex) (Ref a))
        | Member _ =>
            let '(a, d1) := alloc d [("__index", VNum newIndex)] in
            let d2 :=
              Docs (heap d1) (elems d1) (named d1 ++ [(id, Member (Some a))]) in
            assigned d2 (arr_set d2 (key_of_Z newIndex) (Ref a))
        | Plain v =>
            if isObject v then
              let v' := write_prop v "__index" (VNum newIndex) in
              let d1 := write_back d id (Plain v') in
              assigned d1 (arr_set d1 (key_of_Z newIndex) (Plain v'))
            else (d, Threw "TypeError: cannot create property __index")
        end
  | Modified =>
      let '(a, d1) := alloc d (makeDocumentData (ch_doc c)) in
      splice_call d1 (ch_newIndex c) 1 [Ref a]
  | Removed =>
      match splice_call d (ch_oldIndex c) 1 [] with
      | (d1, Done) =>
          match arr_delete d1 id with
          | Some d2 => (d2, Done)
          | None => (d1, Threw "TypeError: Cannot delete property 'length'")
          end
      | failed => failed
      end
  end.

(** [docChanges().forEach(...)]: in delivery order, stopping at an
    exception. *)
Fixpoint apply_changes (d : docs) (cs : list change) : docs * outcome :=
  match cs with
  | [] => (d, Done)
  | c :: cs' =>
      match apply_change d c with
      | (d', Done) => apply_changes d' cs'
      | (d', Threw m) => (d', Threw m)
      end
  end.

(** ** The store instance, as [bind] uses it

    [bind] reads [$id], [$state.collection] and [$state[field]], and
    assigns [piniaInstance[field]].  A property holds a plain value or is
    the collection array itself. *)

Inductive slot :=
| Val (v : value)
| TheDocs.

Record pinia := Pinia {
  p_id : string;
  p_state : list (string * slot);   (* $state, but for its [collection] key *)
  p_own : list (string * slot);     (* properties set on the store itself *)
  p_docs : docs;                    (* $state.collection *)
}.

Fixpoint lookup_slot (k : string) (l : list (string * slot)) : option slot :=
  match l with
  | [] => None
  | (k', c) :: l' => if String.eqb k k' then Some c else lookup_slot k l'
  end.

Fixpoint set_slot (k : string) (c : slot) (l : list (string * slot))
  : list (string * slot) :=
  match l with
  | [] => [(k, c)]
  | (k', c') :: l' =>
      if String.eqb k k' then (k, c) :: l' else (k', c') :: set_slot k c l'
  end.

(** [state[field]] *)
Definition state_field (p : pinia) (field : string) : option slot :=
  if String.eqb field "collection" then Some TheDocs
  else lookup_slot field (p_state p).

(** [piniaInstance[field] = docs]: a state key is written in the state,
    any other name becomes a property of the store. *)
Definition alias_docs (p : pinia) (field : string) : pinia :=
  if String.eqb field "collection" then p
  else
    match lookup_slot field (p_state p) with
    | Some _ => Pinia (p_id p) (set_slot field TheDocs (p_state p)) (p_own p) (p_docs p)
    | None => Pinia (p_id p) (p_state p) (set_slot field TheDocs (p_own p)) (p_docs p)
    end.

(** [Object.assign(target, doc)] on a plain value; [None] is the
    TypeError of a null or undefined target. *)
Definition assign_value (target : value) (doc : fields_t) : option value :=
  match target with
  | VUndefined | VNull => None
  | VObj fs => Some (VObj (assign_fields fs doc))
  | VArr _ =>
      Some (fold_left (fun acc kv => write_prop acc (fst kv) (snd kv)) doc target)
  | _ => Some target
  end.

(** [Object.assign(docs, doc)]: key by key, stopping at an assignment
    the array refuses. *)
Fixpoint assign_docs (d : docs) (doc : fields_t) : docs * outcome :=
  match doc with
  | [] => (d, Done)
  | (k, v) :: rest =>
      match arr_set d k (Plain v) with
      | Some d' => assign_docs d' rest
      | None => (d, Threw "RangeError: Invalid array length")
      end
  end.

(** [$patch((state) => { Object.assign(state[field], doc) })] *)
Definition patch_doc (p : pinia) (field : string) (doc : fields_t) : option pinia :=
  match state_field p field with
  | None => None
  | Some TheDocs =>
      match assign_docs (p_docs p) doc with
      | (d', Done) => Some (Pinia (p_id p) (p_state p) (p_own p) d')
      | (_, Threw _) => None
      end
  | Some (Val v) =>
      match assign_value v doc with
      | None => None
      | Some v' =>
          Some (Pinia (p_id p) (set_slot field (Val v') (p_state p)) (p_own p)
                      (p_docs p))
      end
  end.

(** The store and the error when the merge throws: a target that is
    [null] or [undefined] is not touched; the collection array keeps the
    keys assigned before the one it refused. *)
Definition patch_failure (p : pinia) (field : string) (doc : fields_t)
  : pinia * string :=
  match state_field p field with
  | Some TheDocs =>
      (Pinia (p_id p) (p_state p) (p_own p) (fst (assign_docs (p_docs p) doc)),
       "RangeError: Invalid array length")
  | _ => (p, "TypeError: cannot convert undefined or null to object")
  end.

(** [piniaInstance[field]]: a key of the state, or a property set on the
    store. *)
Definition instance_field (p : pinia) (field : string) : option slot :=
  match state_field p field with
  | Some s => Some s
  | None => lookup_slot field (p_own p)
  end.

(** ** The registry *)

Definition getStoreKey (id name : string) : string := id +:+ ":" +:+ name.

Record item := Item {
  it_id : string;
  it_name : string;
  it_unsub : nat;       (* the listener [onSnapshot] returned a handle for *)
  it_type : string;
}.

Inductive event :=
| Log (level msg : string)
| HookCalled (name : string) (doc : fields_t)
| Unsubscribed (listener : nat).

(** The module-level table [unsubs], the store instance, the listeners
    Firestore has attached, and what was logged and called. *)
Record world := World {
  unsubs : gmap string item;
  inst : pinia;
  listeners : list nat;
  next_listener : nat;
  trace : list event;
}.

Definition emit (e : event) (w : world) : world :=
  World (unsubs w) (inst w) (listeners w) (next_listener w) (trace w ++ [e]).

Definition with_inst (p : pinia) (w : world) : world :=
  World (unsubs w) p (listeners w) (next_listener w) (trace w).

Definition with_unsubs (u : gmap string item) (w : world) : world :=
  World u (inst w) (listeners w) (next_listener w) (trace w).

Definition pick (id name : string) (w : world) : option item * world :=
  let itemKey := getStoreKey id name in
  let item := unsubs w !! itemKey in
  (item, emit (Log "info" "pick:") w).

Definition remove (id name : string) (w : world) : world :=
  let itemKey := getStoreKey id name in
  match unsubs w !! itemKey with
  | Some _ => emit (Log "info" "remove:") (with_unsubs (delete itemKey (unsubs w)) w)
  | None => w
  end.

Definition store (id name : string) (unsub : nat) (type : string) (w : world)
  : world :=
  let itemKey := getStoreKey id name in
  with_unsubs (<[itemKey := Item id name unsub type]> (unsubs w)) w.

(** Calling the handle [onSnapshot] returned detaches the listener. *)
Definition call_unsub (n : nat) (w : world) : world :=
  emit (Unsubscribed n)
       (World (unsubs w) (inst w) (filter (fun m => m ≠ n) (listeners w))
              (next_listener w) (trace w)).

(** [onSnapshot(ref, updateHandler, handleError)] *)
Definition onSnapshot (w : world) : nat * world :=
  let n := next_listener w in
  (n, World (unsubs w) (inst w) (listeners w ++ [n]) (S n) (trace w)).

(** [unbind]: [item.unsub()] then [item.remove()]; with no entry for the
    key, reading [item.unsub] throws. *)
Definition unbind (r : reference) (w : world) : world * outcome :=
  match pick (p_id (inst w)) (render_id r) w with
  | (Some item, w1) =>
      (remove (it_id item) (it_name item) (call_unsub (it_unsub item) w1), Done)
  | (None, w1) => (w1, Threw "TypeError: item is undefined")
  end.

(** ** One call of [bind] *)

(** What the promise is resolved with: a value, or the collection array
    of the store (the array itself, not a copy). *)
Inductive result :=
| RValue (v : value)
| RDocs.

Inductive settled :=
| Pending
| Resolved (r : result)
| Rejected (error : string).

(** The [beforeUpdate] and [afterUpdate] options: a hook is called on the
    materialized document and returns or throws; it is taken to read the
    document, not to write to it. *)
Definition hook : Type := fields_t -> outcome.

(** The closure of one [bind] call: its arguments, [isInitialised], and
    the promise with the number of calls of [resolve] and [reject]. *)
Record binding := Binding {
  b_field : string;
  b_ref : reference;
  beforeUpdate : option hook;
  afterUpdate : option hook;
  isInitialised : bool;
  promise : settled;
  settles : nat;
}.

Definition settle (s : settled) (b : binding) : binding :=
  Binding (b_field b) (b_ref b) (beforeUpdate b) (afterUpdate b) true
          (match promise b with Pending => s | p => p end)
          (S (settles b)).

Definition _resolve (val : result) (b : binding) : binding :=
  if negb (isInitialised b) then settle (Resolved val) b else b.

Definition handleDocSnapshotUpdate (b : binding) (snapshot : snapshot) (w : world)
  : binding * world * outcome :=
  if negb (snap_exists snapshot) then (_resolve (RValue (VBool false)) b, w, Done)
  else
    let doc := makeDocumentData snapshot in
    let w1 :=
      match beforeUpdate b with
      | Some h =>
          match h doc with
          | Done => emit (HookCalled "beforeUpdate" doc) w
          | Threw m =>
              emit (Log "error" ("beforeUpdate handler failed " +:+ m))
                   (emit (HookCalled "beforeUpdate" doc) w)
          end
      | None => w
      end in
    match patch_doc (inst w1) (b_field b) doc with
    | None =>
        let failure := patch_failure (inst w1) (b_field b) doc in
        (b, with_inst (fst failure) w1, Threw (snd failure))
    | Some p' =>
        let w2 := with_inst p' w1 in
        match afterUpdate b with
        | Some h =>
            let w3 := emit (HookCalled "afterUpdate" doc) w2 in
            match h doc with
            | Done => (_resolve (RValue (VObj doc)) b, w3, Done)
            | Threw m => (b, w3, Threw m)
            end
        | None => (_resolve (RValue (VObj doc)) b, w2, Done)
        end
    end.

Definition handleCollectionSnapshotUpdate (b : binding) (changes : list change)
    (w : world) : binding * world * outcome :=
  let p1 := alias_docs (inst w) (b_field b) in
  match apply_changes (p_docs p1) changes with
  | (d', Done) =>
      (_resolve RDocs b, with_inst (Pinia (p_id p1) (p_state p1) (p_own p1) d') w, Done)
  | (d', Threw m) =>
      (b, with_inst (Pinia (p_id p1) (p_state p1) (p_own p1) d') w, Threw m)
  end.

Definition handleError (b : binding) (error : string) (w : world)
  : binding * world * outcome :=
  let w1 := emit (Log "error" (p_id (inst w) +:+ " error")) w in
  let w2 := remove (p_id (inst w1)) (render_id (b_ref b)) w1 in
  if negb (isInitialised b) then (settle (Rejected error) b, w2, Done)
  else (b, w2, Done).

(** [bind]: the promise executor.  It attaches the listener and records
    the handle; the handlers run later, as Firestore calls them. *)
Definition bind (field : string) (r : reference) (before after : option hook)
    (w : world) : binding * world :=
  let '(unsub, w1) := onSnapshot w in
  (Binding field r before after false Pending 0,
   store (p_id (inst w1)) (render_id r) unsub (ref_type r) w1).

(** What Firestore does with a listener. *)
Inductive delivery :=
| Next (p : payload)
| Failure (error : string).

(** The handler [bind] picked by [ref.type], called on what is delivered.
    A snapshot of the other kind has none of the methods the handler
    calls. *)
Definition deliver (bw : binding * world) (e : delivery) : binding * world * outcome :=
  let '(b, w) := bw in
  match e with
  | Failure error => handleError b error w
  | Next p =>
      if String.eqb (ref_type (b_ref b)) "document" then
        match p with
        | DocSnap s => handleDocSnapshotUpdate b s w
        | QuerySnap _ => (b, w, Threw "TypeError: snapshot.exists is not a function")
        end
      else
        match p with
        | QuerySnap cs => handleCollectionSnapshotUpdate b cs w
        | DocSnap _ =>
            (b, with_inst (alias_docs (inst w) (b_field b)) w,
             Threw "TypeError: querySnapshot.docChanges is not a function")
        end
  end.

(** A run of deliveries; an exception escaping a handler is Firestore's
    to deal with and the listener stays attached. *)
Definition deliver_all (bw : binding * world) (es : list delivery) : binding * world :=
  fold_left (fun acc e => fst (deliver acc e)) es bw.

(** ** Reading the state *)

(** What a handler that completes resolves the promise with, if it is
    the first to do so. *)
Definition resolution (p : payload) : result :=
  match p with
  | DocSnap s =>
      if snap_exists s then RValue (VObj (makeDocumentData s))
      else RValue (VBool false)
  | QuerySnap _ => RDocs
  end.

(** The object behind a cell of the collection array. *)
Definition cell_doc (d : docs) (c : cell) : value :=
  match c with
  | Plain v => v
  | Ref a | Member (Some a) =>
      match heap d !! a with Some o => VObj o | None => VUndefined end
  | Member None => VObj []
  end.

(** The collection as a sequence of documents. *)
Definition sequence (d : docs) : list value := List.map (cell_doc d) (elems d).

(** The lookup by id: for each id kept on the array, the [__index]
    recorded on its document. *)
Definition is_own (c : cell) : bool :=
  match c with Member _ => false | _ => true end.

Definition id_index (d : docs) : list (string * value) :=
  List.map (fun kc => (fst kc, read_prop (cell_doc d (snd kc)) "__index"))
           (List.filter (fun kc => is_own (snd kc)) (named d)).

(** Change events as Firestore reports them: the index that does not
    apply is [-1]. *)
Definition added (s : snapshot) (newIndex : Z) : change := Change Added s newIndex (-1).
Definition modified (s : snapshot) (oldIndex newIndex : Z) : change :=
  Change Modified s newIndex oldIndex.
Definition removed (s : snapshot) (oldIndex : Z) : change := Change Removed s (-1) oldIndex.

Definition is_log (e : event) : bool :=
  match e with Log _ _ => true | _ => false end.

End Piniafire.

(* ===================================================================== *)
(** * lib/store.js: the mutation pipeline                                 *)
(* ===================================================================== *)

Module Store.
Import Js.

(** ** Collaborators *)

(** A user callback: it returns a value or throws an error with a
    message.  It is taken not to write to the store it is configured
    on. *)
Inductive hres :=
| Returns (v : value)
| Throws (msg : string).

Definition handler : Type := list value -> hres.

(** [options[name]]: [null] switches a handler off, a missing one falls
    back to the plugin-wide handler. *)
Inductive local_option :=
| LNull
| LUndefined
| LFn (h : handler).

(** The yup schema, as far as [_update] uses it: [validateSyncAt(path, o)]
    returns, or throws a ValidationError with a message. *)
Record schema := Schema {
  validateSyncAt : string -> value -> option string;
}.

(** What [defineFirebaseStore(options)] closes over. *)
Record config := Config {
  options : string -> local_option;
  docSchema : option schema;
}.

(** ** State

    The store holds its [doc] and its [collection], here the sequence of
    its documents.  The actions keep the names of the source, without the
    dollar sign: [update] is [$update], [sync] is [$sync], [getRef] is
    [$getRef], [get_] is [$get], [arrayUnion] is [$arrayUnion], and
    [updateDoc_] is the action [$updateDoc] ([updateDoc] being
    Firestore's function). *)

Record store := MkStore {
  sid : string;                                  (* $id *)
  _collectionPath : string;
  _globalOptions : string -> option handler;     (* set by the plugin *)
  doc : value;
  collection : list value;
}.

Inductive event :=
| Log (level msg : string)
| Called (name : string) (args : list value)
| UpdateDoc (ref : string) (patch : fields_t).

(** The store, the remote documents by path, and what was logged, called
    and sent. *)
Record world := World {
  st : store;
  remote : gmap string fields_t;
  trace : list event;
}.

(** ** Asynchronous actions

    An action runs on the world and either returns or throws; for an
    [async] action these are the fulfilment and the rejection of its
    promise.  What was written before a throw stays written. *)
Definition M (A : Type) : Type := world -> world * (A + string).

Definition ret {A} (a : A) : M A := fun w => (w, inl a).

Definition throw {A} (msg : string) : M A := fun w => (w, inr msg).

Definition bindM {A B} (m : M A) (k : A -> M B) : M B :=
  fun w =>
    match m w with
    | (w', inl a) => k a w'
    | (w', inr e) => (w', inr e)
    end.

Definition try_catch {A} (m : M A) (h : string -> M A) : M A :=
  fun w =>
    match m w with
    | (w', inl a) => (w', inl a)
    | (w', inr e) => h e w'
    end.

Notation "'let*' x := m 'in' k" := (bindM m (fun x => k))
  (at level 10, x binder, m at level 100, k at level 200).
Notation "'do' m 'then' k" := (bindM m (fun _ => k))
  (at level 10, m at level 100, k at level 200).

Definition emit (e : event) : M unit :=
  fun w => (World (st w) (remote w) (trace w ++ [e]), inl tt).

Definition this : M store := fun w => (w, inl (st w)).

Definition set_doc (v : value) : M unit :=
  fun w =>
    let s := st w in
    (World (MkStore (sid s) (_collectionPath s) (_globalOptions s) v (collection s))
           (remote w) (trace w), inl tt).

Definition set_item (i : nat) (v : value) : M unit :=
  fun w =>
    let s := st w in
    (World (MkStore (sid s) (_collectionPath s) (_globalOptions s) (doc s)
                    (<[i := v]> (collection s)))
           (remote w) (trace w), inl tt).

Definition logger_error (msg : string) : M unit := emit (Log "error" msg).
Definition logger_log (msg : string) : M unit := emit (Log "info" msg).

(** [o.k] for a member read that throws on [undefined] and [null]. *)
Definition member (o : value) (k : string) : M value :=
  match o with
  | VUndefined | VNull => throw "TypeError: cannot read properties of undefined"
  | _ => ret (read_prop o k)
  end.

(** The object an action is handed: the store's [doc], or an element of
    its [collection] (as [$getDoc] found it). *)
Inductive target :=
| TheDoc
| Item (i : nat).

Definition object_of (t : target) (s : store) : value :=
  match t with
  | TheDoc => doc s
  | Item i => match collection s !! i with Some v => v | None => VUndefined end
  end.

Definition read_target (t : target) : M value :=
  let* s := this in ret (object_of t s).

Definition write_target (t : target) (v : value) : M unit :=
  match t with
  | TheDoc => set_doc v
  | Item i => set_item i v
  end.

Section Actions.
Context (cfg : config).

(** ** Handlers *)

Definition _runHandler (name : string) (args : list value) : M value :=
  match options cfg name with
  | LNull => ret VUndefined
  | o =>
      let* s := this in
      let handler :=
        match o with
        | LFn h => Some h
        | _ => _globalOptions s name
        end in
      match handler with
      | None => ret VUndefined
      | Some h =>
          do emit (Called name args) then
          match h args with
          | Returns v => ret v
          | Throws msg => throw msg
          end
      end
  end.

Definition _onValidationSuccess (path : string) : M value :=
  let* s := this in
  _runHandler "onValidationSuccess" [VStr (sid s); VStr path].

Definition _onValidationError (path message : string) : M value :=
  let* s := this in
  _runHandler "onValidationError" [VStr (sid s); VStr path; VStr message].

Definition _appendToCreated : M value := _runHandler "appendToCreated" [].

Definition _appendToUpdated : M value := _runHandler "appendToUpdated" [].

(** ** Remote documents *)

(** Firestore [doc(db, collectionPath, id)]: the reference is the path of
    the document; anything but a string segment is refused. *)
Definition _getRef (id : value) : M string :=
  let* s := this in
  match id with
  | VStr i => ret (_collectionPath s +:+ "/" +:+ i)
  | _ => throw "FirebaseError: invalid document reference"
  end.

(** [$getRef(...args)]: [None] is the [undefined] that [logger.error]
    returns. *)
Definition getRef (arg : value) : M (option string) :=
  let* s := this in
  let* id := (if truthy arg then ret arg
         else let* own := member (doc s) "__id" in ret (js_or arg own)) in
  if negb (truthy id) then
    do logger_error "Can't get ref without an id" then ret None
  else let* r := _getRef id in ret (Some r).

(** Firestore [updateDoc(ref, patch)]: each key of the patch is a field
    path written into the stored document, under the field [root key];
    the other fields stay.  A missing document makes the promise reject. *)
Definition root (key : string) : string :=
  match split_dots key "" with k :: _ => k | [] => key end.

Definition apply_patch (stored patch : fields_t) : fields_t :=
  fold_left
    (fun acc kv =>
       match baseSet (VObj acc) (split_dots (fst kv) "") (snd kv) with
       | VObj fs => fs
       | _ => acc
       end)
    patch stored.

Definition updateDoc (ref : string) (patch : fields_t) : M (option string) :=
  do emit (UpdateDoc ref patch) then
  fun w =>
    match remote w !! ref with
    | Some stored =>
        (World (st w) (<[ref := apply_patch stored patch]> (remote w)) (trace w),
         inl None)
    | None => (w, inl (Some "FirebaseError: no document to update"))
    end.

Definition _updateDoc (id : value) (data : value) : M value :=
  let* ref := getRef id in
  match ref with
  | None => do logger_error "Cannot sync. Error getting ref" then ret VUndefined
  | Some r =>
      let* appendData := _appendToUpdated in
      let patch := assign_fields (spread data) (spread appendData) in
      let* failed := updateDoc r patch in
      do match failed with
         | Some e => logger_error e
         | None => ret tt
         end then
      ret (VBool true)
  end.

(** The [keys] argument of [$sync]: a string, an array of strings, or
    nothing. *)
Inductive keys_arg :=
| KString (k : string)
| KList (ks : list string)
| KUndefined.

(** [keysToSync.reduce((all, key) => ({ ...all, [key]: get(docData, key) }), acc)] *)
Definition named_fields (docData : value) (ks : list string) (acc : fields_t) : fields_t :=
  fold_left (fun all key => set_field key (get docData key) all) ks acc.

(** [typeof keys === 'string' ? [keys] : keys]; with no argument there is
    nothing to call [reduce] on. *)
Definition keysToSync_of (keys : keys_arg) : option (list string) :=
  match keys with
  | KString k => Some [k]
  | KList ks => Some ks
  | KUndefined => None
  end.

Definition _sync (docData : value) (keys : keys_arg) : M value :=
  let* keysToSync :=
    match keysToSync_of keys with
    | Some ks => ret ks
    | None => throw "TypeError: cannot read properties of undefined (reading 'reduce')"
    end in
  let patch := named_fields docData keysToSync [] in
  let dataToSync := if (0 <? length patch)%nat then VObj patch else docData in
  let* id := member docData "__id" in
  _updateDoc id dataToSync.

Definition sync (keys : keys_arg) : M value :=
  let* s := this in _sync (doc s) keys.

(** ** Local writes *)

Definition get_ (path : string) : M value :=
  let* s := this in ret (get (doc s) path).

Definition validate (path : string) (cloned : value) : M unit :=
  match docSchema cfg with
  | None => ret tt
  | Some sch =>
      match validateSyncAt sch path cloned with
      | None => ret tt
      | Some msg => throw msg
      end
  end.

Definition _update (object : target) (path : string) (value : value)
    (shouldSync : bool) : M bool :=
  let* obj := read_target object in
  if negb (has obj path) then
    throw ("Cannot update track store: invalid document path: " +:+ path)
  else
    let* existingValue := get_ path in
    let valueHasChanged := negb (isEqual existingValue value) in
    if negb valueHasChanged then ret false
    else
      try_catch
        (let cloned := set (cloneDeep obj) path value in
         do validate path cloned then
         do write_target object (set obj path value) then
         do _onValidationSuccess path then
         do (if shouldSync then sync (KString path) else ret VUndefined) then
         ret true)
        (fun message =>
           do logger_error message then
           do _onValidationError path message then
           ret false).

Definition update (path : string) (value : value) (shouldSync : bool) : M bool :=
  _update TheDoc path value shouldSync.

(** ** Array helpers *)

(** [$arrayUpdate(path, cb, shouldSync = true)] *)
Definition arrayUpdate (path : string) (cb : list value -> value)
    (shouldSync : option bool) : M bool :=
  let* s := this in
  match get (doc s) path with
  | VArr value =>
      let newVal := cb value in
      if isEqual newVal (VArr value) then
        do logger_log ("Array " +:+ path +:+ " hasn't changed") then ret false
      else update path newVal (default true shouldSync)
  | _ => do logger_error (path +:+ " is not an array") then ret false
  end.

Definition arrayUnion (path : string) (value : value) (shouldSync : option bool)
  : M bool :=
  arrayUpdate path
    (fun array => if includes array value then VArr array
                  else VArr (array ++ [value]))
    shouldSync.

Definition arrayRemove (path : string) (value : value) (shouldSync : option bool)
  : M bool :=
  arrayUpdate path
    (fun array => VArr (List.filter (fun val => negb (strictEq val value)) array))
    shouldSync.

Definition arrayRemoveIndex (path : string) (index : nat) (shouldSync : option bool)
  : M bool :=
  arrayUpdate path
    (fun array =>
       VArr (List.map snd
               (List.filter (fun iv => negb (Nat.eqb (fst iv) index))
                            (imap (fun i v => (i, v)) array))))
    shouldSync.

Definition arrayUpdateItem (path : string) (index : nat) (newItem : value)
    (shouldSync : option bool) : M bool :=
  arrayUpdate path
    (fun array => VArr (imap (fun i item => if Nat.eqb i index then newItem else item) array))
    shouldSync.

(** ** Collection actions *)

(** [$getDoc(id)]: the first element whose [__id] is [id], by position. *)
Fixpoint find_doc (id : string) (items : list value) (i : nat) : option nat :=
  match items with
  | [] => None
  | item :: rest =>
      if strictEq (read_prop item "__id") (VStr id) then Some i
      else find_doc id rest (S i)
  end.

(** [$updateDoc(id, path, value)]: the optimistic [_update] is not awaited,
    so its rejection does not reach the caller. *)
Definition updateDoc_ (id path : string) (value : value) : M Js.value :=
  let* s := this in
  do match find_doc id (collection s) 0 with
     | Some i =>
         try_catch (let* _ := _update (Item i) path value false in ret tt)
                   (fun _ => ret tt)
     | None => ret tt
     end then
  _updateDoc (VStr id) (VObj [(path, value)]).

End Actions.

(** The handler [_runHandler] ends up calling, if any. *)
Definition handler_for (cfg : config) (s : store) (name : string) : option handler :=
  match options cfg name with
  | LNull => None
  | LFn h => Some h
  | LUndefined => _globalOptions s name
  end.

End Store.

(* ===================================================================== *)
(** * lib/store.js: subcollections                                        *)
(* ===================================================================== *)

Module Subcollection.
Import Js Store.

(** [path.split('/')] *)
Fixpoint split_slash (s : string) (cur : string) : list string :=
  match s with
  | EmptyString => [cur]
  | String c s' =>
      if Ascii.eqb c "/"%char then cur :: split_slash s' ""
      else split_slash s' (cur +:+ String c EmptyString)
  end.

Definition set_collectionPath (path : string) : M unit :=
  fun w =>
    let s := st w in
    (World (MkStore (sid s) path (_globalOptions s) (doc s) (collection s))
           (remote w) (trace w), inl tt).

(** [$setCollectionPath(path)], in a store defined with [collectionName];
    [logger.error] returns [undefined]. *)
Definition setCollectionPath (collectionName : string) (path : string) : M value :=
  let segments := split_slash path "" in
  let isValid := Nat.eqb (length segments mod 2) 0 in
  if negb isValid then
    do logger_error "Invalid collection path" then ret VUndefined
  else
    do set_collectionPath (path +:+ "/" +:+ collectionName) then ret VUndefined.

End Subcollection.

(* ===================================================================== *)
(** * lib/store.js: one-time initialization                               *)
(* ===================================================================== *)

Module Lifecycle.

Inductive lifecycle :=
| UNINITIALIZED
| INITITALIZING
| INITIALIZED.

(** The fields of the store the guard reads and writes. *)
Record store := MkStore {
  _db : bool;                       (* the plugin has set a database handle *)
  _initializedState : lifecycle;
  isInitialized : bool;
}.

(** What [state()] gives these fields. *)
Definition initial_state (db : bool) : store := MkStore db UNINITIALIZED false.

(** What [initialize.call(store)] comes back with. *)
Inductive init_result :=
| Value          (* anything that is not an instance of [Promise] *)
| APromise       (* a [Promise], settled later *)
| Raises.        (* an exception *)

(** The store with the bookkeeping the properties are about: how often
    the initializer was called, how many of its promises are still
    pending with [onInitialized] attached, and how many runs of the
    initializer have completed: have returned something that is not a
    [Promise], or have had their [Promise] fulfil. *)
Record machine := Machine {
  cur : store;
  calls : nat;
  pending : nat;
  completed : nat;
}.

Definition start (db : bool) : machine := Machine (initial_state db) 0 0 0.

Definition onInitialized (s : store) : store := MkStore (_db s) INITIALIZED true.

Definition is_initializing (l : lifecycle) : bool :=
  match l with INITITALIZING => true | _ => false end.

(** Calling the function [defineFirebaseStore] returned. *)
Definition access (initialize : option (store -> init_result)) (m : machine) : machine :=
  let store := cur m in
  if negb (_db store) then m
  else if negb (isInitialized store) && negb (is_initializing (_initializedState store))
  then
    let store1 := MkStore (_db store) INITITALIZING (isInitialized store) in
    match initialize with
    | None => Machine (onInitialized store1) (calls m) (pending m) (completed m)
    | Some init =>
        match init store1 with
        | Value => Machine (onInitialized store1) (S (calls m)) (pending m) (S (completed m))
        | APromise => Machine store1 (S (calls m)) (S (pending m)) (completed m)
        | Raises => Machine store1 (S (calls m)) (pending m) (completed m)
        end
    end
  else m.

(** Pinia [$reset()], as [$delete] and [_unbind] call it: the state is
    assigned what [state()] returns; [_db] is no part of the state. *)
Definition reset (m : machine) : machine :=
  Machine (initial_state (_db (cur m))) (calls m) (pending m) (completed m).

Inductive step :=
| Access                 (* the store is accessed *)
| Fulfilled              (* a pending promise of the initializer fulfils *)
| Failed                 (* a pending promise of the initializer rejects *)
| Reset.                 (* [$reset()] *)

Definition run_step (initialize : option (store -> init_result)) (m : machine)
    (e : step) : machine :=
  match e with
  | Access => access initialize m
  | Fulfilled =>
      match pending m with
      | O => m
      | S n => Machine (onInitialized (cur m)) (calls m) n (S (completed m))
      end
  | Failed =>
      match pending m with
      | O => m
      | S n => Machine (cur m) (calls m) n (completed m)
      end
  | Reset => reset m
  end.

Definition run (initialize : option (store -> init_result)) (m : machine)
    (es : list step) : machine :=
  fold_left (run_step initialize) es m.

Definition rank (l : lifecycle) : nat :=
  match l with
  | UNINITIALIZED => 0
  | INITITALIZING => 1
  | INITIALIZED => 2
  end.

Definition is_reset (e : step) : bool :=
  match e with Reset => true | _ => false end.

End Lifecycle.

(* ===================================================================== *)
(** * lib/store.js: the proxy around the store                            *)
(* ===================================================================== *)

Module Proxy.
Import Js.

(** The store as the traps see it: its [doc] and its other properties.
    Only own properties are represented. *)
Record store := MkStore {
  doc : value;
  props : fields_t;
}.

(** [Reflect.get(target, prop)] *)
Definition reflect_get (s : store) (prop : string) : value :=
  if String.eqb prop "doc" then doc s
  else match lookup_field prop (props s) with Some v => v | None => VUndefined end.

(** [store[prop] = value] *)
Definition store_set (s : store) (prop : string) (v : value) : store :=
  if String.eqb prop "doc" then MkStore v (props s)
  else MkStore (doc s) (set_field prop v (props s)).

(** [store.doc[prop]]: a TypeError when [doc] is [undefined] or [null]. *)
Definition doc_member (s : store) (prop : string) : option value :=
  match doc s with
  | VUndefined | VNull => None
  | d => Some (read_prop d prop)
  end.

(** [store.doc[prop] = value] *)
Definition doc_set (s : store) (prop : string) (v : value) : option store :=
  match doc s with
  | VUndefined | VNull => None
  | d => Some (MkStore (write_prop d prop v) (props s))
  end.

(** The document state declares [prop]. *)
Definition declares (s : store) (prop : string) : bool :=
  match own_prop (doc s) prop with Some _ => true | None => false end.

(** *** The options store (the traps at the end of [defineFirebaseStore]) *)

Definition proxy_get (s : store) (prop : string) : option value :=
  match doc_member s prop with
  | None => None
  | Some v => if truthy v then doc_member s prop else Some (reflect_get s prop)
  end.

Definition is_undefined (v : value) : bool :=
  match v with VUndefined => true | _ => false end.

Definition proxy_set (s : store) (prop : string) (v : value) : option store :=
  match doc_member s prop with
  | None => None
  | Some cur =>
      if negb (is_undefined cur) then doc_set s prop v
      else Some (store_set s prop v)
  end.

(** *** The setup store (first variant) *)

Definition proxy_get_setup (s : store) (prop : string) : option value :=
  if has (doc s) prop then doc_member s prop
  else Some (reflect_get s prop).

Definition proxy_set_setup (s : store) (prop : string) (v : value) : option store :=
  if has (doc s) prop then doc_set s prop v
  else Some (store_set s prop v).

End Proxy.

(* ===================================================================== *)
(** * The store of the test suite                                         *)
(* ===================================================================== *)

(** The schema, document and handlers of [__tests__/store.spec.js] and
    [__tests__/plugin.spec.js], used to run the actions on. *)
Module Scenario.
Import Js Store.

(** [testValue: number().default(50).min(10).max(100)] and
    [numbers: array()], validated at one path. *)
Definition testSchema : schema :=
  Schema (fun path o =>
    if String.eqb path "testValue" then
      match get o path with
      | VNum n =>
          if n <? 10 then Some "testValue must be greater than or equal to 10"
          else if 100 <? n then Some "testValue must be less than or equal to 100"
          else None
      | _ => Some "testValue must be a number"
      end
    else if String.eqb path "numbers" then
      match get o path with
      | VArr _ => None
      | _ => Some "numbers must be an array"
      end
    else None).

Definition quiet : handler := fun _ => Returns VUndefined.

Definition broken : handler := fun _ => Throws "handler failed".

Definition stamp : handler := fun _ => Returns (VObj [("updatedBy", VStr "user2")]).

Definition testConfig : config := Config (fun _ => LUndefined) (Some testSchema).

Definition testFields : fields_t :=
  [("title", VStr "");
   ("testValue", VNum 50);
   ("parent", VObj [("child", VNum 1)]);
   ("numbers", VArr [VNum 1; VNum 2; VNum 2; VNum 3])].

Definition testDoc : value :=
  VObj (("__id", VStr "doc1") :: ("__path", VStr "testCollection/doc1") :: testFields).

Definition otherDoc : value :=
  VObj [("__id", VStr "doc2"); ("title", VStr "other"); ("testValue", VNum 20)].

Definition handlers (success updated : handler) (name : string) : option handler :=
  if String.eqb name "onValidationSuccess" then Some success
  else if String.eqb name "onValidationError" then Some quiet
  else if String.eqb name "appendToUpdated" then Some updated
  else None.

Definition testStore (success updated : handler) : store :=
  MkStore "test" "testCollection" (handlers success updated) testDoc [otherDoc].

Definition testWorld (success updated : handler) : world :=
  World (testStore success updated)
        {[ "testCollection/doc1" := testFields ]}
        [].

(** A store bound to a document and to a query, as [$fetch] and [$query]
    bind it. *)
Definition docRef : Piniafire.reference := Piniafire.Reference "document" (Some "doc1").

Definition queryRef : Piniafire.reference := Piniafire.Reference "query" None.

Definition testInstance : Piniafire.pinia :=
  Piniafire.Pinia "test" [("doc", Piniafire.Val (VObj testFields))] []
                  Piniafire.empty_docs.

Definition emptyWorld : Piniafire.world := Piniafire.World ∅ testInstance [] 0 [].

Definition snapshotOf (id : string) (data : value) : Piniafire.snapshot :=
  Piniafire.Snapshot true id ("testCollection/" +:+ id) (VObj []) data.

Definition missing (id : string) : Piniafire.snapshot :=
  Piniafire.Snapshot false id ("testCollection/" +:+ id) (VObj []) VUndefined.

End Scenario.

(* ===================================================================== *)
(** * Facts about values and paths                                        *)
(* ===================================================================== *)

Module JsFacts.
Import Js.

Section ValueInduction.
Variable P : value -> Prop.
Hypothesis Hundefined : P VUndefined.
Hypothesis Hnull : P VNull.
Hypothesis Hbool : forall b, P (VBool b).
Hypothesis Hnum : forall n, P (VNum n).
Hypothesis Hstr : forall s, P (VStr s).
Hypothesis Harr : forall xs, Forall P xs -> P (VArr xs).
Hypothesis Hobj : forall fs, Forall (fun kv => P (snd kv)) fs -> P (VObj fs).

Fixpoint value_induction (v : value) : P v :=
  match v with
  | VUndefined => Hundefined
  | VNull => Hnull
  | VBool b => Hbool b
  | VNum n => Hnum n
  | VStr s => Hstr s
  | VArr xs =>
      Harr xs
        ((fix go (l : list value) : Forall P l :=
            match l with
            | [] => @List.Forall_nil _ P
            | x :: l' => @List.Forall_cons _ P x l' (value_induction x) (go l')
            end) xs)
  | VObj fs =>
      Hobj fs
        ((fix go (l : fields_t) : Forall (fun kv => P (snd kv)) l :=
            match l with
            | [] => @List.Forall_nil _ _
            | (k, x) :: l' =>
                @List.Forall_cons _ (fun kv => P (snd kv)) (k, x) l'
                                  (value_induction x) (go l')
            end) fs)
  end.
End ValueInduction.

(** A deep clone is equal to its original, node for node. *)
Lemma cloneDeep_id (v : value) : cloneDeep v = v.
Proof.
  induction v using value_induction; simpl; try reflexivity.
  - f_equal. induction H as [|x xs Hx _ IH]; simpl; [reflexivity|].
    now rewrite Hx, IH.
  - f_equal. induction H as [|[k x] fs Hx _ IH]; simpl; [reflexivity|].
    simpl in Hx. now rewrite Hx, IH.
Qed.

Lemma all2_refl (eq : value -> value -> bool) (xs : list value) :
  Forall (fun x => eq x x = true) xs -> all2 eq xs xs = true.
Proof.
  induction 1 as [|x xs Hx _ IH]; simpl; [reflexivity|].
  now rewrite Hx, IH.
Qed.

Lemma every_field_incl (eq : value -> value -> bool) (gs fs : fields_t) :
  Forall (fun kv => eq (snd kv) (snd kv) = true) fs ->
  (forall kv, In kv fs -> In kv gs) ->
  every_field eq gs fs = true.
Proof.
  induction 1 as [|[k x] fs Hx _ IH]; intros Hin; simpl; [reflexivity|].
  rewrite IH by (intros kv Hkv; apply Hin; now right).
  rewrite andb_true_r. apply existsb_exists.
  exists (k, x). split; [apply Hin; now left|].
  simpl in *. now rewrite String.eqb_refl, Hx.
Qed.

(** [isEqual] holds of a value and itself. *)
Lemma isEqual_refl (v : value) : isEqual v v = true.
Proof.
  induction v using value_induction; simpl; try reflexivity.
  - now destruct b.
  - apply Z.eqb_refl.
  - apply String.eqb_refl.
  - now apply all2_refl.
  - rewrite Nat.eqb_refl. simpl. now apply every_field_incl.
Qed.

Lemma all2_longer_r (eq : value -> value -> bool) (xs : list value) (x : value) :
  all2 eq xs (xs ++ [x]) = false.
Proof.
  induction xs as [|y xs IH]; simpl; [reflexivity|].
  rewrite IH. apply andb_false_r.
Qed.

Lemma all2_longer_l (eq : value -> value -> bool) (xs : list value) (x : value) :
  all2 eq (xs ++ [x]) xs = false.
Proof.
  induction xs as [|y xs IH]; simpl; [reflexivity|].
  rewrite IH. apply andb_false_r.
Qed.

(** An array and the same array with one more element are not equal. *)
Lemma isEqual_snoc_r (xs : list value) (x : value) :
  isEqual (VArr xs) (VArr (xs ++ [x])) = false.
Proof. apply all2_longer_r. Qed.

Lemma isEqual_snoc_l (xs : list value) (x : value) :
  isEqual (VArr (xs ++ [x])) (VArr xs) = false.
Proof. apply all2_longer_l. Qed.

(** ** Property tables *)

Lemma lookup_set_field_eq (k : string) (v : value) (fs : fields_t) :
  lookup_field k (set_field k v fs) = Some v.
Proof.
  induction fs as [|[k' v'] fs IH]; simpl.
  - now rewrite String.eqb_refl.
  - destruct (String.eqb k k') eqn:E; simpl.
    + now rewrite String.eqb_refl.
    + now rewrite E.
Qed.

Lemma lookup_set_field_ne (k k' : string) (v : value) (fs : fields_t) :
  k <> k' -> lookup_field k' (set_field k v fs) = lookup_field k' fs.
Proof.
  intros Hne. induction fs as [|[k0 v0] fs IH]; simpl.
  - destruct (String.eqb k' k) eqn:E; [|reflexivity].
    apply String.eqb_eq in E. congruence.
  - destruct (String.eqb k k0) eqn:E; simpl.
    + apply String.eqb_eq in E. subst k0.
      destruct (String.eqb k' k) eqn:E'; [|reflexivity].
      apply String.eqb_eq in E'. congruence.
    + now rewrite IH.
Qed.

Lemma set_index_lookup (i : nat) (v : value) (xs : list value) :
  set_index i v xs !! i = Some v.
Proof.
  unfold set_index. destruct (i <? length xs)%nat eqn:E.
  - apply Nat.ltb_lt in E. now apply list_lookup_insert_eq.
  - apply Nat.ltb_ge in E.
    rewrite lookup_app_r by lia.
    rewrite lookup_app_r by (rewrite length_replicate; lia).
    rewrite length_replicate. now replace (i - length xs - (i - length xs))%nat with 0%nat by lia.
Qed.

(** Reading back the property just written. *)
Lemma read_write_prop (o : value) (k : string) (x y : value) :
  own_prop o k = Some y -> read_prop (write_prop o k x) k = x.
Proof.
  unfold read_prop. destruct o; simpl; try discriminate.
  - destruct (index_of_key k) as [i|] eqn:E; [|discriminate].
    intros _. simpl. now rewrite E, set_index_lookup.
  - intros _. now rewrite lookup_set_field_eq.
Qed.

Lemma own_write_prop_ne (o : value) (k k' : string) (x : value) :
  k <> k' -> index_of_key k' = None ->
  own_prop (write_prop o k x) k' = own_prop o k'.
Proof.
  intros Hne Hk'. destruct o; simpl; try reflexivity.
  - destruct (index_of_key k); simpl; now rewrite Hk'.
  - now apply lookup_set_field_ne.
Qed.

Lemma write_prop_isObject (o : value) (k : string) (x : value) :
  isObject (write_prop o k x) = isObject o.
Proof. destruct o; simpl; try reflexivity. now destruct (index_of_key k). Qed.

Lemma own_prop_isObject (o : value) (k : string) (y : value) :
  own_prop o k = Some y -> isObject o = true.
Proof. destruct o; simpl; congruence. Qed.

(** ** Paths *)

Lemma has_dot_app (a b : string) : has_dot (a +:+ b) = has_dot a || has_dot b.
Proof.
  induction a as [|c a IH]; simpl; [reflexivity|].
  now rewrite IH, orb_assoc.
Qed.

(** The first key of a split path has no dot in it. *)
Lemma split_dots_head (s cur : string) :
  has_dot cur = false ->
  exists k rest, split_dots s cur = k :: rest /\ has_dot k = false.
Proof.
  revert cur. induction s as [|c s IH]; intros cur Hcur; simpl.
  - now exists cur, [].
  - destruct (Ascii.eqb c ".") eqn:E.
    + now exists cur, (split_dots s "").
    + apply IH. rewrite has_dot_app, Hcur. simpl. now rewrite E.
Qed.

Lemma digits_dot (s : string) (acc : nat) : has_dot s = true -> digits s acc = None.
Proof.
  revert acc. induction s as [|c s IH]; intros acc; simpl; [discriminate|].
  destruct (Ascii.eqb c ".") eqn:E; simpl.
  - apply Ascii.eqb_eq in E. now subst c.
  - intros H. destruct (digit_of c); [now apply IH|reflexivity].
Qed.

(** A name with a dot is no array index. *)
Lemma index_of_key_dot (p : string) : has_dot p = true -> index_of_key p = None.
Proof.
  destruct p as [|c [|c' p]]; simpl; [discriminate| |].
  - destruct (Ascii.eqb c ".") eqn:E; [|discriminate].
    apply Ascii.eqb_eq in E. now subst c.
  - intros H. destruct (Ascii.eqb c "0"); [reflexivity|].
    change (digits (String c (String c' p)) 0 = None).
    now apply digits_dot.
Qed.

Lemma baseSet_one (o : value) (k : string) (x : value) :
  baseSet o [k] x = write_prop o k x.
Proof. reflexivity. Qed.

Lemma baseSet_cons (o : value) (k k' : string) (r : list string) (x : value) :
  baseSet o (k :: k' :: r) x =
  write_prop o k
    (baseSet (if isObject (read_prop o k) then read_prop o k
              else if isIndex k' then VArr [] else VObj [])
             (k' :: r) x).
Proof. reflexivity. Qed.

(** [baseSet] writes one property of the object it is given. *)
Lemma baseSet_root (o : value) (k : string) (rest : list string) (x : value) :
  exists y, baseSet o (k :: rest) x = write_prop o k y.
Proof.
  destruct rest as [|k' r]; [now exists x|].
  rewrite baseSet_cons. eauto.
Qed.

Lemma hasPath_isObject (o : value) (ks : list string) :
  hasPath o ks = true -> isObject o = true.
Proof.
  destruct ks as [|k [|k' r]]; simpl; [discriminate| |];
    destruct (own_prop o k) eqn:E; try discriminate;
    intros _; eapply own_prop_isObject; eauto.
Qed.

Lemma baseGet_cons_object (o : value) (k : string) (ks : list string) :
  isObject o = true -> baseGet o (k :: ks) = baseGet (read_prop o k) ks.
Proof. destruct o; simpl; congruence. Qed.

Lemma baseGet_baseSet (ks : list string) :
  forall (o x : value), hasPath o ks = true -> baseGet (baseSet o ks x) ks = x.
Proof.
  induction ks as [|k ks IH]; intros o x H; [discriminate|].
  destruct ks as [|k' r].
  - simpl in H. destruct (own_prop o k) as [y|] eqn:E; [|discriminate].
    rewrite baseSet_one, baseGet_cons_object.
    + simpl. eapply read_write_prop; eauto.
    + rewrite write_prop_isObject. eapply own_prop_isObject; eauto.
  - assert (Ho : isObject o = true) by (eapply hasPath_isObject; eauto).
    change (hasPath o (k :: k' :: r)) with
      (match own_prop o k with Some v' => hasPath v' (k' :: r) | None => false end) in H.
    destruct (own_prop o k) as [c|] eqn:E; [|discriminate].
    assert (Hc : isObject c = true) by (eapply hasPath_isObject; eauto).
    rewrite baseSet_cons. unfold read_prop at 1 2. rewrite E, Hc.
    rewrite baseGet_cons_object by now rewrite write_prop_isObject.
    erewrite read_write_prop by eauto.
    now apply IH.
Qed.

(** Writing along a path does not change how the path is read. *)
Lemma castPath_baseSet (o : value) (p : string) (x : value) :
  isObject o = true ->
  castPath p (baseSet o (castPath p o) x) = castPath p o.
Proof.
  intros Ho. unfold castPath. destruct (has_dot p) eqn:Hd; [|reflexivity].
  destruct (own_prop o p) as [y|] eqn:E.
  - rewrite baseSet_one.
    destruct o; simpl in *; try discriminate.
    + now rewrite (index_of_key_dot p Hd) in E.
    + now rewrite lookup_set_field_eq.
  - destruct (split_dots_head p "" eq_refl) as (k & rest & -> & Hk).
    destruct (baseSet_root o k rest x) as [y ->].
    rewrite own_write_prop_ne, E; [reflexivity| |now apply index_of_key_dot].
    intros ->. congruence.
Qed.

(** What [set] wrote at a path the object has is what [get] reads there. *)
Lemma get_set (o : value) (p : string) (x : value) :
  has o p = true -> get (set o p x) p = x.
Proof.
  unfold has, get, set. intros H.
  assert (Ho : isObject o = true) by (eapply hasPath_isObject; eauto).
  rewrite Ho, castPath_baseSet by assumption.
  now apply baseGet_baseSet.
Qed.

Lemma baseGet_undefined (ks : list string) : ks <> [] -> baseGet VUndefined ks = VUndefined.
Proof. destruct ks; [congruence|reflexivity]. Qed.

Lemma baseGet_hasPath (ks : list string) :
  forall (o : value), ks <> [] -> baseGet o ks <> VUndefined -> hasPath o ks = true.
Proof.
  induction ks as [|k ks IH]; intros o Hne H; [congruence|].
  assert (Hr : baseGet (read_prop o k) ks <> VUndefined).
  { destruct o; simpl in H; try congruence; exact H. }
  destruct ks as [|k' r].
  - simpl in *. unfold read_prop in Hr. now destruct (own_prop o k).
  - change (hasPath o (k :: k' :: r)) with
      (match own_prop o k with Some v' => hasPath v' (k' :: r) | None => false end).
    unfold read_prop in Hr. destruct (own_prop o k) as [c|] eqn:E.
    + apply IH; [discriminate|assumption].
    + now rewrite baseGet_undefined in Hr.
Qed.

Lemma castPath_nonempty (p : string) (o : value) : castPath p o <> [].
Proof.
  unfold castPath. destruct (has_dot p); [|discriminate].
  destruct (own_prop o p); [discriminate|].
  destruct (split_dots_head p "" eq_refl) as (k & rest & -> & _). discriminate.
Qed.

(** A path at which [get] finds something is a path the object has. *)
Lemma get_has (o : value) (p : string) : get o p <> VUndefined -> has o p = true.
Proof. apply baseGet_hasPath, castPath_nonempty. Qed.

(** ** Building and applying patches *)

Lemma lookup_assign_fields_none (k : string) (b : fields_t) :
  forall a, lookup_field k b = None ->
            lookup_field k (assign_fields a b) = lookup_field k a.
Proof.
  unfold assign_fields.
  induction b as [|[k' v'] b IH]; intros a H; simpl in *; [reflexivity|].
  destruct (String.eqb k k') eqn:E; [discriminate|].
  rewrite IH by assumption. apply lookup_set_field_ne.
  intros ->. now rewrite String.eqb_refl in E.
Qed.

Lemma sameValueZero_refl (x : value) : isPrimitive x = true -> sameValueZero x x = true.
Proof.
  destruct x; simpl; try discriminate; intros _; try reflexivity.
  - now destruct b.
  - apply Z.eqb_refl.
  - apply String.eqb_refl.
Qed.

Lemma includes_snoc (xs : list value) (x : value) :
  isPrimitive x = true -> includes (xs ++ [x]) x = true.
Proof.
  intros H. unfold includes. rewrite existsb_app. simpl.
  rewrite (sameValueZero_refl x H). now rewrite orb_true_r.
Qed.

End JsFacts.

(* ===================================================================== *)
(** * The mutation pipeline                                               *)
(* ===================================================================== *)

Module StoreFacts.
Import Js Store JsFacts.

(** ** Building and applying patches *)

Lemma named_fields_cons (docData : value) (k : string) (ks : list string) (acc : fields_t) :
  named_fields docData (k :: ks) acc
  = named_fields docData ks (set_field k (get docData k) acc).
Proof. reflexivity. Qed.

Lemma named_fields_other (docData : value) (k : string) (ks : list string) :
  forall acc, ~ In k ks ->
              lookup_field k (named_fields docData ks acc) = lookup_field k acc.
Proof.
  induction ks as [|k' ks IH]; intros acc H; [reflexivity|].
  rewrite named_fields_cons, IH by (intros ?; apply H; now right).
  apply lookup_set_field_ne. intros ->. apply H. now left.
Qed.

Lemma named_fields_named (docData : value) (k : string) (ks : list string) :
  forall acc, In k ks ->
              lookup_field k (named_fields docData ks acc) = Some (get docData k).
Proof.
  induction ks as [|k' ks IH]; intros acc H; [destruct H|].
  rewrite named_fields_cons.
  destruct (in_dec string_dec k ks) as [Hin|Hout].
  - now apply IH.
  - destruct H as [->|H]; [|contradiction].
    rewrite (named_fields_other docData k ks _ Hout).
    apply lookup_set_field_eq.
Qed.

Lemma named_fields_length (docData : value) (ks : list string) :
  (0 <? length (named_fields docData ks []))%nat = negb (Nat.eqb (length ks) 0).
Proof.
  destruct ks as [|k ks]; [reflexivity|].
  change (negb (Nat.eqb (length (k :: ks)) 0)) with true.
  pose proof (named_fields_named docData k (k :: ks) [] (or_introl eq_refl)) as H.
  now destruct (named_fields docData (k :: ks) []).
Qed.

Lemma apply_patch_frame (f : string) (patch : fields_t) :
  forall stored,
    (forall kv, In kv patch -> root (fst kv) <> f) ->
    lookup_field f (apply_patch stored patch) = lookup_field f stored.
Proof.
  unfold apply_patch.
  induction patch as [|[k v] patch IH]; intros stored H; simpl; [reflexivity|].
  rewrite IH by (intros kv Hkv; apply H; now right).
  specialize (H (k, v) (or_introl eq_refl)). unfold root in H. simpl in H.
  destruct (split_dots_head k "" eq_refl) as (k0 & rest & Hs & _).
  rewrite Hs in *.
  destruct (baseSet_root (VObj stored) k0 rest v) as [y ->]. simpl.
  now apply lookup_set_field_ne.
Qed.

(** The world with more events on its trace. *)
Definition logged (w : world) (es : list event) : world :=
  World (st w) (remote w) (trace w ++ es).

(** An action that leaves the store as it is (it may log, call handlers
    and write to the remote documents). *)
Definition keeps_store {A} (m : M A) : Prop := forall w, st (fst (m w)) = st w.

Lemma keeps_ret {A} (a : A) : keeps_store (ret a).
Proof. now intros w. Qed.

Lemma keeps_throw {A} (msg : string) : keeps_store (@throw A msg).
Proof. now intros w. Qed.

Lemma keeps_emit (e : event) : keeps_store (emit e).
Proof. now intros w. Qed.

Lemma keeps_this : keeps_store this.
Proof. now intros w. Qed.

Lemma keeps_bind {A B} (m : M A) (k : A -> M B) :
  keeps_store m -> (forall a, keeps_store (k a)) -> keeps_store (bindM m k).
Proof.
  intros Hm Hk w. unfold bindM. specialize (Hm w).
  destruct (m w) as [w' [a|e]]; simpl in *; [|assumption].
  now rewrite Hk.
Qed.

Lemma keeps_try {A} (m : M A) (h : string -> M A) :
  keeps_store m -> (forall e, keeps_store (h e)) -> keeps_store (try_catch m h).
Proof.
  intros Hm Hh w. unfold try_catch. specialize (Hm w).
  destruct (m w) as [w' [a|e]]; simpl in *; [assumption|].
  now rewrite Hh.
Qed.

Create HintDb keeps.
Lemma run_bind {A B} (m : M A) (k : A -> M B) (w w' : world) (a : A) :
  m w = (w', inl a) -> bindM m k w = k a w'.
Proof. intros H. unfold bindM. now rewrite H. Qed.

Lemma run_bind_throw {A B} (m : M A) (k : A -> M B) (w w' : world) (e : string) :
  m w = (w', inr e) -> bindM m k w = (w', inr e).
Proof. intros H. unfold bindM. now rewrite H. Qed.

#[local] Hint Resolve keeps_ret keeps_throw keeps_emit keeps_this : keeps.

Ltac keeps :=
  repeat match goal with
    | |- keeps_store (bindM _ _) => apply keeps_bind; [|intros ?]
    | |- keeps_store (try_catch _ _) => apply keeps_try; [|intros ?]
    | |- keeps_store (ret _) => apply keeps_ret
    | |- keeps_store (throw _) => apply keeps_throw
    | |- keeps_store (emit _) => apply keeps_emit
    | |- keeps_store this => apply keeps_this
    | |- keeps_store (match ?x with _ => _ end) => destruct x
    end.

Section WithConfig.
Context (cfg : config).

(** [_runHandler] calls the handler picked by [handler_for], once, and
    passes on what it returns or throws. *)
Lemma runHandler_spec (name : string) (args : list value) (w : world) :
  _runHandler cfg name args w =
  match handler_for cfg (st w) name with
  | None => (w, inl VUndefined)
  | Some h =>
      (logged w [Called name args],
       match h args with Returns v => inl v | Throws msg => inr msg end)
  end.
Proof.
  unfold _runHandler, handler_for.
  destruct (options cfg name) as [| |h]; [reflexivity| |].
  - unfold bindM, this. simpl. destruct (_globalOptions (st w) name) as [h|]; [|reflexivity].
    unfold emit, logged. simpl. now destruct (h args).
  - unfold bindM, this, emit, logged. simpl. now destruct (h args).
Qed.

Lemma keeps_runHandler (name : string) (args : list value) :
  keeps_store (_runHandler cfg name args).
Proof.
  intros w. rewrite runHandler_spec.
  destruct (handler_for cfg (st w) name) as [h|]; reflexivity.
Qed.

Lemma keeps_member (o : value) (k : string) : keeps_store (member o k).
Proof. unfold member. destruct o; auto with keeps. Qed.

Lemma keeps_updateDoc (ref : string) (patch : fields_t) : keeps_store (updateDoc ref patch).
Proof.
  unfold updateDoc. apply keeps_bind; [auto with keeps|]. intros _ w.
  now destruct (remote w !! ref).
Qed.

Lemma keeps_getRef (arg : value) : keeps_store (getRef arg).
Proof.
  unfold getRef, _getRef, logger_error. keeps. apply keeps_member.
Qed.

Lemma keeps_updateDoc_ (id data : value) : keeps_store (_updateDoc cfg id data).
Proof.
  unfold _updateDoc, _appendToUpdated, logger_error.
  keeps; first [apply keeps_getRef | apply keeps_runHandler | apply keeps_updateDoc].
Qed.

Lemma keeps_sync_ (docData : value) (keys : keys_arg) : keeps_store (_sync cfg docData keys).
Proof.
  unfold _sync. keeps; first [apply keeps_member | apply keeps_updateDoc_].
Qed.

Lemma keeps_sync (keys : keys_arg) : keeps_store (sync cfg keys).
Proof. unfold sync. keeps. apply keeps_sync_. Qed.

(** The world once [set(object, path, value)] has run. *)
Definition written (object : target) (path : string) (v : value) (w : world) : world :=
  fst (write_target object (set (object_of object (st w)) path v) w).

Lemma written_run (object : target) (path : string) (v : value) (w : world) :
  write_target object (set (object_of object (st w)) path v) w
  = (written object path v w, inl tt).
Proof. unfold written. now destruct object. Qed.

Lemma written_object (object : target) (path : string) (v : value) (w : world) :
  has (object_of object (st w)) path = true ->
  object_of object (st (written object path v w)) = set (object_of object (st w)) path v.
Proof.
  unfold written. destruct object as [|i]; simpl; [reflexivity|].
  intros H. destruct (collection (st w) !! i) as [o|] eqn:E;
    [|apply hasPath_isObject in H; discriminate].
  rewrite list_lookup_insert_eq; [reflexivity|].
  eapply lookup_lt_Some; eauto.
Qed.

Lemma written_handlers (object : target) (path : string) (v : value) (w : world) (name : string) :
  handler_for cfg (st (written object path v w)) name = handler_for cfg (st w) name
  /\ sid (st (written object path v w)) = sid (st w).
Proof. unfold written, handler_for. destruct object; simpl; auto. Qed.

(** When the path is present on the object handed to [_update] and the
    new value is deep-equal to the value [$get] reads at the path - the
    one in the store's own [doc] - the call returns [false] and nothing
    else happens: the store, the remote documents and the trace of logs,
    handler calls and remote writes are what they were.  For [$update],
    which hands over [this.doc], this is the value at the path of the
    object itself. *)
Theorem update_same_value_is_noop
    (object : target) (path : string) (v : value) (shouldSync : bool) (w : world) :
  has (object_of object (st w)) path = true ->
  isEqual (get (doc (st w)) path) v = true ->
  _update cfg object path v shouldSync w = (w, inl false).
Proof.
  intros Hhas Heq.
  unfold _update, read_target, get_, bindM, this, ret. simpl.
  rewrite Hhas. simpl. now rewrite Heq.
Qed.

(** C3: when the path is present, the value differs from the current one
    and the schema rejects the prospective write, the call is fulfilled
    with [false] (it does not reject), the object it was handed is
    deep-equal to what it was (the whole store and the remote documents are
    untouched), and the validation-failure callback has been called with
    (store id, path, error message) after the error was logged. *)
Theorem update_rejected_write_leaves_doc
    (object : target) (path : string) (v : value) (shouldSync : bool) (w : world)
    (sch : schema) (message : string) (h : handler) (r : value) :
  docSchema cfg = Some sch ->
  has (object_of object (st w)) path = true ->
  isEqual (get (doc (st w)) path) v = false ->
  validateSyncAt sch path (set (cloneDeep (object_of object (st w))) path v)
    = Some message ->
  handler_for cfg (st w) "onValidationError" = Some h ->
  h [VStr (sid (st w)); VStr path; VStr message] = Returns r ->
  exists w',
    _update cfg object path v shouldSync w = (w', inl false)
    /\ isEqual (object_of object (st w')) (object_of object (st w)) = true
    /\ st w' = st w
    /\ remote w' = remote w
    /\ trace w' = trace w ++
         [Log "error" message;
          Called "onValidationError" [VStr (sid (st w)); VStr path; VStr message]].
Proof.
  intros Hsch Hhas Hne Hval Hh Hr.
  eexists. split.
  - unfold _update, read_target, get_.
    unfold bindM at 1 2. unfold this at 1. simpl.
    rewrite Hhas. simpl. unfold bindM at 1 2. unfold this at 1. simpl.
    rewrite Hne. simpl.
    unfold try_catch, validate. rewrite Hsch, Hval.
    unfold bindM at 1. unfold throw at 1.
    unfold bindM at 1. unfold logger_error, emit at 1.
    unfold bindM at 1. unfold _onValidationError.
    unfold bindM at 1. unfold this at 1.
    rewrite runHandler_spec. simpl. rewrite Hh, Hr. unfold ret. reflexivity.
  - simpl. rewrite isEqual_refl, <- app_assoc. auto.
Qed.

(** C10: when validation has succeeded and the new value is already
    written, an exception from the validation-success handler or from the
    remote sync is caught: the call is fulfilled with [false] and the
    validation-error handler is called with the message, while the object
    holds the new value at the path. *)
Theorem update_false_after_write
    (object : target) (path : string) (v : value) (shouldSync : bool) (w w1 : world)
    (message : string) (h : handler) (r : value) :
  has (object_of object (st w)) path = true ->
  isEqual (get (doc (st w)) path) v = false ->
  (forall sch, docSchema cfg = Some sch ->
     validateSyncAt sch path (set (cloneDeep (object_of object (st w))) path v) = None) ->
  (do _onValidationSuccess cfg path then
   if shouldSync then sync cfg (KString path) else ret VUndefined)
    (written object path v w) = (w1, inr message) ->
  handler_for cfg (st w) "onValidationError" = Some h ->
  h [VStr (sid (st w)); VStr path; VStr message] = Returns r ->
  exists w',
    _update cfg object path v shouldSync w = (w', inl false)
    /\ trace w' = trace w1 ++
         [Log "error" message;
          Called "onValidationError" [VStr (sid (st w)); VStr path; VStr message]]
    /\ object_of object (st w') = set (object_of object (st w)) path v
    /\ get (object_of object (st w')) path = v.
Proof.
  intros Hhas Hne Hval Hthrow Hh Hr.
  assert (Hst : st w1 = st (written object path v w)).
  { assert (K : keeps_store
      (do _onValidationSuccess cfg path then
       if shouldSync then sync cfg (KString path) else ret VUndefined)).
    { unfold _onValidationSuccess.
      keeps; first [apply keeps_runHandler | apply keeps_sync]. }
    specialize (K (written object path v w)). now rewrite Hthrow in K. }
  destruct (written_handlers object path v w "onValidationError") as [Hh' Hsid].
  eexists. split; [|split; [|split]].
  - unfold _update, read_target, get_.
    unfold bindM at 1 2. unfold this at 1. simpl.
    rewrite Hhas. simpl. unfold bindM at 1 2. unfold this at 1. simpl.
    rewrite Hne. simpl.
    unfold try_catch.
    assert (Hv : validate cfg path (set (cloneDeep (object_of object (st w))) path v) w
                 = (w, inl tt)).
    { unfold validate. destruct (docSchema cfg) as [sch|]; [|reflexivity].
      now rewrite (Hval sch eq_refl). }
    unfold bindM at 1. rewrite Hv.
    unfold bindM at 1.
    rewrite (written_run object path v w).
    unfold bindM at 1 in Hthrow.
    unfold bindM at 1.
    destruct (_onValidationSuccess cfg path (written object path v w)) as [wa [a|e]] eqn:Ea.
    + unfold bindM at 1.
      destruct ((if shouldSync then sync cfg (KString path) else ret VUndefined) wa)
        as [wb [b|e]] eqn:Eb; [discriminate|].
      injection Hthrow as -> ->.
      unfold bindM at 1. unfold logger_error, emit at 1.
      unfold bindM at 1. unfold _onValidationError.
      unfold bindM at 1. unfold this at 1.
      rewrite runHandler_spec. simpl. rewrite Hst, Hh', Hsid, Hh, Hr.
      unfold ret. reflexivity.
    + injection Hthrow as -> ->.
      unfold bindM at 1. unfold logger_error, emit at 1.
      unfold bindM at 1. unfold _onValidationError.
      unfold bindM at 1. unfold this at 1.
      rewrite runHandler_spec. simpl. rewrite Hst, Hh', Hsid, Hh, Hr.
      unfold ret. reflexivity.
  - simpl. now rewrite <- app_assoc.
  - simpl. rewrite ?Hst. now apply written_object.
  - simpl. rewrite ?Hst, written_object by assumption. now apply get_set.
Qed.

(** Once validation has passed, the write stays, whatever the handlers
    and the sync do afterwards. *)
Lemma update_writes
    (object : target) (path : string) (v : value) (shouldSync : bool) (w : world) :
  has (object_of object (st w)) path = true ->
  isEqual (get (doc (st w)) path) v = false ->
  (forall sch, docSchema cfg = Some sch ->
     validateSyncAt sch path (set (cloneDeep (object_of object (st w))) path v) = None) ->
  st (fst (_update cfg object path v shouldSync w)) = st (written object path v w).
Proof.
  intros Hhas Hne Hval.
  unfold _update, read_target, get_.
  unfold bindM at 1 2. unfold this at 1. simpl.
  rewrite Hhas. simpl. unfold bindM at 1 2. unfold this at 1. simpl.
  rewrite Hne. simpl.
  assert (Hv : validate cfg path (set (cloneDeep (object_of object (st w))) path v) w
               = (w, inl tt)).
  { unfold validate. destruct (docSchema cfg) as [sch|]; [|reflexivity].
    now rewrite (Hval sch eq_refl). }
  unfold try_catch. unfold bindM at 1. rewrite Hv.
  unfold bindM at 1. rewrite (written_run object path v w).
  match goal with |- context [bindM ?m ?k (written object path v w)] =>
    assert (K : keeps_store (bindM m k))
  end.
  { unfold _onValidationSuccess.
    keeps; first [apply keeps_runHandler | apply keeps_sync]. }
  specialize (K (written object path v w)).
  match type of K with context [fst ?x] => destruct x as [wr [a|e]] end;
    simpl in K; [exact K|].
  rewrite <- K.
  match goal with |- st (fst (?h wr)) = _ => assert (K' : keeps_store h) end.
  { unfold _onValidationError, logger_error. keeps. apply keeps_runHandler. }
  apply K'.
Qed.

(** C9, as the code has it: for a value [x] that is not an object or an
    array - a value [includes] finds wherever it is - when the array at
    the path does not hold [x] and the schema accepts the longer array,
    the first [$arrayUnion] appends [x] - the elements that were there,
    duplicates included, stay as they are - and a second [$arrayUnion] of
    the same [x] returns [false] and leaves the store and the remote
    documents alone, so that the array after two calls is the array after
    one. *)
Theorem arrayUnion_twice_is_once
    (path : string) (x : value) (shouldSync : option bool) (w : world)
    (arr : list value) :
  get (doc (st w)) path = VArr arr ->
  isPrimitive x = true ->
  includes arr x = false ->
  (forall sch, docSchema cfg = Some sch ->
     validateSyncAt sch path (set (cloneDeep (doc (st w))) path (VArr (arr ++ [x])))
     = None) ->
  let once := fst (arrayUnion cfg path x shouldSync w) in
  let twice := arrayUnion cfg path x shouldSync once in
  get (doc (st once)) path = VArr (arr ++ [x])
  /\ snd twice = inl false
  /\ st (fst twice) = st once
  /\ remote (fst twice) = remote once
  /\ get (doc (st (fst twice))) path = get (doc (st once)) path.
Proof.
  intros Hget Hprim Hnot Hval once twice.
  assert (Hhas : has (doc (st w)) path = true)
    by (apply get_has; rewrite Hget; discriminate).
  assert (Honce : get (doc (st once)) path = VArr (arr ++ [x])).
  { subst once. unfold arrayUnion, arrayUpdate.
    unfold bindM at 1. unfold this at 1. rewrite Hget, Hnot, isEqual_snoc_l.
    unfold update. rewrite (update_writes TheDoc); try assumption.
    - rewrite (written_object TheDoc) by assumption. simpl. now apply get_set.
    - simpl. rewrite Hget. apply isEqual_snoc_r. }
  assert (Htwice : twice = (logged once [Log "info" ("Array " +:+ path +:+ " hasn't changed")],
                            inl false)).
  { subst twice. unfold arrayUnion, arrayUpdate.
    unfold bindM at 1. unfold this at 1. rewrite Honce, includes_snoc by assumption.
    now rewrite isEqual_refl. }
  rewrite Htwice. simpl. auto.
Qed.

Lemma member_run (o : value) (k : string) (w : world) :
  isObject o = true -> member o k w = (w, inl (read_prop o k)).
Proof. destruct o; simpl; intros H; first [discriminate | reflexivity]. Qed.

Lemma getRef_run (id : string) (w : world) :
  id <> "" ->
  getRef (VStr id) w = (w, inl (Some (_collectionPath (st w) +:+ "/" +:+ id))).
Proof.
  intros Hne. unfold getRef.
  assert (Ht : truthy (VStr id) = true).
  { simpl. destruct (String.eqb id "") eqn:E; [|reflexivity].
    apply String.eqb_eq in E. contradiction. }
  rewrite (run_bind _ _ w w (st w)) by reflexivity.
  rewrite Ht. rewrite (run_bind _ _ w w (VStr id)) by reflexivity.
  rewrite Ht. reflexivity.
Qed.

Lemma updateDoc_run (ref : string) (patch : fields_t) (w : world) :
  updateDoc ref patch w =
  match remote w !! ref with
  | Some stored =>
      (World (st w) (<[ref := apply_patch stored patch]> (remote w))
             (trace w ++ [UpdateDoc ref patch]), inl None)
  | None =>
      (logged w [UpdateDoc ref patch], inl (Some "FirebaseError: no document to update"))
  end.
Proof.
  unfold updateDoc, bindM, emit. simpl. now destruct (remote w !! ref).
Qed.

(** With a list of field paths (or a single one) and a document that
    has an id, [_sync] makes one remote write, to the document of that id;
    the patch holds the value of each named field, overlaid with the
    append-on-update data computed in this call, and nothing else; the
    stored fields that are the root of no key of the patch, and the other
    remote documents, are left as they are; with an empty list the patch
    is built from the whole document.  The local store is not changed and
    the call returns [true]. *)
Theorem sync_writes_named_fields
    (docData : value) (keys : keys_arg) (ks : list string) (w wa : world)
    (id : string) (appendData : value) :
  keysToSync_of keys = Some ks ->
  isObject docData = true ->
  read_prop docData "__id" = VStr id ->
  id <> "" ->
  _appendToUpdated cfg w = (wa, inl appendData) ->
  let ref := _collectionPath (st w) +:+ "/" +:+ id in
  let named := named_fields docData ks [] in
  let data := match ks with [] => docData | _ => VObj named end in
  let patch := assign_fields (spread data) (spread appendData) in
  exists w',
    _sync cfg docData keys w = (w', inl (VBool true))
    /\ st w' = st w
    /\ trace w' = trace wa ++
         UpdateDoc ref patch ::
         match remote w !! ref with
         | Some _ => []
         | None => [Log "error" "FirebaseError: no document to update"]
         end
    /\ (forall k, In k ks -> lookup_field k named = Some (get docData k))
    /\ (forall k, ~ In k ks -> lookup_field k named = None)
    /\ (forall k, lookup_field k (spread appendData) = None ->
                  lookup_field k patch = lookup_field k (spread data))
    /\ (forall r, r <> ref -> remote w' !! r = remote w !! r)
    /\ (forall stored, remote w !! ref = Some stored ->
          remote w' !! ref = Some (apply_patch stored patch)
          /\ forall f, (forall kv, In kv patch -> root (fst kv) <> f) ->
                       lookup_field f (apply_patch stored patch) = lookup_field f stored).
Proof.
  intros Hks Hobj Hid Hne Happ ref named data patch.
  assert (Hwa : st wa = st w /\ remote wa = remote w).
  { unfold _appendToUpdated in Happ. rewrite runHandler_spec in Happ.
    destruct (handler_for cfg (st w) "appendToUpdated") as [h|];
      injection Happ as <- _; auto. }
  destruct Hwa as [Hst Hrem].
  assert (Hrun : _sync cfg docData keys w =
    (match remote wa !! ref with
     | Some stored =>
         World (st wa) (<[ref := apply_patch stored patch]> (remote wa))
               (trace wa ++ [UpdateDoc ref patch])
     | None =>
         logged wa [UpdateDoc ref patch; Log "error" "FirebaseError: no document to update"]
     end, inl (VBool true))).
  { unfold _sync. rewrite Hks.
    rewrite (run_bind _ _ w w ks) by reflexivity.
    rewrite named_fields_length. fold named.
    assert (Hdata : (if negb (Nat.eqb (length ks) 0) then VObj named else docData) = data)
      by (subst data; now destruct ks).
    rewrite Hdata.
    rewrite (run_bind _ _ w w (VStr id)) by (rewrite <- Hid; now apply member_run).
    unfold _updateDoc.
    rewrite (run_bind _ _ w w (Some ref)) by now apply getRef_run.
    rewrite (run_bind _ _ w wa appendData) by assumption.
    fold patch. pose proof (updateDoc_run ref patch wa) as Hu.
    destruct (remote wa !! ref) as [stored|];
      rewrite (run_bind _ _ _ _ _ Hu); [reflexivity|].
    unfold bindM, logger_error, emit, logged, ret. simpl.
    now rewrite <- app_assoc. }
  rewrite Hrem in Hrun.
  eexists. split; [exact Hrun|].
  split; [|split; [|split; [|split; [|split; [|split]]]]].
  - destruct (remote w !! ref); simpl; assumption.
  - destruct (remote w !! ref); reflexivity.
  - intros k Hk. now apply named_fields_named.
  - intros k Hk. unfold named. now rewrite named_fields_other.
  - intros k Hk. now apply lookup_assign_fields_none.
  - intros r Hr. destruct (remote w !! ref) eqn:E; simpl; [|now rewrite ?Hrem].
    rewrite ?Hrem. now apply lookup_insert_ne.
  - intros stored Hs. rewrite Hs. simpl. rewrite ?Hrem. split.
    + apply lookup_insert_eq.
    + intros f Hf. now apply apply_patch_frame.
Qed.

(** With no argument at all, [$sync()] throws before anything is sent. *)
Lemma sync_without_keys_throws (docData : value) (w : world) :
  _sync cfg docData KUndefined w =
  (w, inr "TypeError: cannot read properties of undefined (reading 'reduce')").
Proof. reflexivity. Qed.

End WithConfig.

(** ** The theorems on the store of the test suite *)

Import Scenario.

Example update_same_value_on_doc :
  update testConfig "testValue" (VNum 50) true (testWorld quiet quiet)
  = (testWorld quiet quiet, inl false).
Proof. apply update_same_value_is_noop; reflexivity. Qed.

(** C4 on an element of the collection: the store's [doc] has
    [testValue] 50 and the first element of its collection (id doc2) has
    [testValue] 20.  [_update] on that element with the value 20 - equal
    to what the element holds at the path - compares 20 with the 50 that
    [$get] reads in [doc]: it validates, writes, calls the
    validation-success callback and returns [true], where the claim has
    it return [false] with no callback.  [$updateDoc] makes this call. *)
Lemma update_item_compares_with_doc :
  let w := testWorld quiet quiet in
  let called := Called "onValidationSuccess" [VStr "test"; VStr "testValue"] in
  object_of (Item 0) (st w) = otherDoc
  /\ has otherDoc "testValue" = true
  /\ isEqual (get otherDoc "testValue") (VNum 20) = true
  /\ get (doc (st w)) "testValue" = VNum 50
  /\ _update testConfig (Item 0) "testValue" (VNum 20) false w
     = (logged w [called], inl true)
  /\ In called (trace (fst (updateDoc_ testConfig "doc2" "testValue" (VNum 20) w))).
Proof.
  intros w called. repeat split; try reflexivity.
  vm_compute. auto.
Qed.

Lemma update_rejected_write_leaves_doc_witness :
  let w := testWorld quiet quiet in
  let message := "testValue must be less than or equal to 100" in
  exists w',
    _update testConfig TheDoc "testValue" (VNum 999) false w = (w', inl false)
    /\ isEqual (object_of TheDoc (st w')) (object_of TheDoc (st w)) = true
    /\ st w' = st w
    /\ remote w' = remote w
    /\ trace w' = trace w ++
         [Log "error" message;
          Called "onValidationError"
                 [VStr (sid (st w)); VStr "testValue"; VStr message]].
Proof.
  apply (update_rejected_write_leaves_doc testConfig TheDoc "testValue" (VNum 999)
           false (testWorld quiet quiet) testSchema
           "testValue must be less than or equal to 100" quiet VUndefined);
    reflexivity.
Defined.

Lemma update_false_after_write_witness :
  let w := testWorld broken quiet in
  let w1 := logged (written TheDoc "testValue" (VNum 99) w)
                   [Called "onValidationSuccess" [VStr "test"; VStr "testValue"]] in
  exists w',
    _update testConfig TheDoc "testValue" (VNum 99) false w = (w', inl false)
    /\ trace w' = trace w1 ++
         [Log "error" "handler failed";
          Called "onValidationError"
                 [VStr (sid (st w)); VStr "testValue"; VStr "handler failed"]]
    /\ object_of TheDoc (st w') = set (object_of TheDoc (st w)) "testValue" (VNum 99)
    /\ get (object_of TheDoc (st w')) "testValue" = VNum 99.
Proof.
  apply (update_false_after_write testConfig TheDoc "testValue" (VNum 99) false
           (testWorld broken quiet) _ "handler failed" quiet VUndefined);
    try reflexivity.
  intros sch H. injection H as <-. reflexivity.
Defined.

(** The same when it is the sync that throws (its append-on-update
    handler), after the success handler has returned. *)
Example update_false_when_sync_throws :
  let w := testWorld quiet broken in
  let r := _update testConfig TheDoc "testValue" (VNum 99) true w in
  snd r = inl false
  /\ get (doc (st (fst r))) "testValue" = VNum 99
  /\ get (doc (st w)) "testValue" = VNum 50.
Proof. repeat split; reflexivity. Qed.

Lemma arrayUnion_twice_is_once_witness :
  let w := testWorld quiet quiet in
  let arr := [VNum 1; VNum 2; VNum 2; VNum 3] in
  let once := fst (arrayUnion testConfig "numbers" (VNum 6) None w) in
  let twice := arrayUnion testConfig "numbers" (VNum 6) None once in
  get (doc (st once)) "numbers" = VArr (arr ++ [VNum 6])
  /\ snd twice = inl false
  /\ st (fst twice) = st once
  /\ remote (fst twice) = remote once
  /\ get (doc (st (fst twice))) "numbers" = get (doc (st once)) "numbers".
Proof.
  apply (arrayUnion_twice_is_once testConfig "numbers" (VNum 6) None
           (testWorld quiet quiet) [VNum 1; VNum 2; VNum 2; VNum 3]);
    try reflexivity.
  intros sch H. injection H as <-. reflexivity.
Defined.

(** The claim has the second call leave the array alone for every value.
    [includes] finds an object or an array only if it is the very same
    object: a value equal in content is not found, and the second call
    appends it again and returns [true]. *)
Lemma arrayUnion_object_is_appended_again :
  let w := testWorld quiet quiet in
  let x := VObj [("n", VNum 6)] in
  let once := fst (arrayUnion testConfig "numbers" x (Some false) w) in
  let twice := arrayUnion testConfig "numbers" x (Some false) once in
  get (doc (st once)) "numbers" = VArr [VNum 1; VNum 2; VNum 2; VNum 3; x]
  /\ snd twice = inl true
  /\ get (doc (st (fst twice))) "numbers"
     = VArr [VNum 1; VNum 2; VNum 2; VNum 3; x; x].
Proof. repeat split; vm_compute; reflexivity. Qed.

Lemma sync_writes_named_fields_witness :
  let w := testWorld quiet stamp in
  let wa := logged w [Called "appendToUpdated" []] in
  let appendData := VObj [("updatedBy", VStr "user2")] in
  let ks := ["title"; "parent.child"] in
  let ref := _collectionPath (st w) +:+ "/" +:+ "doc1" in
  let named := named_fields testDoc ks [] in
  let data := match ks with [] => testDoc | _ => VObj named end in
  let patch := assign_fields (spread data) (spread appendData) in
  exists w',
    _sync testConfig testDoc (KList ks) w = (w', inl (VBool true))
    /\ st w' = st w
    /\ trace w' = trace wa ++
         UpdateDoc ref patch ::
         match remote w !! ref with
         | Some _ => []
         | None => [Log "error" "FirebaseError: no document to update"]
         end
    /\ (forall k, In k ks -> lookup_field k named = Some (get testDoc k))
    /\ (forall k, ~ In k ks -> lookup_field k named = None)
    /\ (forall k, lookup_field k (spread appendData) = None ->
                  lookup_field k patch = lookup_field k (spread data))
    /\ (forall r, r <> ref -> remote w' !! r = remote w !! r)
    /\ (forall stored, remote w !! ref = Some stored ->
          remote w' !! ref = Some (apply_patch stored patch)
          /\ forall f, (forall kv, In kv patch -> root (fst kv) <> f) ->
                       lookup_field f (apply_patch stored patch) = lookup_field f stored).
Proof.
  apply (sync_writes_named_fields testConfig testDoc (KList ["title"; "parent.child"])
           ["title"; "parent.child"] (testWorld quiet stamp)
           (logged (testWorld quiet stamp) [Called "appendToUpdated" []])
           "doc1" (VObj [("updatedBy", VStr "user2")]));
    try reflexivity.
  discriminate.
Defined.

(** C5, where the code leaves the claim: no field paths given.  [$sync()]
    hands [undefined] to [_sync]; [keysToSync] is then [undefined] and
    [keysToSync.reduce] throws: for every store the call is rejected with
    that TypeError before anything is logged, called or sent, and the
    remote documents are what they were.  The whole document is written
    only for an empty list of paths, [$sync([])], which is the case the
    fallback [Object.keys(patch).length > 0 ? patch : docData] is there
    for: on the store of the test suite that call sends every field of
    the document, the reserved ones included, to the document's own
    path. *)
Theorem sync_without_paths_rejects :
  (forall (cfg : config) (w : world),
     sync cfg KUndefined w
     = (w, inr "TypeError: cannot read properties of undefined (reading 'reduce')"))
  /\ (let w := testWorld quiet quiet in
      let r := sync testConfig (KList []) w in
      snd r = inl (VBool true)
      /\ trace (fst r)
         = [Called "appendToUpdated" []; UpdateDoc "testCollection/doc1" (spread testDoc)]
      /\ remote (fst r) !! "testCollection/doc1"
         = Some (apply_patch testFields (spread testDoc))).
Proof.
  split; [reflexivity|].
  split; [vm_compute; reflexivity|]. split; vm_compute; reflexivity.
Qed.

(** What the remote document holds after that sync: the two named fields
    and the appended one are written, [testValue] and [numbers] are not. *)
Example sync_named_fields_remote :
  let w' := fst (_sync testConfig
                   (set (set testDoc "title" (VStr "New Title")) "testValue" (VNum 20))
                   (KString "title") (testWorld quiet stamp)) in
  remote w' !! "testCollection/doc1" =
  Some [("title", VStr "New Title");
        ("testValue", VNum 50);
        ("parent", VObj [("child", VNum 1)]);
        ("numbers", VArr [VNum 1; VNum 2; VNum 2; VNum 3]);
        ("updatedBy", VStr "user2")].
Proof. vm_compute. reflexivity. Qed.

End StoreFacts.

(* ===================================================================== *)
(** * Snapshot reconciliation and the registry                            *)
(* ===================================================================== *)

Module PiniafireFacts.
Import Js Piniafire JsFacts.

(** ** Collection reconciliation *)

Lemma added_added_removed_run (a b : snapshot) :
  snap_id a = "a" -> snap_id b = "b" ->
  apply_changes empty_docs [added a 0; added b 1; removed a 0]
  = (Docs [set_field "__index" (VNum 0) (makeDocumentData a);
           set_field "__index" (VNum 1) (makeDocumentData b)]
          [Ref 1%nat] [("b", Ref 1%nat)], Done).
Proof.
  intros Ha Hb. unfold apply_changes, apply_change, added, removed.
  cbn [ch_type ch_doc ch_newIndex ch_oldIndex]. rewrite Ha, Hb.
  reflexivity.
Qed.

(** C2, as the code has it: after added(a, 0), added(b, 1), removed(a, 0)
    on an empty collection, the sequence holds the one document b and the
    lookup holds the one id b; the index recorded for b is still 1, the
    one reported when b was added: a removal does not renumber the
    documents that stay. *)
Theorem added_added_removed_keeps_b
    (pa pb : string) (ma mb da db : value) :
  let a := Snapshot true "a" pa ma da in
  let b := Snapshot true "b" pb mb db in
  let d := fst (apply_changes empty_docs [added a 0; added b 1; removed a 0]) in
  sequence d = [VObj (set_field "__index" (VNum 1) (makeDocumentData b))]
  /\ List.map fst (named d) = ["b"]
  /\ id_index d = [("b", VNum 1)].
Proof.
  intros a b d. subst d. rewrite added_added_removed_run by reflexivity.
  unfold sequence, id_index.
  cbn [fst snd elems named heap List.map List.filter is_own cell_doc].
  repeat split.
  change ([set_field "__index" (VNum 0) (makeDocumentData a);
           set_field "__index" (VNum 1) (makeDocumentData b)] !! 1%nat)
    with (Some (set_field "__index" (VNum 1) (makeDocumentData b))).
  unfold read_prop, own_prop. now rewrite lookup_set_field_eq.
Qed.

(** The outcome the claim states - one element, b, looked up at index 0 -
    is not what the three changes give. *)
Lemma added_added_removed_index_is_not_0 :
  let a := Scenario.snapshotOf "a" (VObj [("title", VStr "A")]) in
  let b := Scenario.snapshotOf "b" (VObj [("title", VStr "B")]) in
  let d := fst (apply_changes empty_docs [added a 0; added b 1; removed a 0]) in
  ~ (List.map (fun v => read_prop v "__id") (sequence d) = [VStr "b"]
     /\ id_index d = [("b", VNum 0)]).
Proof. intros a b d [_ H]. vm_compute in H. discriminate. Qed.

(** ** The promise of [bind] *)

Lemma alias_docs_docs (p : pinia) (field : string) :
  p_docs (alias_docs p field) = p_docs p /\ p_id (alias_docs p field) = p_id p.
Proof.
  unfold alias_docs. destruct (String.eqb field "collection"); [auto|].
  destruct (lookup_slot field (p_state p)); auto.
Qed.

Ltac split_cases :=
  repeat match goal with
    | |- context [match ?x with _ => _ end] => destruct x eqn:?
    | H : context [match ?x with _ => _ end] |- _ => destruct x eqn:?
    end.

(** The first handler that completes settles the promise, with what it
    was called on. *)
Lemma deliver_first (b b1 : binding) (w w1 : world) (p : payload) :
  isInitialised b = false ->
  promise b = Pending ->
  deliver (b, w) (Next p) = (b1, w1, Done) ->
  isInitialised b1 = true
  /\ promise b1 = Resolved (resolution p)
  /\ settles b1 = S (settles b)
  /\ b_ref b1 = b_ref b
  /\ b_field b1 = b_field b.
Proof.
  intros Hi Hp H.
  unfold deliver, handleDocSnapshotUpdate, handleCollectionSnapshotUpdate,
    _resolve, settle in H.
  rewrite Hi in H. simpl negb in H. cbv iota in H.
  destruct p as [s|cs]; unfold resolution.
  - destruct (String.eqb (ref_type (b_ref b)) "document"); [|discriminate].
    destruct (snap_exists s); simpl negb in H; cbv iota in H.
    + destruct (patch_doc _ _ _); [|discriminate].
      destruct (afterUpdate b) as [h|].
      * destruct (h _); [|discriminate].
        injection H as <- _. simpl. now rewrite Hp.
      * injection H as <- _. simpl. now rewrite Hp.
    + injection H as <- _. simpl. now rewrite Hp.
  - destruct (String.eqb (ref_type (b_ref b)) "document"); [discriminate|].
    destruct (apply_changes _ _) as [d' [|m]]; [|discriminate].
    injection H as <- _. simpl. now rewrite Hp.
Qed.

(** Once [isInitialised] is set, no delivery touches the closure: neither
    [resolve] nor [reject] is called again. *)
Lemma deliver_initialised (b : binding) (w : world) (e : delivery) :
  isInitialised b = true -> fst (fst (deliver (b, w) e)) = b.
Proof.
  intros Hi.
  unfold deliver, handleDocSnapshotUpdate, handleCollectionSnapshotUpdate,
    handleError, _resolve.
  rewrite Hi. simpl negb. cbv iota.
  destruct e as [[s|cs]|error]; [| |reflexivity];
    destruct (String.eqb (ref_type (b_ref b)) "document"); try reflexivity.
  - destruct (snap_exists s); [|reflexivity]. simpl negb. cbv iota.
    destruct (patch_doc _ _ _); [|reflexivity].
    destruct (afterUpdate b) as [h|]; [|reflexivity].
    now destruct (h _).
  - now destruct (apply_changes _ _) as [d' [|m]].
Qed.

Lemma deliver_all_cons (bw : binding * world) (e : delivery) (es : list delivery) :
  deliver_all bw (e :: es) = deliver_all (fst (deliver bw e)) es.
Proof. reflexivity. Qed.

Lemma deliver_all_initialised (es : list delivery) :
  forall (b : binding) (w : world),
    isInitialised b = true -> fst (deliver_all (b, w) es) = b.
Proof.
  induction es as [|e es IH]; intros b w Hi; [reflexivity|].
  rewrite deliver_all_cons.
  pose proof (deliver_initialised b w e Hi) as Hb.
  destruct (deliver (b, w) e) as [[b' w'] o]. simpl in *. subst b'.
  now apply IH.
Qed.

(** A later document snapshot is merged into [state[field]]. *)
Lemma deliver_doc_snapshot (b b' : binding) (w w' : world) (s : snapshot) :
  snap_exists s = true ->
  deliver (b, w) (Next (DocSnap s)) = (b', w', Done) ->
  patch_doc (inst w) (b_field b) (makeDocumentData s) = Some (inst w').
Proof.
  intros Hs H. unfold deliver, handleDocSnapshotUpdate in H. rewrite Hs in H.
  simpl negb in H. cbv iota in H.
  destruct (String.eqb (ref_type (b_ref b)) "document"); [|discriminate].
  match type of H with context [patch_doc (inst ?w1) _ _] =>
    assert (Hw : inst w1 = inst w)
      by (destruct (beforeUpdate b) as [h|]; [destruct (h _)|]; reflexivity);
    rewrite Hw in H
  end.
  destruct (patch_doc _ _ _) as [p'|]; [|discriminate].
  destruct (afterUpdate b) as [h|]; [destruct (h _); [|discriminate]|];
    injection H as _ <-; reflexivity.
Qed.

(** A later query snapshot is applied to the collection array. *)
Lemma deliver_query_snapshot (b b' : binding) (w w' : world) (cs : list change) :
  deliver (b, w) (Next (QuerySnap cs)) = (b', w', Done) ->
  apply_changes (p_docs (inst w)) cs = (p_docs (inst w'), Done).
Proof.
  intros H. unfold deliver, handleCollectionSnapshotUpdate in H.
  destruct (String.eqb (ref_type (b_ref b)) "document"); [discriminate|].
  destruct (alias_docs_docs (inst w) (b_field b)) as [Hd _]. rewrite Hd in H.
  destruct (apply_changes _ _) as [d' [|m]]; [|discriminate].
  injection H as _ <-. reflexivity.
Qed.

(** [resolve] and [reject] are called at most once between them, whatever
    is delivered and in whatever order. *)
Lemma settles_at_most_once (es : list delivery) :
  forall (b : binding) (w : world),
    (if isInitialised b then settles b = 1%nat else settles b = 0%nat) ->
    let b' := fst (deliver_all (b, w) es) in
    if isInitialised b' then settles b' = 1%nat else settles b' = 0%nat.
Proof.
  induction es as [|e es IH]; intros b w Hb; [exact Hb|].
  rewrite deliver_all_cons.
  destruct (isInitialised b) eqn:Hi.
  - pose proof (deliver_initialised b w e Hi) as Heq.
    destruct (deliver (b, w) e) as [[b1 w1] o]. simpl in *. subst b1.
    apply IH. now rewrite Hi.
  - destruct (deliver (b, w) e) as [[b1 w1] o] eqn:E. simpl.
    apply IH.
    unfold deliver, handleDocSnapshotUpdate, handleCollectionSnapshotUpdate,
      handleError, _resolve, settle in E.
    rewrite Hi in E. simpl negb in E. cbv iota in E.
    split_cases; injection E as <- _ _; simpl in *; rewrite ?Hi in *; congruence.
Qed.

(** ** Objects and their fields *)

Lemma lookup_field_app (k : string) (a b : fields_t) :
  lookup_field k (a ++ b) =
  match lookup_field k a with Some v => Some v | None => lookup_field k b end.
Proof.
  induction a as [|[k' v'] a IH]; simpl; [reflexivity|].
  now destruct (String.eqb k k').
Qed.

Lemma lookup_field_None (k : string) (fs : fields_t) :
  ~ In k (List.map fst fs) -> lookup_field k fs = None.
Proof.
  induction fs as [|[k' v'] fs IH]; simpl; intros H; [reflexivity|].
  destruct (String.eqb k k') eqn:E.
  - apply String.eqb_eq in E. subst. exfalso. apply H. now left.
  - apply IH. intros K. apply H. now right.
Qed.

Lemma lookup_field_rev (k : string) (fs : fields_t) :
  List.NoDup (List.map fst fs) -> lookup_field k (rev fs) = lookup_field k fs.
Proof.
  induction fs as [|[k' v'] fs IH]; intros H; [reflexivity|].
  inversion H as [|? ? Hnot Hnd]; subst.
  change (rev ((k', v') :: fs)) with (rev fs ++ [(k', v')]).
  rewrite lookup_field_app, IH by assumption. simpl.
  destruct (String.eqb k k') eqn:E; [|now destruct (lookup_field k fs)].
  apply String.eqb_eq in E. subst k'. now rewrite lookup_field_None.
Qed.

(** In [{ ...a, ...b }] the last value [b] gives a key wins, and a key [b]
    does not have keeps the value of [a]. *)
Lemma lookup_assign_fields (k : string) (b : fields_t) :
  forall a, lookup_field k (assign_fields a b) =
            match lookup_field k (rev b) with
            | Some v => Some v
            | None => lookup_field k a
            end.
Proof.
  unfold assign_fields.
  induction b as [|[k' v'] b IH]; intros a; [reflexivity|].
  change (rev ((k', v') :: b)) with (rev b ++ [(k', v')]).
  simpl fold_left. rewrite IH, lookup_field_app. simpl.
  destruct (lookup_field k (rev b)); [reflexivity|].
  destruct (String.eqb k k') eqn:E.
  - apply String.eqb_eq in E. subst k'. apply lookup_set_field_eq.
  - apply lookup_set_field_ne. intros ->. now rewrite String.eqb_refl in E.
Qed.

Lemma set_field_keys (k : string) (v : value) (fs : fields_t) :
  forall k', In k' (List.map fst (set_field k v fs)) <-> k' = k \/ In k' (List.map fst fs).
Proof.
  induction fs as [|[k0 v0] fs IH]; intros k'; simpl.
  - split; [intros [H|[]]; auto|intros [H|[]]; auto].
  - destruct (String.eqb k k0) eqn:E; simpl.
    + apply String.eqb_eq in E. subst k0. split; intros H; intuition.
    + rewrite IH. split; intros H; intuition.
Qed.

Lemma set_field_NoDup (k : string) (v : value) (fs : fields_t) :
  List.NoDup (List.map fst fs) -> List.NoDup (List.map fst (set_field k v fs)).
Proof.
  induction fs as [|[k0 v0] fs IH]; intros H; simpl.
  - constructor; [intros []|constructor].
  - inversion H as [|? ? Hnot Hnd]; subst.
    destruct (String.eqb k k0) eqn:E; simpl.
    + apply String.eqb_eq in E. subst k0. now constructor.
    + constructor; [|now apply IH].
      rewrite set_field_keys. intros [->|Hin]; [|contradiction].
      now rewrite String.eqb_refl in E.
Qed.

Lemma assign_fields_NoDup (b : fields_t) :
  forall a, List.NoDup (List.map fst a) -> List.NoDup (List.map fst (assign_fields a b)).
Proof.
  unfold assign_fields. induction b as [|[k v] b IH]; intros a H; [exact H|].
  simpl. apply IH. now apply set_field_NoDup.
Qed.

Lemma makeDocumentData_NoDup (s : snapshot) :
  List.NoDup (List.map fst (makeDocumentData s)).
Proof.
  unfold makeDocumentData. apply assign_fields_NoDup. simpl.
  repeat constructor; simpl; intuition discriminate.
Qed.

Lemma lookup_set_slot (k : string) (c : slot) (l : list (string * slot)) :
  lookup_slot k (set_slot k c l) = Some c.
Proof.
  induction l as [|[k' c'] l IH]; simpl.
  - now rewrite String.eqb_refl.
  - destruct (String.eqb k k') eqn:E; simpl; [now rewrite String.eqb_refl|].
    now rewrite E.
Qed.

(** What the merge leaves in [state[field]] when that is an object. *)
Lemma patch_doc_object (p p' : pinia) (field : string) (doc old : fields_t) :
  state_field p field = Some (Val (VObj old)) ->
  patch_doc p field doc = Some p' ->
  state_field p' field = Some (Val (VObj (assign_fields old doc))).
Proof.
  intros Hold Hp. unfold patch_doc in Hp. rewrite Hold in Hp.
  cbn [assign_value] in Hp. injection Hp as <-.
  unfold state_field in *. cbn [p_state].
  destruct (String.eqb field "collection"); [discriminate|].
  apply lookup_set_slot.
Qed.

(** Key by key: the fields of the document win, the others stay. *)
Lemma merged_fields (s : snapshot) (old : fields_t) (k : string) :
  lookup_field k (assign_fields old (makeDocumentData s)) =
  match lookup_field k (makeDocumentData s) with
  | Some v => Some v
  | None => lookup_field k old
  end.
Proof.
  rewrite lookup_assign_fields.
  now rewrite lookup_field_rev by apply makeDocumentData_NoDup.
Qed.

(** After a query snapshot [piniaInstance[field]] is the collection
    array. *)
Lemma alias_docs_field (p : pinia) (field : string) (d : docs) :
  let p1 := alias_docs p field in
  instance_field (Pinia (p_id p1) (p_state p1) (p_own p1) d) field = Some TheDocs.
Proof.
  intros p1. subst p1. unfold alias_docs, instance_field, state_field.
  destruct (String.eqb field "collection") eqn:E; [reflexivity|].
  destruct (lookup_slot field (p_state p)) eqn:El; cbn [p_state p_own].
  - now rewrite lookup_set_slot.
  - rewrite El. apply lookup_set_slot.
Qed.

Lemma deliver_query_field (b b' : binding) (w w' : world) (cs : list change) :
  deliver (b, w) (Next (QuerySnap cs)) = (b', w', Done) ->
  instance_field (inst w') (b_field b) = Some TheDocs.
Proof.
  intros H. unfold deliver, handleCollectionSnapshotUpdate in H.
  destruct (String.eqb (ref_type (b_ref b)) "document"); [discriminate|].
  destruct (apply_changes _ _) as [d' [|m]]; [|discriminate].
  injection H as _ <-. apply alias_docs_field.
Qed.

(** A handler that throws leaves the closure as it is. *)
Lemma deliver_threw (b b1 : binding) (w w1 : world) (p : payload) (m : string) :
  deliver (b, w) (Next p) = (b1, w1, Threw m) -> b1 = b.
Proof.
  intros H. unfold deliver, handleDocSnapshotUpdate, handleCollectionSnapshotUpdate,
    _resolve in H.
  destruct p as [s|cs];
    destruct (String.eqb (ref_type (b_ref b)) "document");
    try (now injection H as <- _ _).
  - destruct (negb (snap_exists s)); [discriminate|].
    destruct (patch_doc _ _ _); [|now injection H as <- _ _].
    destruct (afterUpdate b) as [h|]; [|discriminate].
    destruct (h _); [discriminate|]. now injection H as <- _ _.
  - destruct (apply_changes _ _) as [d' [|m']]; [discriminate|].
    now injection H as <- _ _.
Qed.

(** ** The closure over any run of deliveries *)

(** The closure of a [bind] call is either untouched and pending, or
    initialised with exactly one call of [resolve] or [reject] behind
    it. *)
Definition closure_ok (b : binding) : Prop :=
  (isInitialised b = false /\ settles b = 0%nat /\ promise b = Pending)
  \/ (isInitialised b = true /\ settles b = 1%nat /\ promise b <> Pending).

Lemma closure_ok_step (b : binding) (w : world) (e : delivery) :
  closure_ok b -> closure_ok (fst (fst (deliver (b, w) e))).
Proof.
  intros [(Hi & Hs & Hp)|(Hi & Hs & Hp)].
  - destruct (deliver (b, w) e) as [[b1 w1] o] eqn:E. simpl.
    unfold deliver, handleDocSnapshotUpdate, handleCollectionSnapshotUpdate,
      handleError, _resolve, settle in E.
    rewrite Hi, Hp, Hs in E. simpl negb in E. cbv iota in E.
    split_cases; injection E as <- _ _;
      first [ left; now repeat split
            | right; simpl; repeat split; discriminate ].
  - rewrite deliver_initialised by assumption. right. now repeat split.
Qed.

Lemma closure_ok_run (es : list delivery) :
  forall bw, closure_ok (fst bw) -> closure_ok (fst (deliver_all bw es)).
Proof.
  induction es as [|e es IH]; intros [b w] H; [exact H|].
  rewrite deliver_all_cons. apply IH.
  pose proof (closure_ok_step b w e H) as K.
  now destruct (deliver (b, w) e) as [[b1 w1] o].
Qed.

Lemma bind_closure (field : string) (r : reference) (before after : option hook)
    (w : world) :
  fst (bind field r before after w) = Binding field r before after false Pending 0.
Proof. unfold bind. now destruct (onSnapshot w). Qed.

(** C1, as the code has it.  As long as the promise of a [bind] is
    pending, neither [resolve] nor [reject] has been called.  A snapshot
    whose handler throws (an [afterUpdate] hook that throws, a
    [state[field]] that is [null] or missing, an assignment or an
    insertion the collection array refuses) leaves the promise pending.  The first
    snapshot whose handler runs to its end resolves the promise, with the
    materialized document of that snapshot, [false] for a missing
    document, or the collection array for a query; this is the one call
    of [resolve] or [reject] there will be: after any further deliveries
    the closure is as it was.  A later document snapshot that is handled
    is merged into [state[field]] key by key; a later query snapshot that
    is handled is applied to the collection array, change by change, and
    [piniaInstance[field]] is that array. *)
Theorem bind_resolves_once
    (field : string) (r : reference) (before after : option hook) (w0 : world)
    (es : list delivery) (p : payload) :
  let bw := deliver_all (bind field r before after w0) es in
  let first := deliver bw (Next p) in
  let b1 := fst (fst first) in
  let w1 := snd (fst first) in
  promise (fst bw) = Pending ->
  settles (fst bw) = 0%nat
  /\ (forall m, snd first = Threw m -> promise b1 = Pending /\ settles b1 = 0%nat)
  /\ (snd first = Done ->
      promise b1 = Resolved (resolution p)
      /\ settles b1 = 1%nat
      /\ (forall es', fst (deliver_all (b1, w1) es') = b1)
      /\ (forall es' s b' w',
            snap_exists s = true ->
            deliver (deliver_all (b1, w1) es') (Next (DocSnap s)) = (b', w', Done) ->
            let w := snd (deliver_all (b1, w1) es') in
            b' = b1
            /\ patch_doc (inst w) field (makeDocumentData s) = Some (inst w')
            /\ forall old,
                 state_field (inst w) field = Some (Val (VObj old)) ->
                 exists new,
                   state_field (inst w') field = Some (Val (VObj new))
                   /\ forall k,
                        lookup_field k new =
                        match lookup_field k (makeDocumentData s) with
                        | Some v => Some v
                        | None => lookup_field k old
                        end)
      /\ (forall es' cs b' w',
            deliver (deliver_all (b1, w1) es') (Next (QuerySnap cs)) = (b', w', Done) ->
            let w := snd (deliver_all (b1, w1) es') in
            b' = b1
            /\ apply_changes (p_docs (inst w)) cs = (p_docs (inst w'), Done)
            /\ instance_field (inst w') field = Some TheDocs)).
Proof.
  intros bw first b1 w1 Hpend.
  assert (Hok : closure_ok (fst bw)).
  { apply closure_ok_run. rewrite bind_closure. left. now repeat split. }
  assert (Hfield : b_field (fst bw) = field /\ isInitialised (fst bw) = false
                   /\ settles (fst bw) = 0%nat).
  { destruct Hok as [(Hi & Hs & _)|(_ & _ & Hp)]; [|congruence].
    split; [|now split].
    subst bw. clear. rewrite (surjective_pairing (bind field r before after w0)).
    rewrite bind_closure.
    generalize (snd (bind field r before after w0)).
    assert (G : forall es b w, b_field (fst (deliver_all (b, w) es)) = b_field b).
    { clear. induction es as [|e es IH]; intros b w; [reflexivity|].
      rewrite deliver_all_cons.
      destruct (deliver (b, w) e) as [[b' w'] o] eqn:E. cbn [fst]. rewrite IH.
      unfold deliver, handleDocSnapshotUpdate, handleCollectionSnapshotUpdate,
        handleError, _resolve, settle in E.
      split_cases; injection E as <- _ _; reflexivity. }
    intros w. now rewrite G. }
  destruct Hfield as (Hf & Hi & Hs).
  split; [exact Hs|].
  destruct bw as [b0 wb] eqn:Ebw. cbn [fst] in *.
  subst first b1 w1.
  destruct (deliver (b0, wb) (Next p)) as [[b1 w1] o] eqn:E. cbn [fst snd].
  split.
  - intros m ->. apply deliver_threw in E. subst b1. now split.
  - intros ->.
    destruct (deliver_first b0 b1 wb w1 p Hi Hpend E) as (Hi1 & Hp1 & Hs1 & _ & Hf1).
    assert (Hfield1 : b_field b1 = field) by congruence.
    split; [assumption|]. split; [now rewrite Hs1, Hs|].
    split; [intros es'; now apply deliver_all_initialised|].
    split.
    + intros es' s b' w' Hex Hd.
      pose proof (deliver_all_initialised es' b1 w1 Hi1) as Hsame.
      destruct (deliver_all (b1, w1) es') as [b w] eqn:E'.
      cbn [fst snd] in *. subst b.
      pose proof (deliver_doc_snapshot b1 b' w w' s Hex Hd) as Hpatch.
      rewrite Hfield1 in Hpatch.
      split.
      * pose proof (deliver_initialised b1 w (Next (DocSnap s)) Hi1) as Hk.
        now rewrite Hd in Hk.
      * split; [exact Hpatch|].
        intros old Hold. eexists. split.
        -- eapply patch_doc_object; eassumption.
        -- intros k. apply merged_fields.
    + intros es' cs b' w' Hd.
      pose proof (deliver_all_initialised es' b1 w1 Hi1) as Hsame.
      destruct (deliver_all (b1, w1) es') as [b w] eqn:E'.
      cbn [fst snd] in *. subst b.
      split.
      * pose proof (deliver_initialised b1 w (Next (QuerySnap cs)) Hi1) as Hk.
        now rewrite Hd in Hk.
      * split; [now apply (deliver_query_snapshot b1 b')|].
        rewrite <- Hfield1. now apply (deliver_query_field b1 b' w w' cs).
Qed.

(** An [afterUpdate] hook that throws on the document titled A and
    returns on every other. *)
Definition rejects_A : hook :=
  fun d =>
    match lookup_field "title" d with
    | Some (VStr t) => if String.eqb t "A" then Threw "hook failed" else Done
    | _ => Done
    end.

Lemma bind_resolves_once_witness :
  let sa := Scenario.snapshotOf "doc1" (VObj [("title", VStr "A")]) in
  let sb := Scenario.snapshotOf "doc1" (VObj [("title", VStr "B")]) in
  let p := DocSnap sb in
  let bw := deliver_all (bind "doc" Scenario.docRef None (Some rejects_A)
                              Scenario.emptyWorld)
                        [Next (DocSnap sa)] in
  let first := deliver bw (Next p) in
  let b1 := fst (fst first) in
  let w1 := snd (fst first) in
  settles (fst bw) = 0%nat
  /\ (forall m, snd first = Threw m -> promise b1 = Pending /\ settles b1 = 0%nat)
  /\ (snd first = Done ->
      promise b1 = Resolved (resolution p)
      /\ settles b1 = 1%nat
      /\ (forall es', fst (deliver_all (b1, w1) es') = b1)
      /\ (forall es' s b' w',
            snap_exists s = true ->
            deliver (deliver_all (b1, w1) es') (Next (DocSnap s)) = (b', w', Done) ->
            let w := snd (deliver_all (b1, w1) es') in
            b' = b1
            /\ patch_doc (inst w) "doc" (makeDocumentData s) = Some (inst w')
            /\ forall old,
                 state_field (inst w) "doc" = Some (Val (VObj old)) ->
                 exists new,
                   state_field (inst w') "doc" = Some (Val (VObj new))
                   /\ forall k,
                        lookup_field k new =
                        match lookup_field k (makeDocumentData s) with
                        | Some v => Some v
                        | None => lookup_field k old
                        end)
      /\ (forall es' cs b' w',
            deliver (deliver_all (b1, w1) es') (Next (QuerySnap cs)) = (b', w', Done) ->
            let w := snd (deliver_all (b1, w1) es') in
            b' = b1
            /\ apply_changes (p_docs (inst w)) cs = (p_docs (inst w'), Done)
            /\ instance_field (inst w') "doc" = Some TheDocs)).
Proof.
  intros sa sb p.
  apply (bind_resolves_once "doc" Scenario.docRef None (Some rejects_A)
           Scenario.emptyWorld [Next (DocSnap sa)] p).
  vm_compute. reflexivity.
Defined.

(** The claim has the promise resolved by the first snapshot, with its
    value.  With an [afterUpdate] hook that throws on the first document,
    the handler of the first snapshot throws after the merge and the
    promise is still pending; the second snapshot resolves it, with the
    second document.  With a field the state does not have, the handler
    throws on every snapshot and the promise is never settled. *)
Lemma first_snapshot_need_not_resolve :
  let sa := Scenario.snapshotOf "doc1" (VObj [("title", VStr "A")]) in
  let sb := Scenario.snapshotOf "doc1" (VObj [("title", VStr "B")]) in
  let first := deliver (bind "doc" Scenario.docRef None (Some rejects_A)
                             Scenario.emptyWorld)
                       (Next (DocSnap sa)) in
  let second := deliver (fst first) (Next (DocSnap sb)) in
  let missing := deliver_all (bind "nope" Scenario.docRef None None Scenario.emptyWorld)
                             [Next (DocSnap sa); Next (DocSnap sb)] in
  snd first = Threw "hook failed"
  /\ promise (fst (fst first)) = Pending
  /\ snd second = Done
  /\ promise (fst (fst second)) = Resolved (RValue (VObj (makeDocumentData sb)))
  /\ promise (fst (fst second)) <> Resolved (resolution (DocSnap sa))
  /\ promise (fst missing) = Pending.
Proof.
  intros sa sb first second missing.
  split; [vm_compute; reflexivity|]. split; [vm_compute; reflexivity|].
  split; [vm_compute; reflexivity|]. split; [vm_compute; reflexivity|].
  split; [|vm_compute; reflexivity].
  vm_compute. discriminate.
Qed.

(** A missing document resolves the promise with [false] and leaves the
    state alone; an error that comes first rejects it. *)
Example bind_missing_document :
  let bw := fst (deliver (bind "doc" Scenario.docRef None None Scenario.emptyWorld)
                         (Next (DocSnap (Scenario.missing "doc1")))) in
  promise (fst bw) = Resolved (RValue (VBool false))
  /\ inst (snd bw) = Scenario.testInstance.
Proof. split; vm_compute; reflexivity. Qed.

Example bind_error_first_rejects :
  let bw := fst (deliver (bind "doc" Scenario.docRef None None Scenario.emptyWorld)
                         (Failure "permission-denied")) in
  promise (fst bw) = Rejected "permission-denied" /\ settles (fst bw) = 1%nat.
Proof. split; vm_compute; reflexivity. Qed.

(** ** Errors of the subscription *)

Lemma remove_spec (id name : string) (w : world) :
  let w' := remove id name w in
  unsubs w' !! getStoreKey id name = None
  /\ (forall k, k <> getStoreKey id name -> unsubs w' !! k = unsubs w !! k)
  /\ inst w' = inst w
  /\ listeners w' = listeners w
  /\ exists logs, trace w' = trace w ++ logs /\ forallb is_log logs = true.
Proof.
  unfold remove. destruct (unsubs w !! getStoreKey id name) eqn:E; simpl.
  - split; [apply lookup_delete_eq|].
    split; [intros k Hk; now apply lookup_delete_ne|].
    repeat split. now exists [Log "info" "remove:"].
  - repeat split; [assumption|]. exists []. now rewrite app_nil_r.
Qed.

(** C7, as the code has it: an error that comes after the first snapshot
    was handled does not reject the promise; it is logged and the entry of
    the subscription is removed from the registry, the other entries, the
    state of the store and the attached listeners staying as they are:
    the handler logs and calls [remove], it does not call the unsubscribe
    function. *)
Theorem error_after_first_snapshot
    (field : string) (r : reference) (before after : option hook)
    (w0 w1 : world) (b1 : binding) (p : payload) (es : list delivery)
    (error : string) :
  deliver (bind field r before after w0) (Next p) = (b1, w1, Done) ->
  let bw := deliver_all (b1, w1) es in
  let w := snd bw in
  let key := getStoreKey (p_id (inst w)) (render_id r) in
  exists w',
    deliver bw (Failure error) = (b1, w', Done)
    /\ promise b1 = Resolved (resolution p)
    /\ unsubs w' !! key = None
    /\ (forall k, k <> key -> unsubs w' !! k = unsubs w !! k)
    /\ inst w' = inst w
    /\ listeners w' = listeners w
    /\ exists logs,
         trace w' = trace w ++ Log "error" (p_id (inst w) +:+ " error") :: logs
         /\ forallb is_log logs = true.
Proof.
  intros H bw w key.
  destruct (bind field r before after w0) as [b0 wb] eqn:Eb.
  assert (Hb0 : b0 = Binding field r before after false Pending 0).
  { unfold bind in Eb. destruct (onSnapshot w0). now injection Eb as <- _. }
  destruct (deliver_first b0 b1 wb w1 p) as (Hi & Hp & _ & Hr & _);
    [now subst b0|now subst b0|assumption|].
  assert (Href : b_ref b1 = r) by (rewrite Hr; now subst b0).
  pose proof (deliver_all_initialised es b1 w1 Hi) as Hsame.
  assert (Hbw : bw = (b1, w)).
  { subst key w bw. destruct (deliver_all (b1, w1) es) as [b w2].
    simpl in *. now subst b. }
  rewrite Hbw. unfold deliver, handleError. rewrite Hi, Href. simpl negb. cbv iota.
  eexists. split; [reflexivity|]. split; [assumption|].
  match goal with |- context [remove ?i ?n ?x] =>
    destruct (remove_spec i n x) as (H1 & H2 & H3 & H4 & logs & H5 & H6)
  end.
  simpl in H1, H2, H3, H4, H5.
  split; [exact H1|]. split; [exact H2|]. split; [exact H3|]. split; [exact H4|].
  exists logs. split; [|assumption].
  change (inst (emit (Log "error" (p_id (inst w) +:+ " error")) w)) with (inst w).
  rewrite H5. now rewrite <- app_assoc.
Qed.

Lemma error_after_first_snapshot_witness :
  let p := DocSnap (Scenario.snapshotOf "doc1" (VObj [("title", VStr "T")])) in
  let first := fst (deliver (bind "doc" Scenario.docRef None None Scenario.emptyWorld)
                            (Next p)) in
  let b1 := fst first in
  let bw := deliver_all (b1, snd first) [Next p] in
  let w := snd bw in
  let key := getStoreKey (p_id (inst w)) (render_id Scenario.docRef) in
  exists w',
    deliver bw (Failure "permission-denied") = (b1, w', Done)
    /\ promise b1 = Resolved (resolution p)
    /\ unsubs w' !! key = None
    /\ (forall k, k <> key -> unsubs w' !! k = unsubs w !! k)
    /\ inst w' = inst w
    /\ listeners w' = listeners w
    /\ exists logs,
         trace w' = trace w ++ Log "error" (p_id (inst w) +:+ " error") :: logs
         /\ forallb is_log logs = true.
Proof.
  intros p first b1.
  apply (error_after_first_snapshot "doc" Scenario.docRef None None
           Scenario.emptyWorld (snd first) b1 p [Next p] "permission-denied").
  vm_compute. reflexivity.
Defined.

(** The claim has the unsubscribe function called on such an error.  Here
    the listener [bind] attached is listener 0, its handle is the one kept
    in the registry, and after the error no call of it is on the trace and
    the listener is still attached. *)
Lemma error_does_not_unsubscribe :
  let p := DocSnap (Scenario.snapshotOf "doc1" (VObj [("title", VStr "T")])) in
  let first := fst (deliver (bind "doc" Scenario.docRef None None Scenario.emptyWorld)
                            (Next p)) in
  let w' := snd (fst (deliver first (Failure "permission-denied"))) in
  (it_unsub <$> unsubs (snd first) !! "test:doc1") = Some 0%nat
  /\ ~ In (Unsubscribed 0) (trace w')
  /\ listeners w' = [0%nat].
Proof.
  intros p first w'. split; [vm_compute; reflexivity|]. split.
  - vm_compute. intros [H|[H|[]]]; discriminate.
  - vm_compute. reflexivity.
Qed.

(** [unbind] is where the unsubscribe function is called. *)
Example unbind_unsubscribes :
  let w := snd (bind "doc" Scenario.docRef None None Scenario.emptyWorld) in
  let w' := fst (unbind Scenario.docRef w) in
  In (Unsubscribed 0) (trace w')
  /\ listeners w' = []
  /\ unsubs w' !! "test:doc1" = None.
Proof.
  intros w w'. split; [vm_compute; auto|]. split; vm_compute; reflexivity.
Qed.

End PiniafireFacts.

(* ===================================================================== *)
(** * One-time initialization                                             *)
(* ===================================================================== *)

Module LifecycleFacts.
Import Lifecycle.

Section WithInitializer.
Context (initialize : option (store -> init_result)).

(** What holds of the store as long as it is not reset: the initializer
    has run at most once and not at all while the state is UNINITIALIZED,
    and INITIALIZED comes with [isInitialized] and with a completed run of
    the initializer, if there is one. *)
Definition settled (m : machine) : Prop :=
  (calls m <= 1)%nat
  /\ (_initializedState (cur m) = UNINITIALIZED -> calls m = 0%nat)
  /\ (_initializedState (cur m) = INITIALIZED ->
        isInitialized (cur m) = true
        /\ (initialize <> None -> (1 <= completed m)%nat)).

Lemma settled_start (db : bool) : settled (start db).
Proof. unfold settled, start. simpl. repeat split; auto; discriminate. Qed.

Ltac settle_goal :=
  unfold settled; simpl; repeat (split || intro);
  try discriminate; try lia; try congruence.

Lemma settled_step (m : machine) (e : step) :
  is_reset e = false -> settled m -> settled (run_step initialize m e).
Proof.
  intros He Hm. destruct e; try discriminate; simpl.
  - unfold access. destruct (_db (cur m)); simpl; [|exact Hm].
    destruct (isInitialized (cur m)) eqn:Ei; simpl; [exact Hm|].
    destruct (_initializedState (cur m)) eqn:Es; simpl; [|exact Hm|].
    + destruct Hm as (Hc & Hu & Hd). specialize (Hu Es).
      destruct initialize as [init|] eqn:Einit; [destruct (init _)|]; settle_goal.
    + destruct Hm as (_ & _ & Hd). destruct (Hd Es) as [Hd' _]. congruence.
  - destruct (pending m) eqn:Ep; simpl; [exact Hm|].
    destruct Hm as (Hc & Hu & Hd). settle_goal.
  - destruct (pending m) eqn:Ep; simpl; [exact Hm|].
    destruct Hm as (Hc & Hu & Hd). unfold settled. simpl. auto.
Qed.

Lemma settled_run (es : list step) :
  forall m, forallb (fun e => negb (is_reset e)) es = true ->
            settled m -> settled (run initialize m es).
Proof.
  induction es as [|e es IH]; intros m Hes Hm; [exact Hm|].
  simpl in Hes. apply andb_true_iff in Hes as [He Hes].
  apply IH; [assumption|]. apply settled_step; [|assumption].
  now destruct e.
Qed.

Ltac stays :=
  simpl;
  repeat match goal with H : _initializedState (cur _) = _ |- _ => rewrite H end;
  split; [simpl; lia | now left].

Lemma step_monotone (m : machine) (e : step) :
  is_reset e = false -> settled m ->
  (rank (_initializedState (cur m))
   <= rank (_initializedState (cur (run_step initialize m e))))%nat
  /\ (calls (run_step initialize m e) = calls m
      \/ _initializedState (cur m) = UNINITIALIZED).
Proof.
  intros He (Hc & Hu & Hd). destruct e; try discriminate; simpl.
  - unfold access. destruct (_db (cur m)); simpl; [|stays].
    destruct (isInitialized (cur m)) eqn:Ei; simpl; [stays|].
    destruct (_initializedState (cur m)) eqn:Es; simpl; [|stays|].
    + split; [lia|now right].
    + destruct (Hd eq_refl) as [Hd' _]. congruence.
  - destruct (pending m); simpl; [stays|].
    split; [destruct (_initializedState (cur m)); simpl; lia|now left].
  - destruct (pending m); simpl; stays.
Qed.

(** No step changes the database handle. *)
Lemma db_step (m : machine) (e : step) :
  _db (cur (run_step initialize m e)) = _db (cur m).
Proof.
  destruct e; simpl.
  - unfold access. destruct (negb (_db (cur m))); [reflexivity|].
    destruct (negb (isInitialized (cur m)) && _); [|reflexivity].
    destruct initialize as [init|]; [destruct (init _)|]; reflexivity.
  - destruct (pending m); reflexivity.
  - destruct (pending m); reflexivity.
  - reflexivity.
Qed.

Lemma db_run (es : list step) :
  forall m, _db (cur (run initialize m es)) = _db (cur m).
Proof.
  induction es as [|e es IH]; intros m; [reflexivity|].
  unfold run in *. simpl. rewrite IH. apply db_step.
Qed.

(** C8, as the code has it: as long as the state of the store is not
    reset, every access of the store and every settling of the
    initializer's promise keeps or advances the lifecycle state along
    UNINITIALIZED, INITIALIZING, INITIALIZED; the initializer runs at most
    once, and only on an access that finds the state UNINITIALIZED;
    INITIALIZED is entered only with a completed run of the initializer:
    one that returned something that is not a [Promise], or whose
    [Promise] has fulfilled.  Resetting the state ([$reset], as [$delete]
    and [_unbind] call it) puts UNINITIALIZED back, and an access made
    right after the reset runs the initializer once more. *)
Theorem lifecycle_monotone_until_reset (db : bool) (es : list step) (e : step) :
  forallb (fun e => negb (is_reset e)) (es ++ [e]) = true ->
  let m := run initialize (start db) es in
  let m' := run_step initialize m e in
  (rank (_initializedState (cur m)) <= rank (_initializedState (cur m')))%nat
  /\ (calls m' <= 1)%nat
  /\ (calls m' = calls m \/ _initializedState (cur m) = UNINITIALIZED)
  /\ (_initializedState (cur m') = INITIALIZED ->
        initialize <> None -> (1 <= completed m')%nat)
  /\ _initializedState (cur (run_step initialize m' Reset)) = UNINITIALIZED
  /\ (db = true -> initialize <> None ->
        calls (run_step initialize (run_step initialize m' Reset) Access)
        = S (calls m')).
Proof.
  intros Hes m m'.
  rewrite forallb_app in Hes. apply andb_true_iff in Hes as [Hes He].
  simpl in He. rewrite andb_true_r in He. apply negb_true_iff in He.
  assert (Hm : settled m) by (apply settled_run; [assumption|apply settled_start]).
  pose proof (settled_step m e He Hm) as (Hc & _ & Hd).
  destruct (step_monotone m e He Hm) as [Hr Hcalls].
  split; [assumption|]. split; [assumption|]. split; [assumption|].
  split; [|split; [reflexivity|]].
  - intros Hs Hi. now destruct (Hd Hs) as [_ Hk]; apply Hk.
  - intros Hdb Hi.
    assert (Edb : _db (cur m') = true).
    { subst m' m. rewrite db_step, db_run. exact Hdb. }
    simpl. unfold access, reset. simpl. rewrite Edb. simpl.
    destruct initialize as [init|]; [|congruence].
    destruct (init _); reflexivity.
Qed.

End WithInitializer.

Lemma lifecycle_monotone_until_reset_witness :
  let initialize := Some (fun _ : store => APromise) in
  let m := run initialize (start true) [Access; Access] in
  let m' := run_step initialize m Fulfilled in
  (rank (_initializedState (cur m)) <= rank (_initializedState (cur m')))%nat
  /\ (calls m' <= 1)%nat
  /\ (calls m' = calls m \/ _initializedState (cur m) = UNINITIALIZED)
  /\ (_initializedState (cur m') = INITIALIZED ->
        initialize <> None -> (1 <= completed m')%nat)
  /\ _initializedState (cur (run_step initialize m' Reset)) = UNINITIALIZED
  /\ (true = true -> initialize <> None ->
        calls (run_step initialize (run_step initialize m' Reset) Access)
        = S (calls m')).
Proof.
  apply (lifecycle_monotone_until_reset (Some (fun _ => APromise)) true
           [Access; Access] Fulfilled).
  reflexivity.
Defined.

(** The claim has no operation move the state backwards and the
    initializer run once.  With an initializer that returns a value: the
    first access leaves the store INITIALIZED, a reset of the state puts
    it back to UNINITIALIZED, and the next access runs the initializer a
    second time. *)
Lemma reset_moves_lifecycle_back :
  let initialize := Some (fun _ : store => Value) in
  let m1 := run initialize (start true) [Access] in
  let m2 := run initialize (start true) [Access; Reset] in
  let m3 := run initialize (start true) [Access; Reset; Access] in
  _initializedState (cur m1) = INITIALIZED
  /\ _initializedState (cur m2) = UNINITIALIZED
  /\ (rank (_initializedState (cur m2)) < rank (_initializedState (cur m1)))%nat
  /\ calls m3 = 2%nat.
Proof. repeat split; simpl; lia. Qed.

End LifecycleFacts.

(* ===================================================================== *)
(** * The proxy around the store                                          *)
(* ===================================================================== *)

Module ProxyFacts.
Import Js Proxy JsFacts.

Lemma declares_has (s : store) (prop : string) :
  declares s prop = true -> has (doc s) prop = true.
Proof.
  unfold declares, has, castPath. destruct (own_prop (doc s) prop) eqn:E; [|discriminate].
  intros _. destruct (has_dot prop); simpl; now rewrite E.
Qed.

Lemma has_declares (s : store) (prop : string) :
  has_dot prop = false -> has (doc s) prop = declares s prop.
Proof. unfold declares, has, castPath. intros ->. reflexivity. Qed.

(** The setup store, whose traps ask lodash [has], does what the claim
    says: a declared property is read from and written to the document,
    and a name without dots that the document does not declare goes to
    the store. *)
Lemma proxy_setup_follows_document (s : store) (prop : string) (d x : value) :
  own_prop (doc s) prop = Some d ->
  proxy_get_setup s prop = Some d
  /\ proxy_set_setup s prop x = Some (MkStore (write_prop (doc s) prop x) (props s)).
Proof.
  intros H. unfold proxy_get_setup, proxy_set_setup.
  rewrite declares_has by (unfold declares; now rewrite H).
  unfold doc_member, doc_set.
  destruct (doc s) eqn:E; simpl in H; try discriminate;
    unfold read_prop; simpl; rewrite H; auto.
Qed.

Lemma proxy_setup_falls_through (s : store) (prop : string) (x : value) :
  has_dot prop = false ->
  declares s prop = false ->
  proxy_get_setup s prop = Some (reflect_get s prop)
  /\ proxy_set_setup s prop x = Some (store_set s prop x).
Proof.
  intros Hd H. unfold proxy_get_setup, proxy_set_setup.
  now rewrite has_declares, H.
Qed.

(** The options store reads a declared property from the document only
    when its value is truthy, and writes it to the document only when its
    value is not [undefined]. *)
Lemma proxy_get_truthy (s : store) (prop : string) (d : value) :
  own_prop (doc s) prop = Some d -> truthy d = true -> proxy_get s prop = Some d.
Proof.
  intros H Ht. unfold proxy_get, doc_member.
  destruct (doc s) eqn:E; simpl in H; try discriminate;
    unfold read_prop; simpl; rewrite H, Ht; auto.
Qed.

Lemma proxy_get_falsy (s : store) (prop : string) (d : value) :
  own_prop (doc s) prop = Some d -> truthy d = false ->
  proxy_get s prop = Some (reflect_get s prop).
Proof.
  intros H Ht. unfold proxy_get, doc_member.
  destruct (doc s) eqn:E; simpl in H; try discriminate;
    unfold read_prop; simpl; rewrite H, Ht; auto.
Qed.

(** C6 on the options store: the document declares [title] with the value
    of the schema default, the empty string, and [testValue] with 0; the
    store has no properties of these names.  Reading them through the
    proxy gives the store's (missing) properties, not the document's
    values; the setup store's traps give the document's values. *)
Lemma proxy_get_misses_falsy_fields :
  let s := MkStore (VObj [("title", VStr ""); ("testValue", VNum 0)]) [] in
  declares s "title" = true
  /\ doc_member s "title" = Some (VStr "")
  /\ proxy_get s "title" = Some VUndefined
  /\ proxy_get_setup s "title" = Some (VStr "")
  /\ declares s "testValue" = true
  /\ proxy_get s "testValue" = Some VUndefined
  /\ proxy_get_setup s "testValue" = Some (VNum 0).
Proof. repeat split. Qed.

(** A property the document declares with the value [undefined] is
    written onto the store by the options store. *)
Example proxy_set_misses_undefined_field :
  let s := MkStore (VObj [("note", VUndefined)]) [] in
  declares s "note" = true
  /\ proxy_set s "note" (VStr "x") = Some (MkStore (VObj [("note", VUndefined)]) [("note", VStr "x")])
  /\ proxy_set_setup s "note" (VStr "x") = Some (MkStore (VObj [("note", VStr "x")]) []).
Proof. repeat split. Qed.

End ProxyFacts.

(* ===================================================================== *)
(** * The registry and the promise, beyond the first snapshot             *)
(* ===================================================================== *)

Module RegistryFacts.
Import Js Piniafire JsFacts PiniafireFacts.

(** Record projections and pairs only: the registry is never unfolded. *)
Ltac proj :=
  cbn [fst snd unsubs inst listeners next_listener trace
       it_id it_name it_unsub it_type p_id p_state p_own p_docs].

Lemma filter_fresh (n : nat) (l : list nat) :
  ~ In n l -> filter (fun m => m ≠ n) l = l.
Proof.
  induction l as [|m l IH]; intros H; [reflexivity|].
  rewrite filter_cons_True by (intros ->; apply H; now left).
  rewrite IH; [reflexivity|]. intros Hin. apply H. now right.
Qed.

Lemma filter_last (n : nat) (l : list nat) :
  ~ In n l -> filter (fun m => m ≠ n) (l ++ [n]) = l.
Proof.
  intros H. rewrite filter_app, filter_fresh by assumption.
  rewrite filter_cons_False by (intros K; now apply K).
  rewrite filter_nil. apply app_nil_r.
Qed.

Lemma bind_world (field : string) (r : reference) (before after : option hook)
    (w : world) :
  snd (bind field r before after w) =
  World (<[getStoreKey (p_id (inst w)) (render_id r)
         := Item (p_id (inst w)) (render_id r) (next_listener w) (ref_type r)]>
           (unsubs w))
        (inst w) (listeners w ++ [next_listener w]) (S (next_listener w)) (trace w).
Proof. reflexivity. Qed.

Lemma unbind_found (r : reference) (w : world) (item : item) :
  unsubs w !! getStoreKey (p_id (inst w)) (render_id r) = Some item ->
  unbind r w =
  (remove (it_id item) (it_name item)
          (call_unsub (it_unsub item) (emit (Log "info" "pick:") w)), Done).
Proof. intros H. unfold unbind, pick. now rewrite H. Qed.

Lemma unbind_missing (r : reference) (w : world) :
  unsubs w !! getStoreKey (p_id (inst w)) (render_id r) = None ->
  unbind r w = (emit (Log "info" "pick:") w, Threw "TypeError: item is undefined").
Proof. intros H. unfold unbind, pick. now rewrite H. Qed.

Lemma remove_found (id name : string) (w : world) (it : item) :
  unsubs w !! getStoreKey id name = Some it ->
  remove id name w =
  emit (Log "info" "remove:") (with_unsubs (delete (getStoreKey id name) (unsubs w)) w).
Proof. intros H. unfold remove. now rewrite H. Qed.

(** The world after the [unbind] of the entry that [bind] left in [w1]. *)
Definition after_unbind (r : reference) (w w1 : world) : world :=
  remove (p_id (inst w)) (render_id r)
         (call_unsub (next_listener w) (emit (Log "info" "pick:") w1)).

(** [bind] followed by [unbind] on the same reference: the listener that
    [bind] attached is detached again by a call of its handle, the entry
    is gone from the registry, and the other entries, the store and the
    listeners that were attached before are as they were. *)
Theorem bind_then_unbind
    (field : string) (r : reference) (before after : option hook) (w : world) :
  ~ In (next_listener w) (listeners w) ->
  let key := getStoreKey (p_id (inst w)) (render_id r) in
  let w1 := snd (bind field r before after w) in
  let w2 := fst (unbind r w1) in
  unsubs w1 !! key = Some (Item (p_id (inst w)) (render_id r) (next_listener w) (ref_type r))
  /\ snd (unbind r w1) = Done
  /\ unsubs w2 !! key = None
  /\ (forall k, k <> key -> unsubs w2 !! k = unsubs w !! k)
  /\ listeners w2 = listeners w
  /\ inst w2 = inst w
  /\ trace w2 = trace w ++
       [Log "info" "pick:"; Unsubscribed (next_listener w); Log "info" "remove:"].
Proof.
  intros Hfresh key w1 w2.
  assert (H1 : unsubs w1 !! key
               = Some (Item (p_id (inst w)) (render_id r) (next_listener w) (ref_type r))).
  { subst w1 key. rewrite bind_world. proj. apply lookup_insert_eq. }
  assert (Hid : p_id (inst w1) = p_id (inst w)) by (subst w1; now rewrite bind_world).
  assert (Hu : unbind r w1 = (after_unbind r w w1, Done)).
  { unfold after_unbind.
    apply (unbind_found r w1
             (Item (p_id (inst w)) (render_id r) (next_listener w) (ref_type r))).
    rewrite Hid. exact H1. }
  subst w2. rewrite Hu. proj.
  split; [exact H1|]. split; [reflexivity|].
  unfold after_unbind.
  rewrite (remove_found _ _ (call_unsub (next_listener w) (emit (Log "info" "pick:") w1))
             _ H1).
  unfold call_unsub, emit, with_unsubs. proj.
  subst w1 key. rewrite bind_world. proj.
  split; [apply lookup_delete_eq|].
  split; [intros k Hk; rewrite lookup_delete_ne, lookup_insert_ne by congruence; reflexivity|].
  split; [now apply filter_last|].
  split; [reflexivity|].
  now rewrite <- !app_assoc.
Qed.

Lemma bind_then_unbind_witness :
  let w := Scenario.emptyWorld in
  let r := Scenario.docRef in
  let key := getStoreKey (p_id (inst w)) (render_id r) in
  let w1 := snd (bind "doc" r None None w) in
  let w2 := fst (unbind r w1) in
  unsubs w1 !! key = Some (Item (p_id (inst w)) (render_id r) (next_listener w) (ref_type r))
  /\ snd (unbind r w1) = Done
  /\ unsubs w2 !! key = None
  /\ (forall k, k <> key -> unsubs w2 !! k = unsubs w !! k)
  /\ listeners w2 = listeners w
  /\ inst w2 = inst w
  /\ trace w2 = trace w ++
       [Log "info" "pick:"; Unsubscribed (next_listener w); Log "info" "remove:"].
Proof.
  exact (bind_then_unbind "doc" Scenario.docRef None None Scenario.emptyWorld
           (fun H : False => H)).
Defined.

(** The registry key is made of the store id and [ref.id] alone.  Two
    references with the same id - one reference bound twice, two queries
    (a query has no id), a document and a collection of the same name -
    share one entry on a store: the second [bind] overwrites the entry
    without calling the first handle, so both listeners are attached and
    only the second can be reached.  One [unbind], with either reference,
    detaches the second listener and removes the entry; the first
    listener stays attached and a further [unbind] throws, there being no
    entry left. *)
Theorem rebind_leaves_first_listener
    (f1 f2 : string) (r1 r2 : reference) (b1 a1 b2 a2 : option hook) (w : world) :
  render_id r1 = render_id r2 ->
  ~ In (S (next_listener w)) (listeners w) ->
  let n := next_listener w in
  let key := getStoreKey (p_id (inst w)) (render_id r1) in
  let w2 := snd (bind f2 r2 b2 a2 (snd (bind f1 r1 b1 a1 w))) in
  let w3 := fst (unbind r1 w2) in
  (it_unsub <$> unsubs w2 !! key) = Some (S n)
  /\ listeners w2 = listeners w ++ [n; S n]
  /\ trace w2 = trace w
  /\ listeners w3 = listeners w ++ [n]
  /\ unsubs w3 !! key = None
  /\ ~ In (Unsubscribed n) (skipn (length (trace w)) (trace w3))
  /\ snd (unbind r1 w3) = Threw "TypeError: item is undefined".
Proof.
  intros Hid Hfresh n key w2 w3.
  set (it := Item (p_id (inst w)) (render_id r1) (S n) (ref_type r2)).
  assert (Hw2 : w2 = World (<[key := it]> (unsubs w)) (inst w)
                           (listeners w ++ [n; S n]) (S (S n)) (trace w)).
  { subst w2 key n it. rewrite !bind_world. proj. rewrite <- Hid.
    now rewrite insert_insert_eq, <- app_assoc. }
  assert (Hpid : p_id (inst w2) = p_id (inst w)) by now rewrite Hw2.
  assert (Hl : unsubs w2 !! key = Some it) by (rewrite Hw2; apply lookup_insert_eq).
  assert (Hu : unbind r1 w2 =
               (remove (p_id (inst w)) (render_id r1)
                       (call_unsub (S n) (emit (Log "info" "pick:") w2)), Done)).
  { apply (unbind_found r1 w2 it). rewrite Hpid. exact Hl. }
  assert (Hw3 : w3 = World (delete key (unsubs w)) (inst w) (listeners w ++ [n])
                           (S (S n))
                           (trace w ++ [Log "info" "pick:"; Unsubscribed (S n);
                                        Log "info" "remove:"])).
  { subst w3. rewrite Hu. proj.
    rewrite (remove_found _ _ (call_unsub (S n) (emit (Log "info" "pick:") w2)) _ Hl).
    unfold call_unsub, emit, with_unsubs. rewrite Hw2. proj. f_equal.
    - apply delete_insert_eq.
    - change [n; S n] with ([n] ++ [S n]). rewrite app_assoc. apply filter_last.
      rewrite in_app_iff. intros [H|[H|[]]]; [now apply Hfresh|subst n; lia].
    - now rewrite <- !app_assoc. }
  split; [rewrite Hl; reflexivity|].
  split; [now rewrite Hw2|]. split; [now rewrite Hw2|].
  split; [now rewrite Hw3|].
  split; [rewrite Hw3; apply lookup_delete_eq|].
  split.
  - rewrite Hw3. proj. rewrite drop_app_length.
    intros [H|[H|[H|[]]]]; try discriminate. injection H. subst n. lia.
  - rewrite unbind_missing; [reflexivity|].
    rewrite Hw3. proj. apply lookup_delete_eq.
Qed.

Lemma rebind_leaves_first_listener_witness :
  let w := Scenario.emptyWorld in
  let r1 := Scenario.docRef in
  let r2 := Reference "collection" (Some "doc1") in
  let n := next_listener w in
  let key := getStoreKey (p_id (inst w)) (render_id r1) in
  let w2 := snd (bind "collection" r2 None None (snd (bind "doc" r1 None None w))) in
  let w3 := fst (unbind r1 w2) in
  (it_unsub <$> unsubs w2 !! key) = Some (S n)
  /\ listeners w2 = listeners w ++ [n; S n]
  /\ trace w2 = trace w
  /\ listeners w3 = listeners w ++ [n]
  /\ unsubs w3 !! key = None
  /\ ~ In (Unsubscribed n) (skipn (length (trace w)) (trace w3))
  /\ snd (unbind r1 w3) = Threw "TypeError: item is undefined".
Proof.
  exact (rebind_leaves_first_listener "doc" "collection" Scenario.docRef
           (Reference "collection" (Some "doc1")) None None None None
           Scenario.emptyWorld eq_refl (fun H : False => H)).
Defined.

(** ** The promise over any run of deliveries *)

Lemma deliver_all_app (es es' : list delivery) (bw : binding * world) :
  deliver_all bw (es ++ es') = deliver_all (deliver_all bw es) es'.
Proof. unfold deliver_all. apply fold_left_app. Qed.

(** Whatever Firestore delivers after [bind], in whatever order -
    snapshots, errors, handlers that throw - [resolve] and [reject] are
    called at most once between them, the promise is settled exactly when
    that call has been made, and a settled promise never changes. *)
Theorem bind_settles_at_most_once
    (field : string) (r : reference) (before after : option hook) (w : world)
    (es es' : list delivery) :
  let b := fst (deliver_all (bind field r before after w) es) in
  let b' := fst (deliver_all (bind field r before after w) (es ++ es')) in
  (settles b <= 1)%nat
  /\ (settles b = 0%nat <-> promise b = Pending)
  /\ (promise b <> Pending -> b' = b).
Proof.
  intros b b'.
  assert (Hok : closure_ok b).
  { apply closure_ok_run. unfold bind. destruct (onSnapshot w). left. now repeat split. }
  split; [|split].
  - destruct Hok as [(_ & -> & _)|(_ & -> & _)]; lia.
  - destruct Hok as [(_ & Hs & Hp)|(_ & Hs & Hp)]; split; intros H;
      try assumption; try congruence; lia.
  - intros Hp. destruct Hok as [(_ & _ & K)|(Hi & _ & _)]; [contradiction|].
    subst b'. rewrite deliver_all_app.
    destruct (deliver_all (bind field r before after w) es) as [b0 w0] eqn:E.
    simpl in b. subst b. now apply deliver_all_initialised.
Qed.

(** An error that comes before any snapshot rejects the promise with that
    error and removes the registry entry.  The promise stays rejected
    whatever is delivered afterwards; a snapshot that still arrives is
    merged into the state all the same. *)
Theorem error_first_rejects
    (field : string) (r : reference) (before after : option hook) (w : world)
    (error : string) :
  let first := fst (deliver (bind field r before after w) (Failure error)) in
  let b1 := fst first in
  let w1 := snd first in
  promise b1 = Rejected error
  /\ settles b1 = 1%nat
  /\ unsubs w1 !! getStoreKey (p_id (inst w)) (render_id r) = None
  /\ inst w1 = inst w
  /\ (forall es, fst (deliver_all first es) = b1)
  /\ (forall es s b' w',
        snap_exists s = true ->
        deliver (deliver_all first es) (Next (DocSnap s)) = (b', w', Done) ->
        promise b' = Rejected error
        /\ patch_doc (inst (snd (deliver_all first es))) field (makeDocumentData s)
           = Some (inst w')).
Proof.
  intros first b1 w1.
  set (key := getStoreKey (p_id (inst w)) (render_id r)).
  set (it := Item (p_id (inst w)) (render_id r) (next_listener w) (ref_type r)).
  assert (Hrun : first =
    (Binding field r before after true (Rejected error) 1,
     World (delete key (unsubs w)) (inst w) (listeners w ++ [next_listener w])
           (S (next_listener w))
           (trace w ++ [Log "error" (p_id (inst w) +:+ " error"); Log "info" "remove:"]))).
  { subst first. rewrite (surjective_pairing (bind field r before after w)).
    rewrite bind_world. unfold deliver, handleError.
    replace (fst (bind field r before after w))
      with (Binding field r before after false Pending 0)
      by (unfold bind; now destruct (onSnapshot w)).
    cbn [isInitialised b_ref negb fst]. unfold emit at 1. proj.
    erewrite remove_found by (unfold emit; proj; apply lookup_insert_eq).
    unfold emit, with_unsubs, settle. proj.
    cbn [b_field b_ref beforeUpdate afterUpdate promise settles].
    now rewrite delete_insert_eq, <- app_assoc. }
  assert (Hfirst : first = (b1, w1)) by (subst b1 w1; now destruct first).
  assert (Hb1 : b1 = Binding field r before after true (Rejected error) 1)
    by (subst b1; now rewrite Hrun).
  assert (Hi : isInitialised b1 = true) by now rewrite Hb1.
  split; [now rewrite Hb1|]. split; [now rewrite Hb1|].
  split; [subst w1; rewrite Hrun; apply lookup_delete_eq|].
  split; [subst w1; now rewrite Hrun|].
  split.
  { intros es. rewrite Hfirst. now apply deliver_all_initialised. }
  intros es s b' w' Hs Hd.
  pose proof (deliver_all_initialised es b1 w1 Hi) as Hsame.
  rewrite Hfirst in *.
  destruct (deliver_all (b1, w1) es) as [b0 w0] eqn:E. simpl in Hsame. subst b0.
  pose proof (deliver_initialised b1 w0 (Next (DocSnap s)) Hi) as Hk.
  rewrite Hd in Hk. simpl in Hk. subst b'.
  split; [now rewrite Hb1|].
  simpl snd. replace field with (b_field b1) by now rewrite Hb1.
  now apply (deliver_doc_snapshot b1 b1).
Qed.

(** A [beforeUpdate] hook that throws is caught: the failure is logged,
    the document is merged into the state and the promise is resolved with
    it, as if the hook had returned. *)
Theorem beforeUpdate_failure_is_caught
    (b : binding) (w : world) (s : snapshot) (h : hook) (msg : string) (p' : pinia) :
  ref_type (b_ref b) = "document" ->
  snap_exists s = true ->
  beforeUpdate b = Some h ->
  h (makeDocumentData s) = Threw msg ->
  afterUpdate b = None ->
  patch_doc (inst w) (b_field b) (makeDocumentData s) = Some p' ->
  deliver (b, w) (Next (DocSnap s))
  = (_resolve (RValue (VObj (makeDocumentData s))) b,
     World (unsubs w) p' (listeners w) (next_listener w)
           (trace w ++ [HookCalled "beforeUpdate" (makeDocumentData s);
                        Log "error" ("beforeUpdate handler failed " +:+ msg)]),
     Done).
Proof.
  intros Hr Hs Hb Hh Ha Hp.
  unfold deliver, handleDocSnapshotUpdate. rewrite Hr, Hs, Hb, Hh, Ha. cbn.
  rewrite Hp. unfold with_inst. cbn. now rewrite <- app_assoc.
Qed.

Lemma beforeUpdate_failure_is_caught_witness :
  let s := Scenario.snapshotOf "doc1" (VObj [("title", VStr "T")]) in
  let h : hook := fun _ => Threw "hook failed" in
  let b := Binding "doc" Scenario.docRef (Some h) None false Pending 0 in
  let w := Scenario.emptyWorld in
  let p' := Pinia "test"
              [("doc", Val (VObj (assign_fields Scenario.testFields (makeDocumentData s))))]
              [] empty_docs in
  deliver (b, w) (Next (DocSnap s))
  = (_resolve (RValue (VObj (makeDocumentData s))) b,
     World (unsubs w) p' (listeners w) (next_listener w)
           (trace w ++ [HookCalled "beforeUpdate" (makeDocumentData s);
                        Log "error" ("beforeUpdate handler failed " +:+ "hook failed")]),
     Done).
Proof.
  apply (beforeUpdate_failure_is_caught
           (Binding "doc" Scenario.docRef (Some (fun _ => Threw "hook failed")) None
                    false Pending 0)
           Scenario.emptyWorld
           (Scenario.snapshotOf "doc1" (VObj [("title", VStr "T")]))
           (fun _ => Threw "hook failed") "hook failed");
    reflexivity.
Defined.

Definition is_existing_doc (e : delivery) : bool :=
  match e with
  | Next (DocSnap s) => snap_exists s
  | _ => false
  end.

Lemma afterUpdate_throws_step (b : binding) (w : world) (e : delivery) (h : hook) :
  ref_type (b_ref b) = "document" ->
  afterUpdate b = Some h ->
  (forall d, h d <> Done) ->
  is_existing_doc e = true ->
  fst (fst (deliver (b, w) e)) = b.
Proof.
  intros Hr Ha Hh He. destruct e as [[s|cs]|err]; try discriminate. simpl in He.
  unfold deliver, handleDocSnapshotUpdate. rewrite Hr, He, Ha. cbn.
  destruct (patch_doc _ _ _); [|reflexivity].
  destruct (h (makeDocumentData s)) eqn:E; [now apply Hh in E|reflexivity].
Qed.

(** An [afterUpdate] hook that throws is not caught, and [_resolve] comes
    after it: with a hook that throws on every document, no snapshot of an
    existing document ever resolves the promise of a document binding,
    however many are delivered (each is still merged into the state). *)
Theorem throwing_afterUpdate_never_resolves
    (field : string) (r : reference) (before : option hook) (h : hook) (w : world)
    (es : list delivery) :
  ref_type r = "document" ->
  (forall d, h d <> Done) ->
  forallb is_existing_doc es = true ->
  let b := fst (deliver_all (bind field r before (Some h) w) es) in
  promise b = Pending /\ settles b = 0%nat.
Proof.
  intros Hr Hh Hes b.
  assert (Hb : b = Binding field r before (Some h) false Pending 0).
  { subst b. unfold bind. destruct (onSnapshot w) as [n w0].
    generalize (store (p_id (inst w0)) (render_id r) n (ref_type r) w0).
    induction es as [|e es IH]; intros w1; [reflexivity|].
    simpl in Hes. apply andb_true_iff in Hes as [He Hes].
    rewrite deliver_all_cons.
    pose proof (afterUpdate_throws_step
                  (Binding field r before (Some h) false Pending 0) w1 e h
                  Hr eq_refl Hh He) as K.
    destruct (deliver _ e) as [[b1 w2] o]. simpl in K. subst b1. now apply IH. }
  now rewrite Hb.
Qed.

Lemma throwing_afterUpdate_never_resolves_witness :
  let s := Scenario.snapshotOf "doc1" (VObj [("title", VStr "T")]) in
  let h : hook := fun _ => Threw "hook failed" in
  let b := fst (deliver_all (bind "doc" Scenario.docRef None (Some h) Scenario.emptyWorld)
                            [Next (DocSnap s); Next (DocSnap s)]) in
  promise b = Pending /\ settles b = 0%nat.
Proof.
  apply (throwing_afterUpdate_never_resolves "doc" Scenario.docRef None
           (fun _ => Threw "hook failed") Scenario.emptyWorld
           [Next (DocSnap (Scenario.snapshotOf "doc1" (VObj [("title", VStr "T")])));
            Next (DocSnap (Scenario.snapshotOf "doc1" (VObj [("title", VStr "T")])))]);
    [reflexivity|discriminate|reflexivity].
Defined.

End RegistryFacts.

(* ===================================================================== *)
(** * Materialized documents and the collection array                     *)
(* ===================================================================== *)

Module ReconcileFacts.
Import Js Piniafire JsFacts PiniafireFacts.

(** ** [makeDocumentData] *)

(** The document materialized from a snapshot holds every field of the
    snapshot's data with its value, and [__id], [__path] and [__metadata]
    from the snapshot - unless the data has a field of that name, which
    then takes its place. *)
Theorem makeDocumentData_fields (s : snapshot) (fs : fields_t) (k : string) :
  snap_data s = VObj fs ->
  List.NoDup (List.map fst fs) ->
  lookup_field k (makeDocumentData s) =
  match lookup_field k fs with
  | Some v => Some v
  | None =>
      if String.eqb k "__id" then Some (VStr (snap_id s))
      else if String.eqb k "__path" then Some (VStr (snap_path s))
      else if String.eqb k "__metadata" then Some (snap_metadata s)
      else None
  end.
Proof.
  intros Hd Hnd. unfold makeDocumentData. rewrite Hd. simpl js_or. simpl spread.
  rewrite lookup_assign_fields, lookup_field_rev by assumption.
  reflexivity.
Qed.

Lemma makeDocumentData_fields_witness :
  let s := Scenario.snapshotOf "doc1" (VObj [("title", VStr "T"); ("__id", VStr "mine")]) in
  lookup_field "__id" (makeDocumentData s) =
  match lookup_field "__id" [("title", VStr "T"); ("__id", VStr "mine")] with
  | Some v => Some v
  | None =>
      if String.eqb "__id" "__id" then Some (VStr (snap_id s))
      else if String.eqb "__id" "__path" then Some (VStr (snap_path s))
      else if String.eqb "__id" "__metadata" then Some (snap_metadata s)
      else None
  end.
Proof.
  apply (makeDocumentData_fields
           (Scenario.snapshotOf "doc1" (VObj [("title", VStr "T"); ("__id", VStr "mine")]))
           [("title", VStr "T"); ("__id", VStr "mine")] "__id");
    [reflexivity|].
  repeat constructor; simpl; intuition discriminate.
Defined.

(** A snapshot without data (a document that holds nothing, [data()]
    undefined) materializes to the three reserved keys and nothing else. *)
Theorem makeDocumentData_empty (s : snapshot) :
  truthy (snap_data s) = false ->
  makeDocumentData s =
  [("__id", VStr (snap_id s)); ("__path", VStr (snap_path s));
   ("__metadata", snap_metadata s)].
Proof. intros H. unfold makeDocumentData, js_or. now rewrite H. Qed.

Lemma makeDocumentData_empty_witness :
  makeDocumentData (Scenario.missing "doc1") =
  [("__id", VStr (snap_id (Scenario.missing "doc1")));
   ("__path", VStr (snap_path (Scenario.missing "doc1")));
   ("__metadata", snap_metadata (Scenario.missing "doc1"))].
Proof. apply makeDocumentData_empty. reflexivity. Defined.

(** ** [splice] at an index that is not negative *)

Lemma splice_insert (d : docs) (i : Z) (c : cell) :
  0 <= i <= Z.of_nat (length (elems d)) ->
  splice d i 0 [c] =
  Docs (heap d) (take (Z.to_nat i) (elems d) ++ c :: drop (Z.to_nat i) (elems d))
       (named d).
Proof.
  intros H. unfold splice.
  destruct (Z.ltb_spec i 0); [lia|].
  replace (Z.min i (Z.of_nat (length (elems d)))) with i by lia.
  replace (i + Z.min (Z.max 0 0) (Z.of_nat (length (elems d)) - i)) with i by lia.
  reflexivity.
Qed.

Lemma splice_remove (d : docs) (i : Z) :
  0 <= i ->
  splice d i 1 [] = Docs (heap d) (delete (Z.to_nat i) (elems d)) (named d).
Proof.
  intros H. unfold splice.
  destruct (Z.ltb_spec i 0); [lia|]. f_equal. simpl app.
  rewrite delete_take_drop.
  destruct (Z.le_gt_cases (Z.of_nat (length (elems d))) i) as [Hge|Hlt].
  - rewrite !take_ge by lia. now rewrite !drop_ge by lia.
  - replace (Z.min i (Z.of_nat (length (elems d)))) with i by lia.
    replace (Z.to_nat (i + Z.min (Z.max 1 0) (Z.of_nat (length (elems d)) - i)))
      with (S (Z.to_nat i)) by lia.
    reflexivity.
Qed.

Lemma splice_replace (d : docs) (i : Z) (c : cell) :
  0 <= i < Z.of_nat (length (elems d)) ->
  splice d i 1 [c] = Docs (heap d) (<[Z.to_nat i := c]> (elems d)) (named d).
Proof.
  intros H. unfold splice.
  destruct (Z.ltb_spec i 0); [lia|]. f_equal.
  replace (Z.min i (Z.of_nat (length (elems d)))) with i by lia.
  replace (Z.to_nat (i + Z.min (Z.max 1 0) (Z.of_nat (length (elems d)) - i)))
    with (S (Z.to_nat i)) by lia.
  symmetry. apply insert_take_drop. lia.
Qed.

(** A [splice] that leaves the array within its maximal length, or no
    longer than it was, returns. *)
Lemma splice_call_done (d : docs) (start count : Z) (items : list cell) :
  (length (elems (splice d start count items)) <= length (elems d))%nat
  \/ Z.of_nat (length (elems (splice d start count items))) <= max_length ->
  splice_call d start count items = (splice d start count items, Done).
Proof.
  intros H. unfold splice_call.
  destruct (Nat.ltb_spec (length (elems d))
              (length (elems (splice d start count items)))) as [Hlt|Hge];
    [|reflexivity].
  destruct (Z.ltb_spec max_length
              (Z.of_nat (length (elems (splice d start count items)))));
    [lia|reflexivity].
Qed.

Lemma splice_length (d : docs) (start count : Z) (items : list cell) :
  (length (elems (splice d start count items))
   <= length (elems d) + length items)%nat.
Proof.
  unfold splice. cbn [elems]. rewrite !length_app, length_take, length_drop. lia.
Qed.

Lemma splice_call_removes (d : docs) (start count : Z) :
  splice_call d start count [] = (splice d start count [], Done).
Proof.
  apply splice_call_done. left.
  pose proof (splice_length d start count []) as H. cbn [length] in H. lia.
Qed.

Lemma array_index_None (d : docs) (k : string) :
  index_of_key k = None -> array_index d k = None.
Proof. intros H. unfold array_index. now rewrite H. Qed.

Lemma array_index_within (d : docs) (k : string) (n : nat) :
  index_of_key k = Some n -> (n < length (elems d))%nat ->
  array_index d k = Some n.
Proof.
  intros H Hn. unfold array_index. rewrite H.
  apply Nat.ltb_lt in Hn. now rewrite Hn.
Qed.

Lemma array_index_Some (d : docs) (k : string) (i : nat) :
  array_index d k = Some i ->
  index_of_key k = Some i
  /\ ((i < length (elems d))%nat \/ Z.of_nat i < max_length).
Proof.
  unfold array_index. destruct (index_of_key k) as [n|]; [|discriminate].
  destruct (Nat.ltb_spec n (length (elems d))); cbn [orb].
  - intros [= <-]. split; [reflexivity|now left].
  - destruct (Z.ltb_spec (Z.of_nat n) max_length); [|discriminate].
    intros [= <-]. split; [reflexivity|now right].
Qed.

(** The array index of a name does not depend on the heap or on the
    table of names. *)
Lemma array_index_elems (d d' : docs) (k : string) :
  elems d' = elems d -> array_index d' k = array_index d k.
Proof. intros H. unfold array_index. now rewrite H. Qed.

Lemma delete_set_cell (k : string) (c : cell) (l : list (string * cell)) :
  lookup_cell k l = None -> delete_cell k (set_cell k c l) = l.
Proof.
  induction l as [|[k' c'] l IH]; simpl; intros H.
  - now rewrite String.eqb_refl.
  - destruct (String.eqb k k') eqn:E; [discriminate|]. simpl. rewrite E.
    now rewrite IH.
Qed.

Lemma lookup_set_cell (k : string) (c : cell) (l : list (string * cell)) :
  lookup_cell k (set_cell k c l) = Some c.
Proof.
  induction l as [|[k' c'] l IH]; simpl.
  - now rewrite String.eqb_refl.
  - destruct (String.eqb k k') eqn:E; simpl; [now rewrite String.eqb_refl|].
    now rewrite E.
Qed.

(** A name the array knows nothing under. *)
Lemma arr_get_unknown (d : docs) (k : string) :
  index_of_key k = None ->
  lookup_cell k (named d) = None ->
  k <> "length" ->
  is_array_member k = false ->
  arr_get d k = hole.
Proof.
  intros Hi Hn Hl Hm. unfold arr_get.
  rewrite (array_index_None d k Hi), Hn, Hm.
  apply String.eqb_neq in Hl. now rewrite Hl.
Qed.

(** ** Single changes *)

(** An 'added' change for an id the array does not know - an id that is
    no array index and not a name the array answers by itself ([length],
    an inherited member) - into an array that has room for one more
    element, followed by the 'removed' change for it at the same index,
    gives back the sequence and the lookup by id as they were (the
    document object stays behind in the heap, unreferenced). *)
Theorem added_then_removed_restores (d : docs) (s : snapshot) (i : Z) :
  index_of_key (snap_id s) = None ->
  snap_id s <> "length" ->
  is_array_member (snap_id s) = false ->
  lookup_cell (snap_id s) (named d) = None ->
  0 <= i <= Z.of_nat (length (elems d)) ->
  Z.of_nat (length (elems d)) < max_length ->
  apply_changes d [added s i; removed s i]
  = (Docs (heap d ++ [set_field "__index" (VNum i) (makeDocumentData s)])
          (elems d) (named d), Done).
Proof.
  intros Hk Hl Hm Hn Hi Hroom.
  assert (El : String.eqb (snap_id s) "length" = false) by now apply String.eqb_neq.
  unfold apply_changes, apply_change, added, removed.
  cbn [ch_type ch_doc ch_newIndex ch_oldIndex].
  rewrite arr_get_unknown by assumption. cbn [truthy_cell hole truthy negb].
  unfold alloc. cbn [fst snd].
  rewrite splice_call_done
    by (right; pose proof (splice_length
                             (Docs (heap d ++ [set_field "__index" (VNum i)
                                                 (makeDocumentData s)])
                                   (elems d) (named d)) i 0
                             [Ref (length (heap d))]) as Hs;
        cbn [elems length] in Hs; lia).
  rewrite splice_insert by (cbn [elems]; lia). cbn [heap elems named].
  unfold arr_set at 1. rewrite (array_index_None _ _ Hk).
  cbn [heap elems named]. rewrite Hn, El.
  cbn [assigned].
  rewrite splice_call_removes.
  rewrite splice_remove by lia. cbn [heap elems named].
  unfold arr_delete. rewrite (array_index_None _ _ Hk). cbn [heap elems named].
  rewrite lookup_set_cell, delete_set_cell by assumption.
  f_equal. f_equal.
  rewrite delete_take_drop.
  rewrite take_app_le by (rewrite length_take; lia).
  rewrite take_take, Nat.min_id.
  replace (S (Z.to_nat i)) with (length (take (Z.to_nat i) (elems d)) + 1)%nat
    by (rewrite length_take; lia).
  rewrite drop_app_add'; [|reflexivity]. cbn [drop].
  change (drop 0 (drop (Z.to_nat i) (elems d))) with (drop (Z.to_nat i) (elems d)).
  now rewrite take_drop.
Qed.

Lemma added_then_removed_restores_witness :
  let a := Scenario.snapshotOf "a" (VObj [("title", VStr "A")]) in
  let b := Scenario.snapshotOf "b" (VObj [("title", VStr "B")]) in
  let d := fst (apply_changes empty_docs [added a 0]) in
  apply_changes d [added b 1; removed b 1]
  = (Docs (heap d ++ [set_field "__index" (VNum 1) (makeDocumentData b)])
          (elems d) (named d), Done).
Proof.
  intros a b d.
  apply (added_then_removed_restores d b 1);
    [reflexivity|discriminate|reflexivity|reflexivity| |reflexivity].
  vm_compute. split; discriminate.
Defined.

(** Without room the insertion throws: [splice] on an array of maximal
    length, with an item to insert and nothing to take out. *)
Lemma splice_call_full (d : docs) (i : Z) (c : cell) :
  Z.of_nat (length (elems d)) = max_length ->
  snd (splice_call d i 0 [c]) = Threw "RangeError: Invalid array length".
Proof.
  intros Hfull. unfold splice_call.
  assert (Hlen : length (elems (splice d i 0 [c])) = S (length (elems d))).
  { unfold splice. cbn [elems].
    rewrite !length_app, length_take, length_drop. cbn [length].
    destruct (i <? 0); lia. }
  rewrite Hlen.
  destruct (Nat.ltb_spec (length (elems d)) (S (length (elems d)))); [|lia].
  destruct (Z.ltb_spec max_length (Z.of_nat (S (length (elems d))))); [|lia].
  reflexivity.
Qed.

(** An id that is a name of the array itself takes another way through
    the handler.  On an empty array an 'added' change with the id
    [length] inserts the document and then throws on [docs[id] = newDoc];
    with the id [map] nothing is inserted: the handler finds the
    inherited function, writes [__index] to it and assigns it to the
    position. *)
Example added_under_array_names :
  let s := Scenario.snapshotOf "length" (VObj [("title", VStr "A")]) in
  let m := Scenario.snapshotOf "map" (VObj [("title", VStr "A")]) in
  apply_change empty_docs (added s 0)
  = (Docs [set_field "__index" (VNum 0) (makeDocumentData s)] [Ref 0] [],
     Threw "RangeError: Invalid array length")
  /\ apply_change empty_docs (added m 0)
     = (Docs [[("__index", VNum 0)]] [Ref 0] [("map", Member (Some 0%nat))], Done).
Proof. split; reflexivity. Qed.

(** A second 'added' change for an id the array already tracks inserts
    nothing: the tracked document is written over position [newIndex]
    (what was there leaves the sequence, the length stays), its [__index]
    is set to [newIndex] and its other fields stay - the data of the
    incoming snapshot is not used - and the lookup by id is unchanged. *)
Theorem added_again_overwrites_position
    (d : docs) (s : snapshot) (i : Z) (n a : nat) (o : fields_t) :
  index_of_key (snap_id s) = None ->
  lookup_cell (snap_id s) (named d) = Some (Ref a) ->
  heap d !! a = Some o ->
  index_of_key (key_of_Z i) = Some n ->
  (n < length (elems d))%nat ->
  apply_change d (added s i)
  = (Docs (<[a := set_field "__index" (VNum i) o]> (heap d))
          (<[n := Ref a]> (elems d))
          (named d), Done).
Proof.
  intros Hk Hn Ha Hi Hlt.
  unfold apply_change, added. cbn [ch_type ch_doc ch_newIndex].
  unfold arr_get. rewrite (array_index_None _ _ Hk), Hn. cbn [truthy_cell negb].
  rewrite Ha. unfold arr_set.
  rewrite (array_index_within _ _ n Hi) by exact Hlt. cbn [heap elems named].
  apply Nat.ltb_lt in Hlt. now rewrite Hlt.
Qed.

Lemma added_again_overwrites_position_witness :
  let a := Scenario.snapshotOf "a" (VObj [("title", VStr "A")]) in
  let b := Scenario.snapshotOf "b" (VObj [("title", VStr "B")]) in
  let a' := Scenario.snapshotOf "a" (VObj [("title", VStr "changed")]) in
  let d := fst (apply_changes empty_docs [added a 0; added b 1]) in
  apply_change d (added a' 1)
  = (Docs (<[0%nat := set_field "__index" (VNum 1)
                        (set_field "__index" (VNum 0) (makeDocumentData a))]> (heap d))
          (<[1%nat := Ref 0]> (elems d))
          (named d), Done).
Proof.
  intros a b a' d.
  apply (added_again_overwrites_position d a' 1 1 0
           (set_field "__index" (VNum 0) (makeDocumentData a)));
    try reflexivity.
  vm_compute. lia.
Defined.

(** A 'modified' change puts a freshly materialized document at
    [newIndex]; the lookup by id is not touched, so [docs[id]] is still
    the object that was there before, with its old fields; the new
    document carries no [__index] of its own. *)
Theorem modified_leaves_lookup_stale (d : docs) (s : snapshot) (old i : Z) :
  0 <= i < Z.of_nat (length (elems d)) ->
  apply_change d (modified s old i)
  = (Docs (heap d ++ [makeDocumentData s])
          (<[Z.to_nat i := Ref (length (heap d))]> (elems d))
          (named d), Done).
Proof.
  intros Hi. unfold apply_change, modified, alloc.
  cbn [ch_type ch_doc ch_newIndex].
  rewrite splice_call_done; rewrite splice_replace by (cbn [elems]; lia);
    [reflexivity|].
  left. cbn [elems]. now rewrite length_insert.
Qed.

Lemma modified_leaves_lookup_stale_witness :
  let a := Scenario.snapshotOf "a" (VObj [("title", VStr "A")]) in
  let a' := Scenario.snapshotOf "a" (VObj [("title", VStr "changed")]) in
  let d := fst (apply_changes empty_docs [added a 0]) in
  apply_change d (modified a' 0 0)
  = (Docs (heap d ++ [makeDocumentData a'])
          (<[Z.to_nat 0 := Ref (length (heap d))]> (elems d))
          (named d), Done).
Proof.
  intros a a' d. apply (modified_leaves_lookup_stale d a' 0 0).
  vm_compute. split; [discriminate|reflexivity].
Defined.

(** After added(a) and modified(a), position 0 of the sequence shows the
    new title and the lookup by id the old one. *)
Example modified_sequence_and_lookup_differ :
  let a := Scenario.snapshotOf "a" (VObj [("title", VStr "A")]) in
  let a' := Scenario.snapshotOf "a" (VObj [("title", VStr "changed")]) in
  let d := fst (apply_changes empty_docs [added a 0; modified a' 0 0]) in
  List.map (fun v => read_prop v "title") (sequence d) = [VStr "changed"]
  /\ read_prop (cell_doc d (arr_get d "a")) "title" = VStr "A".
Proof. split; reflexivity. Qed.

(** ** The shape the handler keeps *)

(** An element is a reference to a document of the heap, or a hole. *)
Definition tracked (n : nat) (c : cell) : Prop :=
  match c with
  | Ref a => (a < n)%nat
  | Plain v => v = VUndefined
  | Member _ => False
  end.

(** A name stands for a document of the heap, or for an inherited member
    the handler has written to. *)
Definition listed (n : nat) (c : cell) : Prop :=
  match c with
  | Ref a | Member (Some a) => (a < n)%nat
  | _ => False
  end.

(** What the handler leaves behind when it starts from an empty array. *)
Definition reconciled (d : docs) : Prop :=
  Forall (tracked (length (heap d))) (elems d)
  /\ Forall (fun kc => listed (length (heap d)) (snd kc)) (named d).

Lemma tracked_mono (n m : nat) (c : cell) : (n <= m)%nat -> tracked n c -> tracked m c.
Proof. destruct c; simpl; [auto|lia|auto]. Qed.

Lemma listed_mono (n m : nat) (c : cell) : (n <= m)%nat -> listed n c -> listed m c.
Proof. destruct c as [v|a|[a|]]; simpl; [auto|lia|lia|auto]. Qed.

Lemma Forall_set_cell (P : cell -> Prop) (k : string) (c : cell) (l : list (string * cell)) :
  P c -> Forall (fun kc => P (snd kc)) l -> Forall (fun kc => P (snd kc)) (set_cell k c l).
Proof.
  intros Hc. induction 1 as [|[k' c'] l Hx Hl IH]; simpl.
  - apply List.Forall_cons; [exact Hc|apply List.Forall_nil].
  - destruct (String.eqb k k'); apply List.Forall_cons; auto.
Qed.

Lemma Forall_delete_cell (P : cell -> Prop) (k : string) (l : list (string * cell)) :
  Forall (fun kc => P (snd kc)) l -> Forall (fun kc => P (snd kc)) (delete_cell k l).
Proof.
  induction 1 as [|[k' c'] l Hx Hl IH]; simpl; [apply List.Forall_nil|].
  destruct (String.eqb k k'); [assumption|now apply List.Forall_cons].
Qed.

Lemma lookup_cell_Forall (P : cell -> Prop) (k : string) (c : cell)
    (l : list (string * cell)) :
  Forall (fun kc => P (snd kc)) l -> lookup_cell k l = Some c -> P c.
Proof.
  induction 1 as [|[k' c'] l Hx _ IH]; simpl; [discriminate|].
  destruct (String.eqb k k'); [|assumption]. now intros [= <-].
Qed.

(** What [docs[k]] can be, for a name other than [length]: a document, a
    hole, or a member nobody has written to. *)
Lemma reconciled_arr_get (d : docs) (k : string) :
  reconciled d -> k <> "length" ->
  match arr_get d k with
  | Ref a => (a < length (heap d))%nat
  | Plain v => v = VUndefined
  | Member o => o = None
  end.
Proof.
  intros [He Hn] Hk. unfold arr_get. destruct (array_index d k) as [i|].
  - destruct (elems d !! i) as [c|] eqn:E; [|reflexivity].
    pose proof (Forall_lookup_1 _ _ _ _ He E) as Hc.
    destruct c; simpl in Hc; [assumption|assumption|contradiction].
  - destruct (lookup_cell k (named d)) as [c|] eqn:E.
    + pose proof (lookup_cell_Forall _ _ _ _ Hn E) as Hc.
      destruct c as [v|a|[a|]]; simpl in Hc; try contradiction; assumption.
    + apply String.eqb_neq in Hk. rewrite Hk.
      now destruct (is_array_member k).
Qed.

(** [docs[k] = doc] for a document of the heap: the array keeps its
    shape, and is no longer than it was or than the position after [k]. *)
Lemma reconciled_arr_set (d : docs) (k : string) (a : nat) (bound : Z) :
  reconciled d -> (a < length (heap d))%nat -> k <> "length" ->
  (forall i, index_of_key k = Some i -> Z.of_nat i < bound) ->
  exists d', arr_set d k (Ref a) = Some d'
             /\ reconciled d' /\ heap d' = heap d
             /\ Z.of_nat (length (elems d'))
                <= Z.max (Z.of_nat (length (elems d))) bound.
Proof.
  intros [He Hn] Ha Hk Hb. unfold arr_set, reconciled.
  destruct (array_index d k) as [i|] eqn:Ei.
  - apply array_index_Some in Ei as [Ei _]. specialize (Hb i Ei).
    eexists. split; [reflexivity|]. cbn [heap elems named].
    split; [|split; [reflexivity|]].
    + split; [|assumption].
      destruct (i <? length (elems d))%nat; [now apply Forall_insert|].
      rewrite !Forall_app. split; [assumption|].
      split; [apply Forall_replicate; reflexivity|].
      apply List.Forall_cons; [exact Ha|apply List.Forall_nil].
    + destruct (Nat.ltb_spec i (length (elems d))).
      * rewrite length_insert. lia.
      * rewrite !length_app, length_replicate. cbn [length]. lia.
  - apply String.eqb_neq in Hk. rewrite Hk.
    destruct (lookup_cell k (named d)) as [[v|a'|o]|];
      eexists; (split; [reflexivity|]); cbn [heap elems named];
      (split; [|split; [reflexivity|lia]]); (split; [assumption|]);
      first [ now apply (Forall_set_cell (listed (length (heap d))))
            | apply List.Forall_cons; [exact Ha|assumption] ].
Qed.

Lemma reconciled_arr_delete (d : docs) (k : string) :
  reconciled d -> k <> "length" ->
  exists d', arr_delete d k = Some d' /\ reconciled d' /\ heap d' = heap d
             /\ length (elems d') = length (elems d).
Proof.
  intros [He Hn] Hk. unfold arr_delete, reconciled.
  destruct (array_index d k) as [i|].
  - eexists. split; [reflexivity|]. cbn [heap elems named].
    split; [|split; [reflexivity|apply length_insert]]. split; [|assumption].
    apply Forall_insert; [assumption|reflexivity].
  - apply String.eqb_neq in Hk. rewrite Hk.
    destruct (lookup_cell k (named d)) as [[v|a'|o]|];
      eexists; (split; [reflexivity|]); cbn [heap elems named];
      (split; [|split; reflexivity]);
      first [ now split
            | split; [assumption|];
              now apply (Forall_delete_cell (listed (length (heap d)))) ].
Qed.

Lemma reconciled_splice (d : docs) (start count : Z) (items : list cell) :
  reconciled d -> Forall (tracked (length (heap d))) items ->
  reconciled (splice d start count items).
Proof.
  intros [He Hn] Hi. unfold splice, reconciled. cbn [heap elems named].
  split; [|assumption]. rewrite !Forall_app.
  split; [now apply Forall_take|]. split; [assumption|now apply Forall_drop].
Qed.

Lemma reconciled_grow (d : docs) (o : fields_t) :
  reconciled d -> reconciled (Docs (heap d ++ [o]) (elems d) (named d)).
Proof.
  intros [He Hn]. unfold reconciled. cbn [heap elems named].
  rewrite length_app. cbn [length].
  split.
  - eapply Forall_impl; [exact He|]. intros x H. eapply tracked_mono; [|exact H]. lia.
  - eapply Forall_impl; [exact Hn|]. intros x H. eapply listed_mono; [|exact H]. lia.
Qed.

(** The key of an index is made of digits, with a sign before them
    perhaps: it is not [length]. *)
Lemma pretty_N_go_head (x : N) :
  forall s c r, s = String c r -> c <> "l"%char ->
                exists c' r', pretty.pretty_N_go x s = String c' r' /\ c' <> "l"%char.
Proof.
  induction (N.lt_wf_0 x) as [x _ IH]; intros s c r Hs Hc.
  destruct (N.eq_dec x 0%N) as [->|Hx].
  - rewrite pretty.pretty_N_go_0. eauto.
  - rewrite pretty.pretty_N_go_step by lia.
    eapply IH; [apply N.div_lt; lia|reflexivity|].
    unfold pretty.pretty_N_char. now repeat case_match.
Qed.

Lemma key_of_Z_not_length (i : Z) : key_of_Z i <> "length".
Proof.
  assert (H : forall x : positive,
            exists c r, pretty (N.pos x) = String c r /\ c <> "l"%char).
  { intros x. unfold pretty, pretty.pretty_N.
    destruct (decide (N.pos x = 0%N)) as [|_]; [discriminate|].
    rewrite pretty.pretty_N_go_step by lia.
    eapply pretty_N_go_head; [reflexivity|].
    unfold pretty.pretty_N_char. now repeat case_match. }
  unfold key_of_Z. destruct i as [|x|x].
  - discriminate.
  - destruct (H x) as (c & r & E & Hc).
    change (pretty (Z.pos x)) with (pretty (N.pos x)). rewrite E.
    intros [= -> _]. now apply Hc.
  - change (pretty (Z.neg x)) with ("-" +:+ pretty (N.pos x)). discriminate.
Qed.

(** The key of an index reads back as the index. *)
Lemma digit_of_pretty_N_char (x : N) :
  (x < 10)%N -> digit_of (pretty.pretty_N_char x) = Some (N.to_nat x).
Proof.
  intros H.
  assert (K : (x = 0 \/ x = 1 \/ x = 2 \/ x = 3 \/ x = 4 \/ x = 5 \/ x = 6
               \/ x = 7 \/ x = 8 \/ x = 9)%N) by lia.
  repeat (destruct K as [->|K]; [reflexivity|]). subst x. reflexivity.
Qed.

Lemma digits_pretty_N_go (x : N) :
  forall s acc, exists m,
    digits (pretty.pretty_N_go x s) acc = digits s m
    /\ (acc = 0%nat -> m = N.to_nat x).
Proof.
  induction (N.lt_wf_0 x) as [x _ IH]; intros s acc.
  destruct (N.eq_dec x 0%N) as [->|Hx].
  - rewrite pretty.pretty_N_go_0. exists acc. split; [reflexivity|].
    now intros ->.
  - rewrite pretty.pretty_N_go_step by lia.
    destruct (IH (x / 10)%N ltac:(apply N.div_lt; lia)
                (String (pretty.pretty_N_char (x mod 10)) s) acc)
      as (m' & E & Hm').
    rewrite E. cbn [digits].
    rewrite digit_of_pretty_N_char by (apply N.mod_lt; lia).
    eexists. split; [reflexivity|]. intros Hacc. rewrite (Hm' Hacc).
    pose proof (N.div_mod x 10 ltac:(lia)) as Hdm. lia.
Qed.

Lemma index_of_key_digits (k : string) (n : nat) :
  index_of_key k = Some n -> digits k 0 = Some n.
Proof.
  destruct k as [|c [|c' k']]; cbn [index_of_key]; [discriminate| |].
  - intros H. cbn [digits]. now rewrite H.
  - destruct (Ascii.eqb c "0"); [discriminate|]. auto.
Qed.

Lemma index_of_key_of_Z (i : Z) (n : nat) :
  index_of_key (key_of_Z i) = Some n -> Z.of_nat n = i.
Proof.
  intros H. apply index_of_key_digits in H. unfold key_of_Z in H.
  destruct i as [|x|x].
  - vm_compute in H. now injection H as <-.
  - change (pretty (Z.pos x)) with (pretty (N.pos x)) in H.
    unfold pretty, pretty.pretty_N in H.
    destruct (decide (N.pos x = 0%N)) as [|_]; [discriminate|].
    destruct (digits_pretty_N_go (N.pos x) "" 0) as (m & E & Hm).
    rewrite E in H. cbn [digits] in H. injection H as <-.
    rewrite Hm by reflexivity. lia.
  - change (pretty (Z.neg x)) with (String "-" (pretty (N.pos x))) in H.
    cbn [digits] in H. vm_compute in H. discriminate.
Qed.

(** Half of the maximal length of an array. *)
Definition half_length : Z := 2 ^ 31.

(** A change the handler takes in its stride: its id is not [length] and
    not [__proto__], and the positions it names - its new index and its
    id, when the id is an array index - are below 2^31. *)
Definition ordinary (c : change) : bool :=
  let id := snap_id (ch_doc c) in
  negb (String.eqb id "length") && negb (String.eqb id "__proto__")
  && (ch_newIndex c <? half_length)
  && match index_of_key id with
     | Some i => Z.of_nat i <? half_length
     | None => true
     end.

Lemma ordinary_spec (c : change) :
  ordinary c = true ->
  snap_id (ch_doc c) <> "length"
  /\ ch_newIndex c < half_length
  /\ (forall i, index_of_key (snap_id (ch_doc c)) = Some i ->
                Z.of_nat i < half_length).
Proof.
  unfold ordinary. intros H.
  apply andb_true_iff in H as [H Hi]. apply andb_true_iff in H as [H Hn].
  apply andb_true_iff in H as [Hl _].
  apply negb_true_iff, String.eqb_neq in Hl. apply Z.ltb_lt in Hn.
  split; [assumption|]. split; [assumption|].
  intros i E. rewrite E in Hi. now apply Z.ltb_lt in Hi.
Qed.

(** One ordinary change on an array in shape, with room for one more
    element: the handler's case for it returns, the array stays in
    shape, and it has grown by one element at most, or up to the
    position the change names. *)
Lemma reconciled_change (d : docs) (c : change) :
  reconciled d ->
  ordinary c = true ->
  Z.of_nat (length (elems d)) < max_length ->
  snd (apply_change d c) = Done
  /\ reconciled (fst (apply_change d c))
  /\ Z.of_nat (length (elems (fst (apply_change d c))))
     <= Z.max (Z.of_nat (length (elems d))) half_length + 1.
Proof.
  intros Hd Hc Hroom.
  destruct (ordinary_spec c Hc) as (Hid & Hnew & Hkey).
  assert (Hnewkey : forall i, index_of_key (key_of_Z (ch_newIndex c)) = Some i ->
                              Z.of_nat i < half_length).
  { intros i E. apply index_of_key_of_Z in E. lia. }
  unfold apply_change. destruct (ch_type c).
  - pose proof (reconciled_arr_get d (snap_id (ch_doc c)) Hd Hid) as Hg.
    destruct (arr_get d (snap_id (ch_doc c))) as [v|a|o] eqn:E.
    + subst v. cbn [truthy_cell truthy negb]. unfold alloc.
      set (newDoc := set_field "__index" _ _).
      set (d1 := Docs (heap d ++ [newDoc]) (elems d) (named d)).
      pose proof (splice_length d1 (ch_newIndex c) 0 [Ref (length (heap d))]) as Hlen.
      cbn [length] in Hlen.
      rewrite splice_call_done by (right; subst d1; cbn [elems] in *; lia).
      set (d2 := splice d1 _ _ _) in *.
      assert (Hr2 : reconciled d2).
      { subst d2 d1. apply reconciled_splice; [now apply reconciled_grow|].
        apply List.Forall_cons; [|apply List.Forall_nil].
        cbn [tracked heap]. rewrite length_app. simpl. lia. }
      assert (Hh2 : (length (heap d) < length (heap d2))%nat).
      { subst d2 d1. unfold splice. cbn [heap]. rewrite length_app. simpl. lia. }
      destruct (reconciled_arr_set d2 (snap_id (ch_doc c)) (length (heap d))
                  half_length Hr2 Hh2 Hid Hkey)
        as (d3 & -> & Hr3 & _ & Hl3).
      cbn [assigned fst snd]. split; [reflexivity|]. split; [assumption|].
      subst d1. cbn [elems] in Hlen. lia.
    + cbn [truthy_cell negb].
      set (h' := match heap d !! a with Some o => _ | None => _ end).
      assert (Hlen : length h' = length (heap d))
        by (subst h'; destruct (heap d !! a); [apply length_insert|reflexivity]).
      assert (Hr1 : reconciled (Docs h' (elems d) (named d))).
      { unfold reconciled. cbn [heap elems named]. rewrite Hlen. exact Hd. }
      destruct (reconciled_arr_set (Docs h' (elems d) (named d))
                  (key_of_Z (ch_newIndex c)) a half_length Hr1)
        as (d3 & -> & Hr3 & _ & Hl3);
        [cbn [heap]; lia|apply key_of_Z_not_length|assumption|].
      cbn [assigned fst snd]. split; [reflexivity|]. split; [assumption|].
      cbn [elems] in Hl3. lia.
    + subst o. cbn [truthy_cell negb]. unfold alloc.
      set (d2 := Docs _ _ _).
      assert (Hr2 : reconciled d2).
      { subst d2. destruct (reconciled_grow d [("__index", VNum (ch_newIndex c))] Hd)
          as [He Hn].
        split; cbn [heap elems named] in *; [assumption|].
        rewrite Forall_app. split; [assumption|].
        apply List.Forall_cons; [|apply List.Forall_nil].
        cbn [snd listed]. rewrite length_app. simpl. lia. }
      destruct (reconciled_arr_set d2 (key_of_Z (ch_newIndex c)) (length (heap d))
                  half_length Hr2)
        as (d3 & -> & Hr3 & _ & Hl3);
        [subst d2; cbn [heap]; rewrite length_app; simpl; lia
        |apply key_of_Z_not_length|assumption|].
      cbn [assigned fst snd]. split; [reflexivity|]. split; [assumption|].
      subst d2. cbn [elems] in Hl3. lia.
  - unfold alloc.
    set (d1 := Docs (heap d ++ [makeDocumentData (ch_doc c)]) (elems d) (named d)).
    pose proof (splice_length d1 (ch_newIndex c) 1 [Ref (length (heap d))]) as Hlen.
    cbn [length] in Hlen.
    rewrite splice_call_done by (right; subst d1; cbn [elems] in *; lia).
    cbn [fst snd]. split; [reflexivity|]. split.
    + subst d1. apply reconciled_splice; [now apply reconciled_grow|].
      apply List.Forall_cons; [|apply List.Forall_nil].
      cbn [tracked heap]. rewrite length_app. simpl. lia.
    + subst d1. cbn [elems] in Hlen. lia.
  - rewrite splice_call_removes.
    pose proof (splice_length d (ch_oldIndex c) 1 []) as Hlen. cbn [length] in Hlen.
    destruct (reconciled_arr_delete (splice d (ch_oldIndex c) 1 [])
                (snap_id (ch_doc c)))
      as (d2 & -> & Hr2 & _ & Hl2);
      [apply reconciled_splice; [assumption|apply List.Forall_nil]|assumption|].
    cbn [fst snd]. split; [reflexivity|]. split; [assumption|]. lia.
Qed.

(** Ordinary changes, on an array with room for as many elements as
    there are changes. *)
Lemma reconciled_changes (cs : list change) :
  forall d : docs,
    reconciled d ->
    forallb ordinary cs = true ->
    Z.max (Z.of_nat (length (elems d))) half_length + Z.of_nat (length cs)
    <= max_length ->
    snd (apply_changes d cs) = Done
    /\ reconciled (fst (apply_changes d cs))
    /\ Z.max (Z.of_nat (length (elems (fst (apply_changes d cs))))) half_length
       <= Z.max (Z.of_nat (length (elems d))) half_length + Z.of_nat (length cs).
Proof.
  induction cs as [|c cs IH]; intros d Hd Hcs Hroom.
  - cbn [apply_changes fst snd length]. split; [reflexivity|]. split; [assumption|lia].
  - cbn [apply_changes]. cbn [forallb] in Hcs.
    apply andb_true_iff in Hcs as [Hc Hcs].
    cbn [length] in Hroom.
    destruct (reconciled_change d c Hd Hc) as (Ho & Hr & Hl); [lia|].
    destruct (apply_change d c) as [d' o]. cbn [fst snd] in Ho, Hr, Hl. subst o.
    destruct (IH d' Hr Hcs) as (Ho' & Hr' & Hl'); [lia|].
    split; [assumption|]. split; [assumption|]. cbn [length]. lia.
Qed.

Lemma reconciled_empty : reconciled empty_docs.
Proof. split; constructor. Qed.

(** One query snapshot, handled: the handler returns, the closure is the
    one [_resolve(docs)] leaves, nothing is logged and no hook is called,
    and the array keeps its shape. *)
Lemma deliver_query_step (b : binding) (w : world) (cs : list change) :
  ref_type (b_ref b) <> "document" ->
  reconciled (p_docs (inst w)) ->
  forallb ordinary cs = true ->
  Z.max (Z.of_nat (length (elems (p_docs (inst w))))) half_length
  + Z.of_nat (length cs) <= max_length ->
  exists w',
    deliver (b, w) (Next (QuerySnap cs)) = (_resolve RDocs b, w', Done)
    /\ trace w' = trace w
    /\ unsubs w' = unsubs w
    /\ reconciled (p_docs (inst w'))
    /\ Z.max (Z.of_nat (length (elems (p_docs (inst w'))))) half_length
       <= Z.max (Z.of_nat (length (elems (p_docs (inst w))))) half_length
          + Z.of_nat (length cs).
Proof.
  intros Hr Hd Hcs Hroom. unfold deliver, handleCollectionSnapshotUpdate.
  apply String.eqb_neq in Hr. rewrite Hr.
  destruct (alias_docs_docs (inst w) (b_field b)) as [Ha _]. rewrite Ha.
  destruct (reconciled_changes cs _ Hd Hcs Hroom) as (Ho & Hc & Hl).
  destruct (apply_changes (p_docs (inst w)) cs) as [d' o].
  cbn [fst snd] in Ho, Hc, Hl. subst o.
  eexists. split; [reflexivity|]. split; [reflexivity|]. split; [reflexivity|].
  split; [exact Hc|exact Hl].
Qed.

Lemma resolve_fields (r : result) (b : binding) :
  b_ref (_resolve r b) = b_ref b
  /\ isInitialised (_resolve r b) = true
  /\ (promise b = Pending -> isInitialised b = false ->
      promise (_resolve r b) = Resolved r /\ settles (_resolve r b) = S (settles b)).
Proof.
  unfold _resolve, settle. destruct (isInitialised b) eqn:E; cbn [negb].
  - split; [reflexivity|]. split; [assumption|]. discriminate.
  - cbn [b_ref isInitialised promise settles].
    split; [reflexivity|]. split; [reflexivity|]. intros -> _. now split.
Qed.

Lemma deliver_all_queries (css : list (list change)) :
  forall (b : binding) (w : world),
    ref_type (b_ref b) <> "document" ->
    reconciled (p_docs (inst w)) ->
    forallb (forallb ordinary) css = true ->
    Z.max (Z.of_nat (length (elems (p_docs (inst w))))) half_length
    + Z.of_nat (length (concat css)) <= max_length ->
    isInitialised b = true ->
    let bw := deliver_all (b, w) (List.map (fun cs => Next (QuerySnap cs)) css) in
    fst bw = b
    /\ trace (snd bw) = trace w
    /\ unsubs (snd bw) = unsubs w
    /\ reconciled (p_docs (inst (snd bw))).
Proof.
  induction css as [|cs css IH]; intros b w Hr Hd Hcss Hroom Hi;
    [split; [reflexivity|]; split; [reflexivity|]; split; [reflexivity|exact Hd]|].
  cbn [List.map]. rewrite deliver_all_cons.
  cbn [forallb] in Hcss. apply andb_true_iff in Hcss as [Hcs Hcss].
  cbn [concat] in Hroom. rewrite length_app in Hroom.
  destruct (deliver_query_step b w cs Hr Hd Hcs) as (w' & -> & Ht & Hu & Hd' & Hl);
    [lia|].
  cbn [fst]. unfold _resolve. rewrite Hi. cbn [negb].
  destruct (IH b w' Hr Hd' Hcss) as (H1 & H2 & H3 & H4); [lia|assumption|].
  split; [assumption|]. split; [congruence|]. split; [congruence|assumption].
Qed.

(** A bind on a query, from an array in the shape the handler keeps (an
    empty one, say) and of no more than 2^31 elements, with fewer than
    2^31 changes in all, none of which carries the id [length] or
    [__proto__] or names a position from 2^31 on: whatever else the lists
    of changes hold - ids that repeat, ids that are array indices or
    names of array methods, indices past the end or negative, removals of
    documents that were never added - no handler throws; the promise is
    resolved by the first snapshot with the store's array, [resolve] is
    called once, nothing is logged, the [beforeUpdate] and [afterUpdate]
    options are not called (the query handler never reads them), and the
    registry keeps the entry that [bind] stored. *)
Theorem query_bind_always_resolves
    (field : string) (r : reference) (before after : option hook) (w : world)
    (cs : list change) (css : list (list change)) :
  ref_type r <> "document" ->
  reconciled (p_docs (inst w)) ->
  Z.of_nat (length (elems (p_docs (inst w)))) <= half_length ->
  forallb (forallb ordinary) (cs :: css) = true ->
  Z.of_nat (length (concat (cs :: css))) < half_length ->
  let bw := deliver_all (bind field r before after w)
              (List.map (fun cs => Next (QuerySnap cs)) (cs :: css)) in
  promise (fst bw) = Resolved RDocs
  /\ settles (fst bw) = 1%nat
  /\ trace (snd bw) = trace w
  /\ unsubs (snd bw) = unsubs (snd (bind field r before after w))
  /\ reconciled (p_docs (inst (snd bw))).
Proof.
  intros Hr Hd Hlen Hall Hcount bw. subst bw.
  cbn [forallb] in Hall. apply andb_true_iff in Hall as [Hcs Hcss].
  cbn [concat] in Hcount. rewrite length_app in Hcount.
  assert (Hmax : max_length = half_length + half_length - 1) by reflexivity.
  rewrite (surjective_pairing (bind field r before after w)).
  change (fst (bind field r before after w))
    with (Binding field r before after false Pending 0).
  set (b0 := Binding field r before after false Pending 0).
  set (w0 := snd (bind field r before after w)).
  assert (Hd0 : reconciled (p_docs (inst w0))) by exact Hd.
  assert (Hl0 : Z.of_nat (length (elems (p_docs (inst w0)))) <= half_length)
    by exact Hlen.
  assert (Ht0 : trace w0 = trace w) by reflexivity.
  cbn [List.map]. rewrite deliver_all_cons.
  destruct (deliver_query_step b0 w0 cs Hr Hd0 Hcs)
    as (w' & -> & Ht & Hu & Hd' & Hl'); [lia|].
  cbn [fst].
  destruct (resolve_fields RDocs b0) as (Hb & Hi & Hp).
  destruct (Hp eq_refl eq_refl) as [Hp1 Hp2].
  destruct (deliver_all_queries css (_resolve RDocs b0) w') as (H1 & H2 & H3 & H4);
    [now rewrite Hb|assumption|assumption|lia|assumption|].
  rewrite H1. split; [assumption|]. split; [assumption|].
  split; [congruence|]. split; [|assumption].
  rewrite H3, Hu. reflexivity.
Qed.

Lemma query_bind_always_resolves_witness :
  let a := Scenario.snapshotOf "a" (VObj [("title", VStr "A")]) in
  let m := Scenario.snapshotOf "map" (VObj [("title", VStr "M")]) in
  let bw := deliver_all (bind "collection" Scenario.queryRef None None Scenario.emptyWorld)
              (List.map (fun cs => Next (QuerySnap cs))
                 [[removed a 3; added a 7; added m 0; added a 0]; [modified a 5 2]]) in
  promise (fst bw) = Resolved RDocs
  /\ settles (fst bw) = 1%nat
  /\ trace (snd bw) = trace Scenario.emptyWorld
  /\ unsubs (snd bw)
     = unsubs (snd (bind "collection" Scenario.queryRef None None Scenario.emptyWorld))
  /\ reconciled (p_docs (inst (snd bw))).
Proof.
  intros a m.
  apply (query_bind_always_resolves "collection" Scenario.queryRef None None
           Scenario.emptyWorld [removed a 3; added a 7; added m 0; added a 0]
           [[modified a 5 2]]).
  - discriminate.
  - exact reconciled_empty.
  - vm_compute. discriminate.
  - reflexivity.
  - reflexivity.
Defined.

(** With the id [length] the first snapshot does not resolve the promise:
    the handler throws on [docs[id] = newDoc], before [_resolve]. *)
Example query_bind_length_id_throws :
  let s := Scenario.snapshotOf "length" (VObj [("title", VStr "A")]) in
  let first := deliver (bind "collection" Scenario.queryRef None None Scenario.emptyWorld)
                       (Next (QuerySnap [added s 0])) in
  snd first = Threw "RangeError: Invalid array length"
  /\ promise (fst (fst first)) = Pending.
Proof. split; reflexivity. Qed.

(** ** Merging a document snapshot into the state *)

(** A document snapshot is merged into the state, not put in its place:
    after the handler, every field of the materialized document is in
    [state[field]] with its new value, and every other field that was
    there is still there with its old value - a field that was deleted
    from the remote document included. *)
Theorem doc_snapshot_keeps_absent_fields
    (b b' : binding) (w w' : world) (s : snapshot) (old : fields_t) :
  snap_exists s = true ->
  state_field (inst w) (b_field b) = Some (Val (VObj old)) ->
  deliver (b, w) (Next (DocSnap s)) = (b', w', Done) ->
  exists new,
    state_field (inst w') (b_field b) = Some (Val (VObj new))
    /\ forall k,
         lookup_field k new =
         match lookup_field k (makeDocumentData s) with
         | Some v => Some v
         | None => lookup_field k old
         end.
Proof.
  intros Hs Hold Hrun.
  pose proof (deliver_doc_snapshot b b' w w' s Hs Hrun) as Hp.
  unfold patch_doc in Hp. rewrite Hold in Hp. cbn [assign_value] in Hp.
  injection Hp as Hp.
  exists (assign_fields old (makeDocumentData s)). split.
  - rewrite <- Hp. unfold state_field in *. cbn [p_state].
    destruct (String.eqb (b_field b) "collection"); [discriminate|].
    apply lookup_set_slot.
  - intros k. rewrite lookup_assign_fields.
    now rewrite lookup_field_rev by apply makeDocumentData_NoDup.
Qed.

Lemma doc_snapshot_keeps_absent_fields_witness :
  let b := fst (bind "doc" Scenario.docRef None None Scenario.emptyWorld) in
  let w := snd (bind "doc" Scenario.docRef None None Scenario.emptyWorld) in
  let s := Scenario.snapshotOf "doc1" (VObj [("title", VStr "New Title")]) in
  exists new,
    state_field (inst (snd (fst (deliver (b, w) (Next (DocSnap s)))))) (b_field b)
    = Some (Val (VObj new))
    /\ forall k,
         lookup_field k new =
         match lookup_field k (makeDocumentData s) with
         | Some v => Some v
         | None => lookup_field k Scenario.testFields
         end.
Proof.
  intros b w s.
  apply (doc_snapshot_keeps_absent_fields b
           (fst (fst (deliver (b, w) (Next (DocSnap s))))) w
           (snd (fst (deliver (b, w) (Next (DocSnap s))))) s Scenario.testFields).
  - reflexivity.
  - reflexivity.
  - vm_compute. reflexivity.
Defined.

End ReconcileFacts.

(* ===================================================================== *)
(** * One-time initialization: what never happens                         *)
(* ===================================================================== *)

Module GuardFacts.
Import Lifecycle.

Lemma run_cons (initialize : option (store -> init_result)) (m : machine)
    (e : step) (es : list step) :
  run initialize m (e :: es) = run initialize (run_step initialize m e) es.
Proof. reflexivity. Qed.

(** A store with no database handle, untouched. *)
Definition untouched (m : machine) : Prop :=
  cur m = initial_state false /\ calls m = 0%nat
  /\ pending m = 0%nat /\ completed m = 0%nat.

Lemma untouched_step (initialize : option (store -> init_result)) (m : machine)
    (e : step) :
  untouched m -> untouched (run_step initialize m e).
Proof.
  intros (Hc & Hn & Hp & Hd). destruct e; simpl.
  - unfold access. now rewrite Hc.
  - now rewrite Hp.
  - now rewrite Hp.
  - unfold reset, untouched. simpl. now rewrite Hc.
Qed.

(** Without a database handle (the plugin was not installed) the guard
    returns before it looks at the lifecycle: whatever happens to the
    store, the initializer is never called and the store never leaves
    UNINITIALIZED. *)
Theorem without_db_never_initializes
    (initialize : option (store -> init_result)) (es : list step) :
  let m := run initialize (start false) es in
  cur m = initial_state false /\ calls m = 0%nat /\ completed m = 0%nat.
Proof.
  intros m.
  assert (H : untouched m).
  { subst m. generalize (start false), (ltac:(now repeat split) : untouched (start false)).
    induction es as [|e es IH]; intros m0 H0; [exact H0|].
    rewrite run_cons. apply IH. now apply untouched_step. }
  destruct H as (Hc & Hn & _ & Hd). auto.
Qed.

(** The store after an initializer that did not complete. *)
Definition stuck (m : machine) : Prop :=
  _db (cur m) = true
  /\ _initializedState (cur m) = INITITALIZING
  /\ isInitialized (cur m) = false
  /\ calls m = 1%nat
  /\ completed m = 0%nat.

Definition access_or_failure (e : step) : bool :=
  match e with Access | Failed => true | _ => false end.

Lemma stuck_step (initialize : option (store -> init_result)) (m : machine)
    (e : step) :
  access_or_failure e = true -> stuck m -> stuck (run_step initialize m e).
Proof.
  intros He (Hdb & Hs & Hi & Hc & Hd). destruct e; try discriminate; simpl.
  - unfold access. now rewrite Hdb, Hi, Hs.
  - destruct (pending m); [now repeat split|]. now repeat split.
Qed.

(** An initializer that throws, or whose promise is rejected, leaves the
    store INITIALIZING: the guard has no handler for either, so later
    accesses neither call the initializer again nor mark the store
    initialized. *)
Theorem failed_initializer_is_not_retried
    (init : store -> init_result) (es : list step) :
  (forall s, init s <> Value) ->
  forallb access_or_failure es = true ->
  let m := run (Some init) (start true) (Access :: es) in
  _initializedState (cur m) = INITITALIZING
  /\ isInitialized (cur m) = false
  /\ calls m = 1%nat
  /\ completed m = 0%nat.
Proof.
  intros Hinit Hes m.
  assert (H : stuck m).
  { subst m. rewrite run_cons.
    assert (H0 : stuck (run_step (Some init) (start true) Access)).
    { simpl. unfold access. simpl.
      specialize (Hinit (MkStore true INITITALIZING false)).
      destruct (init _); [congruence| |]; now repeat split. }
    revert H0. generalize (run_step (Some init) (start true) Access).
    induction es as [|e es IH]; intros m0 H0; [exact H0|].
    simpl in Hes. apply andb_true_iff in Hes as [He Hes].
    rewrite run_cons. apply IH; [assumption|]. now apply stuck_step. }
  destruct H as (_ & Hs & Hi & Hc & Hd). auto.
Qed.

Lemma failed_initializer_is_not_retried_witness :
  let m := run (Some (fun _ => Raises)) (start true) [Access; Access; Failed; Access] in
  _initializedState (cur m) = INITITALIZING
  /\ isInitialized (cur m) = false
  /\ calls m = 1%nat
  /\ completed m = 0%nat.
Proof.
  apply (failed_initializer_is_not_retried (fun _ => Raises) [Access; Failed; Access]).
  - discriminate.
  - reflexivity.
Defined.

End GuardFacts.

(* ===================================================================== *)
(** * The proxy: writing a property and reading it back                   *)
(* ===================================================================== *)

Module ProxyRoundTrip.
Import Js Proxy JsFacts.

Lemma has_own (o : value) (prop : string) (x : value) :
  own_prop o prop = Some x -> has o prop = true.
Proof.
  intros H. unfold has, castPath. rewrite H.
  destruct (has_dot prop); simpl; now rewrite H.
Qed.

(** Through the proxy of the setup store, what is written under a name is
    what is read under it afterwards, whether the name belongs to the
    document or to the store. *)
Theorem proxy_setup_set_then_get
    (s : store) (fs : fields_t) (prop : string) (v : value) :
  doc s = VObj fs ->
  prop <> "doc" ->
  exists s',
    proxy_set_setup s prop v = Some s' /\ proxy_get_setup s' prop = Some v.
Proof.
  intros Hd Hp. apply String.eqb_neq in Hp.
  unfold proxy_set_setup, proxy_get_setup.
  destruct (has (doc s) prop) eqn:Hh.
  - unfold doc_set. rewrite Hd. eexists. split; [reflexivity|].
    cbn [doc write_prop].
    rewrite (has_own _ prop v) by apply lookup_set_field_eq.
    unfold doc_member, read_prop. cbn [doc own_prop].
    now rewrite lookup_set_field_eq.
  - eexists. split; [reflexivity|].
    unfold store_set. rewrite Hp. cbn [doc]. rewrite Hh.
    unfold reflect_get. rewrite Hp. cbn [props].
    now rewrite lookup_set_field_eq.
Qed.

Lemma proxy_setup_set_then_get_witness :
  exists s',
    proxy_set_setup (MkStore (VObj [("title", VStr "t")]) []) "title" (VStr "") = Some s'
    /\ proxy_get_setup s' "title" = Some (VStr "").
Proof.
  apply (proxy_setup_set_then_get (MkStore (VObj [("title", VStr "t")]) [])
           [("title", VStr "t")] "title" (VStr "")).
  - reflexivity.
  - discriminate.
Defined.

(** Through the proxy of the options store the same holds only for a
    truthy value, or for a name the document does not hold a defined
    value for.  A falsy value written to a property of the document is
    stored in the document, and the next read skips it: it returns the
    store's own property of that name, as before the write. *)
Theorem proxy_set_then_get
    (s : store) (fs : fields_t) (prop : string) (v : value) :
  doc s = VObj fs ->
  prop <> "doc" ->
  exists s',
    proxy_set s prop v = Some s'
    /\ proxy_get s' prop
       = Some (if truthy v || is_undefined (read_prop (doc s) prop) then v
               else reflect_get s prop).
Proof.
  intros Hd Hp. apply String.eqb_neq in Hp.
  unfold proxy_set, proxy_get, doc_member. rewrite Hd.
  destruct (is_undefined (read_prop (VObj fs) prop)) eqn:Hu; cbn [negb].
  - eexists. split; [reflexivity|].
    unfold store_set. rewrite Hp. cbn [doc]. rewrite Hd.
    destruct (read_prop (VObj fs) prop); try discriminate.
    cbn [truthy]. unfold reflect_get. rewrite Hp. cbn [props].
    now rewrite lookup_set_field_eq, orb_true_r.
  - unfold doc_set. rewrite Hd. eexists. split; [reflexivity|].
    cbn [doc write_prop].
    assert (Hr : read_prop (VObj (set_field prop v fs)) prop = v)
      by (unfold read_prop; cbn [own_prop]; now rewrite lookup_set_field_eq).
    rewrite Hr, orb_false_r.
    destruct (truthy v); [reflexivity|].
    unfold reflect_get. now rewrite Hp.
Qed.

Lemma proxy_set_then_get_witness :
  exists s',
    proxy_set (MkStore (VObj [("testValue", VNum 50)]) []) "testValue" (VNum 0) = Some s'
    /\ proxy_get s' "testValue"
       = Some (if truthy (VNum 0)
                  || is_undefined
                       (read_prop (doc (MkStore (VObj [("testValue", VNum 50)]) []))
                                  "testValue")
               then VNum 0
               else reflect_get (MkStore (VObj [("testValue", VNum 50)]) []) "testValue").
Proof.
  apply (proxy_set_then_get (MkStore (VObj [("testValue", VNum 50)]) [])
           [("testValue", VNum 50)] "testValue" (VNum 0)).
  - reflexivity.
  - discriminate.
Defined.

(** With the document holding [testValue: 50]: writing 0 through the
    proxy stores it in the document, and the next read gives
    [undefined]. *)
Example proxy_zero_is_not_read_back :
  let s := MkStore (VObj [("testValue", VNum 50)]) [] in
  proxy_set s "testValue" (VNum 0) = Some (MkStore (VObj [("testValue", VNum 0)]) [])
  /\ proxy_get (MkStore (VObj [("testValue", VNum 0)]) []) "testValue" = Some VUndefined.
Proof. split; reflexivity. Qed.

End ProxyRoundTrip.

(* ===================================================================== *)
(** * The actions of the store: successful writes, retries, array helpers *)
(* ===================================================================== *)

Module ActionFacts.
Import Js Store JsFacts StoreFacts.

(** ** Paths, once more *)

Lemma own_write_prop_eq (o : value) (k : string) (x y : value) :
  own_prop o k = Some y -> own_prop (write_prop o k x) k = Some x.
Proof.
  destruct o; simpl; try discriminate.
  - destruct (index_of_key k) as [i|] eqn:E; [|discriminate].
    intros _. simpl. now rewrite E, set_index_lookup.
  - intros _. apply lookup_set_field_eq.
Qed.

Lemma hasPath_baseSet (ks : list string) :
  forall (o x : value), hasPath o ks = true -> hasPath (baseSet o ks x) ks = true.
Proof.
  induction ks as [|k ks IH]; intros o x H; [discriminate|].
  destruct ks as [|k' r].
  - simpl in H. destruct (own_prop o k) as [y|] eqn:E; [|discriminate].
    rewrite baseSet_one. simpl. now rewrite (own_write_prop_eq o k x y E).
  - change (hasPath o (k :: k' :: r)) with
      (match own_prop o k with Some v' => hasPath v' (k' :: r) | None => false end) in H.
    destruct (own_prop o k) as [c|] eqn:E; [|discriminate].
    assert (Hc : isObject c = true) by (eapply hasPath_isObject; eauto).
    rewrite baseSet_cons. unfold read_prop at 1 2. rewrite E, Hc.
    change (hasPath ?a (k :: k' :: r)) with
      (match own_prop a k with Some v' => hasPath v' (k' :: r) | None => false end).
    rewrite (own_write_prop_eq o k _ c E). now apply IH.
Qed.

(** A path the object has is still there once [set] has written to it. *)
Lemma has_set (o : value) (p : string) (x : value) :
  has o p = true -> has (set o p x) p = true.
Proof.
  unfold has, set. intros H.
  assert (Ho : isObject o = true) by (eapply hasPath_isObject; eauto).
  rewrite Ho, castPath_baseSet by assumption.
  now apply hasPath_baseSet.
Qed.

Lemma append_cons (a : string) (c : ascii) (s : string) :
  (a +:+ String c "") +:+ s = a +:+ String c s.
Proof.
  induction a as [|d a IH]; [reflexivity|].
  change (String d ((a +:+ String c "") +:+ s) = String d (a +:+ String c s)).
  now rewrite IH.
Qed.

Lemma append_nil_r (a : string) : a +:+ "" = a.
Proof.
  induction a as [|d a IH]; [reflexivity|].
  change (String d (a +:+ "") = String d a). now rewrite IH.
Qed.

Lemma split_dots_plain (s : string) :
  forall cur, has_dot s = false -> split_dots s cur = [cur +:+ s].
Proof.
  induction s as [|c s IH]; intros cur H; simpl in *.
  - now rewrite append_nil_r.
  - apply orb_false_iff in H as [Hc Hs]. rewrite Hc, IH by assumption.
    now rewrite append_cons.
Qed.

(** [set] at a path leaves alone a plain property that is not the root
    of the path. *)
Lemma read_prop_set_other (o : value) (p k : string) (x : value) :
  has_dot k = false -> index_of_key k = None -> root p <> k ->
  read_prop (set o p x) k = read_prop o k.
Proof.
  intros Hk Hi Hr. unfold set. destruct (isObject o) eqn:Ho; [|reflexivity].
  assert (Hw : forall k0 rest, k0 <> k ->
                 read_prop (baseSet o (k0 :: rest) x) k = read_prop o k).
  { intros k0 rest Hne. destruct (baseSet_root o k0 rest x) as [y ->].
    unfold read_prop. now rewrite own_write_prop_ne. }
  unfold castPath. destruct (has_dot p) eqn:Hd.
  - destruct (own_prop o p).
    + apply Hw. intros ->. congruence.
    + unfold root in Hr.
      destruct (split_dots_head p "" eq_refl) as (k0 & rest & Hs & _).
      rewrite Hs in *. now apply Hw.
  - apply Hw. unfold root in Hr. now rewrite split_dots_plain in Hr.
Qed.

Lemma all2_length (eq : value -> value -> bool) (xs : list value) :
  forall ys, all2 eq xs ys = true -> length xs = length ys.
Proof.
  induction xs as [|x xs IH]; intros [|y ys] H; simpl in *; try discriminate;
    [reflexivity|].
  apply andb_true_iff in H as [_ H]. f_equal. now apply IH.
Qed.

(** Arrays of different lengths are not equal. *)
Lemma isEqual_length (xs ys : list value) :
  length xs <> length ys -> isEqual (VArr xs) (VArr ys) = false.
Proof.
  intros H. destruct (isEqual (VArr xs) (VArr ys)) eqn:E; [|reflexivity].
  apply all2_length in E. contradiction.
Qed.

(** ** Handlers that return *)

(** What the handler [name] returns on [args]; a handler that is switched
    off or missing returns [undefined]; [None] when it throws. *)
Definition handler_result (cfg : config) (s : store) (name : string)
    (args : list value) : option value :=
  match handler_for cfg s name with
  | None => Some VUndefined
  | Some h => match h args with Returns v => Some v | Throws _ => None end
  end.

(** The call that [_runHandler] records. *)
Definition handler_call (cfg : config) (s : store) (name : string)
    (args : list value) : list event :=
  match handler_for cfg s name with
  | None => []
  | Some _ => [Called name args]
  end.










Section WithConfig.
Context (cfg : config).

Lemma runHandler_returns (name : string) (args : list value) (w : world) (v : value) :
  handler_result cfg (st w) name args = Some v ->
  _runHandler cfg name args w = (logged w (handler_call cfg (st w) name args), inl v).
Proof.
  unfold handler_result, handler_call. rewrite runHandler_spec.
  destruct (handler_for cfg (st w) name) as [h|].
  - destruct (h args); [|discriminate]. now intros [= ->].
  - intros [= <-]. unfold logged. rewrite app_nil_r. now destruct w.
Qed.




Lemma validate_run (path : string) (cloned : value) (w : world) :
  (forall sch, docSchema cfg = Some sch -> validateSyncAt sch path cloned = None) ->
  validate cfg path cloned w = (w, inl tt).
Proof.
  intros H. unfold validate. destruct (docSchema cfg) as [sch|]; [|reflexivity].
  now rewrite (H sch eq_refl).
Qed.

(** [_update] up to the write, when the value differs and validation
    passes: what is left is the success handler and the sync, inside the
    [try]. *)
Lemma update_run
    (object : target) (path : string) (v : value) (shouldSync : bool) (w : world) :
  has (object_of object (st w)) path = true ->
  isEqual (get (doc (st w)) path) v = false ->
  (forall sch, docSchema cfg = Some sch ->
     validateSyncAt sch path (set (cloneDeep (object_of object (st w))) path v) = None) ->
  _update cfg object path v shouldSync w =
  try_catch
    (do _onValidationSuccess cfg path then
     do (if shouldSync then sync cfg (KString path) else ret VUndefined) then
     ret true)
    (fun message =>
       do logger_error message then
       do _onValidationError cfg path message then
       ret false)
    (written object path v w).
Proof.
  intros Hhas Hne Hval.
  unfold _update, read_target, get_.
  unfold bindM at 1 2. unfold this at 1. simpl.
  rewrite Hhas. simpl. unfold bindM at 1 2. unfold this at 1. simpl.
  rewrite Hne. simpl.
  unfold try_catch. unfold bindM at 1. rewrite (validate_run _ _ w Hval).
  unfold bindM at 1. rewrite (written_run object path v w). reflexivity.
Qed.

Lemma written_frame (object : target) (path : string) (v : value) (w : world) :
  _collectionPath (st (written object path v w)) = _collectionPath (st w)
  /\ remote (written object path v w) = remote w
  /\ trace (written object path v w) = trace w.
Proof. unfold written. now destruct object. Qed.

Lemma written_handler_result
    (object : target) (path : string) (v : value) (w : world)
    (name : string) (args : list value) :
  handler_result cfg (st (written object path v w)) name args
  = handler_result cfg (st w) name args
  /\ handler_call cfg (st (written object path v w)) name args
     = handler_call cfg (st w) name args.
Proof.
  unfold handler_result, handler_call.
  destruct (written_handlers cfg object path v w name) as [-> _]. now split.
Qed.

Lemma onValidationSuccess_run (path : string) (w : world) (r : value) :
  handler_result cfg (st w) "onValidationSuccess" [VStr (sid (st w)); VStr path] = Some r ->
  _onValidationSuccess cfg path w
  = (logged w (handler_call cfg (st w) "onValidationSuccess"
                 [VStr (sid (st w)); VStr path]), inl r).
Proof.
  intros H. unfold _onValidationSuccess.
  rewrite (run_bind _ _ w w (st w)) by reflexivity.
  now apply runHandler_returns.
Qed.

(** A write that passes validation, without a sync: the call is fulfilled
    with [true], the object holds the new value at the path, the
    validation-success handler - if there is one - has been called once
    with (store id, path), nothing is logged and nothing is sent to the
    remote documents. *)
Theorem update_without_sync_succeeds
    (object : target) (path : string) (v : value) (w : world) (r : value) :
  has (object_of object (st w)) path = true ->
  isEqual (get (doc (st w)) path) v = false ->
  (forall sch, docSchema cfg = Some sch ->
     validateSyncAt sch path (set (cloneDeep (object_of object (st w))) path v) = None) ->
  handler_result cfg (st w) "onValidationSuccess" [VStr (sid (st w)); VStr path]
    = Some r ->
  exists w',
    _update cfg object path v false w = (w', inl true)
    /\ object_of object (st w') = set (object_of object (st w)) path v
    /\ get (object_of object (st w')) path = v
    /\ remote w' = remote w
    /\ trace w' = trace w ++
         handler_call cfg (st w) "onValidationSuccess" [VStr (sid (st w)); VStr path].
Proof.
  intros Hhas Hne Hval Hr.
  destruct (written_handlers cfg object path v w "onValidationSuccess") as [_ Hsid].
  destruct (written_handler_result object path v w "onValidationSuccess"
              [VStr (sid (st w)); VStr path]) as [Hres Hcall].
  destruct (written_frame object path v w) as (_ & Hrem & Htr).
  rewrite update_run by assumption.
  unfold try_catch.
  rewrite (run_bind _ _ _ _ _
             (onValidationSuccess_run path (written object path v w) r
                ltac:(now rewrite Hsid, Hres))).
  rewrite Hsid, Hcall.
  eexists. split; [reflexivity|].
  unfold logged. cbn [st remote trace].
  split; [now apply written_object|].
  split; [rewrite written_object by assumption; now apply get_set|].
  split; [exact Hrem|]. now rewrite Htr.
Qed.

(** After an [$update] that got as far as the write - whether it then
    returned [true], or [false] because a handler or the sync threw - the
    document holds the value, so the same [$update] again finds nothing
    changed: it returns [false] and neither calls a handler nor syncs.  A
    sync that failed is not made up for by calling [$update] again. *)
Theorem update_again_returns_false
    (path : string) (v : value) (s1 s2 : bool) (w : world) :
  has (doc (st w)) path = true ->
  isEqual (get (doc (st w)) path) v = false ->
  (forall sch, docSchema cfg = Some sch ->
     validateSyncAt sch path (set (cloneDeep (doc (st w))) path v) = None) ->
  let once := fst (update cfg path v s1 w) in
  get (doc (st once)) path = v
  /\ update cfg path v s2 once = (once, inl false).
Proof.
  intros Hhas Hne Hval once.
  assert (Hst : doc (st once) = set (doc (st w)) path v).
  { subst once. unfold update.
    rewrite (update_writes cfg TheDoc path v s1 w Hhas Hne Hval).
    exact (written_object TheDoc path v w Hhas). }
  split; [rewrite Hst; now apply get_set|].
  apply update_same_value_is_noop.
  - cbn [object_of]. rewrite Hst. now apply has_set.
  - rewrite Hst, get_set by assumption. apply isEqual_refl.
Qed.

(** ** Remote writes *)

(** What [_updateDoc] does with an id and a handler that returns. *)
Definition sent (w : world) (ref : string) (patch : fields_t) (called : list event)
  : world :=
  match remote w !! ref with
  | Some stored =>
      World (st w) (<[ref := apply_patch stored patch]> (remote w))
            (trace w ++ called ++ [UpdateDoc ref patch])
  | None =>
      World (st w) (remote w)
            (trace w ++ called ++
             [UpdateDoc ref patch; Log "error" "FirebaseError: no document to update"])
  end.

Lemma updateDoc_action_run (id : string) (data : value) (w : world) (appendData : value) :
  id <> "" ->
  handler_result cfg (st w) "appendToUpdated" [] = Some appendData ->
  _updateDoc cfg (VStr id) data w =
  (sent w (_collectionPath (st w) +:+ "/" +:+ id)
        (assign_fields (spread data) (spread appendData))
        (handler_call cfg (st w) "appendToUpdated" []),
   inl (VBool true)).
Proof.
  intros Hne Happ. unfold _updateDoc.
  rewrite (run_bind _ _ _ _ _ (getRef_run id w Hne)).
  unfold _appendToUpdated.
  rewrite (run_bind _ _ _ _ _ (runHandler_returns "appendToUpdated" [] w appendData Happ)).
  set (ref := _collectionPath (st w) +:+ "/" +:+ id).
  set (patch := assign_fields (spread data) (spread appendData)).
  set (called := handler_call cfg (st w) "appendToUpdated" []).
  pose proof (updateDoc_run ref patch (logged w called)) as Hu.
  unfold sent. change (remote (logged w called)) with (remote w) in Hu.
  destruct (remote w !! ref) as [stored|];
    rewrite (run_bind _ _ _ _ _ Hu).
  - unfold bindM, ret, logged. cbn [st remote trace]. now rewrite <- app_assoc.
  - unfold bindM, logger_error, emit, logged, ret. cbn [st remote trace].
    now rewrite <- !app_assoc.
Qed.

Lemma sync_run (docData : value) (k : string) (w : world) (id : string)
    (appendData : value) :
  isObject docData = true ->
  read_prop docData "__id" = VStr id ->
  id <> "" ->
  handler_result cfg (st w) "appendToUpdated" [] = Some appendData ->
  _sync cfg docData (KString k) w =
  (sent w (_collectionPath (st w) +:+ "/" +:+ id)
        (assign_fields [(k, get docData k)] (spread appendData))
        (handler_call cfg (st w) "appendToUpdated" []),
   inl (VBool true)).
Proof.
  intros Hobj Hid Hne Happ. unfold _sync.
  change (keysToSync_of (KString k)) with (Some [k]).
  rewrite (run_bind _ _ w w [k]) by reflexivity.
  change (named_fields docData [k] []) with [(k, get docData k)].
  change (0 <? length [(k, get docData k)])%nat with true. cbv iota.
  rewrite (run_bind _ _ w w (VStr id)) by (rewrite <- Hid; now apply member_run).
  now apply updateDoc_action_run.
Qed.

Lemma set_isObject (o : value) (p : string) (x : value) :
  isObject (set o p x) = isObject o.
Proof.
  unfold set. destruct (isObject o) eqn:Ho; [|assumption].
  destruct (castPath p o) as [|k rest] eqn:E; [now apply castPath_nonempty in E|].
  destruct (baseSet_root o k rest x) as [y ->]. now rewrite write_prop_isObject.
Qed.

(** [$update] with a sync, on a document that has an id: the value is
    written locally, the validation-success handler is called, and one
    remote write goes to the document of that id with the patch
    [{ [path]: value }] overlaid with the append-on-update data.  The call
    is fulfilled with [true] also when the remote write fails for want of
    a stored document: the failure is logged and nothing else. *)
Theorem update_with_sync_reaches_remote
    (path : string) (v : value) (w : world) (id : string) (r appendData : value) :
  has (doc (st w)) path = true ->
  isEqual (get (doc (st w)) path) v = false ->
  (forall sch, docSchema cfg = Some sch ->
     validateSyncAt sch path (set (cloneDeep (doc (st w))) path v) = None) ->
  read_prop (doc (st w)) "__id" = VStr id ->
  id <> "" ->
  root path <> "__id" ->
  handler_result cfg (st w) "onValidationSuccess" [VStr (sid (st w)); VStr path]
    = Some r ->
  handler_result cfg (st w) "appendToUpdated" [] = Some appendData ->
  let ref := _collectionPath (st w) +:+ "/" +:+ id in
  let patch := assign_fields [(path, v)] (spread appendData) in
  exists w',
    update cfg path v true w = (w', inl true)
    /\ doc (st w') = set (doc (st w)) path v
    /\ remote w' =
       match remote w !! ref with
       | Some stored => <[ref := apply_patch stored patch]> (remote w)
       | None => remote w
       end
    /\ trace w' = trace w ++
         handler_call cfg (st w) "onValidationSuccess" [VStr (sid (st w)); VStr path] ++
         handler_call cfg (st w) "appendToUpdated" [] ++
         UpdateDoc ref patch ::
         match remote w !! ref with
         | Some _ => []
         | None => [Log "error" "FirebaseError: no document to update"]
         end.
Proof.
  intros Hhas Hne Hval Hid Hidne Hroot Hr Happ ref patch.
  destruct (written_handlers cfg TheDoc path v w "onValidationSuccess") as [_ Hsid].
  destruct (written_handler_result TheDoc path v w "onValidationSuccess"
              [VStr (sid (st w)); VStr path]) as [Hres Hcall].
  destruct (written_handler_result TheDoc path v w "appendToUpdated" [])
    as [Hres' Hcall'].
  destruct (written_frame TheDoc path v w) as (Hcp & Hrem & Htr).
  pose proof (written_object TheDoc path v w Hhas) as Hdoc. cbn [object_of] in Hdoc.
  set (w0 := written TheDoc path v w) in *.
  set (w1 := logged w0 (handler_call cfg (st w) "onValidationSuccess"
                          [VStr (sid (st w)); VStr path])).
  assert (H1 : _onValidationSuccess cfg path w0 = (w1, inl r)).
  { subst w1. rewrite <- Hcall, <- Hsid. apply onValidationSuccess_run.
    now rewrite Hsid, Hres. }
  assert (Hobj : isObject (doc (st w1)) = true).
  { change (doc (st w1)) with (doc (st w0)). rewrite Hdoc, set_isObject.
    eapply hasPath_isObject. exact Hhas. }
  assert (H2 : sync cfg (KString path) w1 =
               (sent w1 ref patch (handler_call cfg (st w) "appendToUpdated" []),
                inl (VBool true))).
  { unfold sync. rewrite (run_bind _ _ w1 w1 (st w1)) by reflexivity.
    rewrite (sync_run (doc (st w1)) path w1 id appendData Hobj).
    - change (st w1) with (st w0). rewrite Hcp, Hcall', Hdoc, get_set by assumption.
      reflexivity.
    - change (doc (st w1)) with (doc (st w0)). rewrite Hdoc.
      rewrite read_prop_set_other; [exact Hid|reflexivity|reflexivity|exact Hroot].
    - exact Hidne.
    - change (st w1) with (st w0). now rewrite Hres'. }
  unfold update. rewrite update_run by assumption. fold w0.
  unfold try_catch.
  rewrite (run_bind _ _ _ _ _ H1). rewrite (run_bind _ _ _ _ _ H2).
  eexists. split; [reflexivity|].
  unfold sent. change (remote w1) with (remote w0). rewrite Hrem.
  destruct (remote w !! ref) as [stored|]; cbn [st remote trace fst].
  - split; [exact Hdoc|]. split; [reflexivity|].
    change (trace w1) with (trace w0 ++ handler_call cfg (st w) "onValidationSuccess"
                              [VStr (sid (st w)); VStr path]).
    rewrite Htr. now rewrite <- !app_assoc.
  - split; [exact Hdoc|]. split; [exact Hrem|].
    change (trace w1) with (trace w0 ++ handler_call cfg (st w) "onValidationSuccess"
                              [VStr (sid (st w)); VStr path]).
    rewrite Htr. now rewrite <- !app_assoc.
Qed.

(** A document without an id ([__id] missing, empty or otherwise falsy):
    [$sync] logs that it can get no reference and that it cannot sync,
    sends nothing, and is fulfilled with [undefined] - it does not
    throw. *)
Theorem sync_without_id_sends_nothing (keys : keys_arg) (ks : list string) (w : world) :
  keysToSync_of keys = Some ks ->
  isObject (doc (st w)) = true ->
  truthy (read_prop (doc (st w)) "__id") = false ->
  sync cfg keys w =
  (logged w [Log "error" "Can't get ref without an id";
             Log "error" "Cannot sync. Error getting ref"],
   inl VUndefined).
Proof.
  intros Hks Hobj Hid. unfold sync, _sync.
  rewrite (run_bind _ _ w w (st w)) by reflexivity.
  rewrite Hks. rewrite (run_bind _ _ w w ks) by reflexivity.
  rewrite (run_bind _ _ _ _ _ (member_run (doc (st w)) "__id" w Hobj)).
  unfold _updateDoc.
  assert (Hg : getRef (read_prop (doc (st w)) "__id") w
               = (logged w [Log "error" "Can't get ref without an id"], inl None)).
  { unfold getRef. rewrite (run_bind _ _ w w (st w)) by reflexivity.
    rewrite Hid.
    rewrite (run_bind _ _ w w (read_prop (doc (st w)) "__id")).
    - rewrite Hid. reflexivity.
    - rewrite (run_bind _ _ _ _ _ (member_run (doc (st w)) "__id" w Hobj)).
      unfold js_or. now rewrite Hid. }
  rewrite (run_bind _ _ _ _ _ Hg).
  unfold bindM, logger_error, emit, logged, ret. cbn [st remote trace].
  now rewrite <- app_assoc.
Qed.

(** ** Array helpers *)

Lemma arrayUpdate_unchanged
    (path : string) (cb : list value -> value) (shouldSync : option bool)
    (w : world) (arr : list value) :
  get (doc (st w)) path = VArr arr ->
  cb arr = VArr arr ->
  arrayUpdate cfg path cb shouldSync w
  = (logged w [Log "info" ("Array " +:+ path +:+ " hasn't changed")], inl false).
Proof.
  intros Hget Hcb. unfold arrayUpdate.
  rewrite (run_bind _ _ w w (st w)) by reflexivity.
  rewrite Hget, Hcb, isEqual_refl. reflexivity.
Qed.

Lemma arrayUpdate_changed
    (path : string) (cb : list value -> value) (shouldSync : option bool)
    (w : world) (arr : list value) :
  get (doc (st w)) path = VArr arr ->
  isEqual (cb arr) (VArr arr) = false ->
  isEqual (VArr arr) (cb arr) = false ->
  (forall sch, docSchema cfg = Some sch ->
     validateSyncAt sch path (set (cloneDeep (doc (st w))) path (cb arr)) = None) ->
  get (doc (st (fst (arrayUpdate cfg path cb shouldSync w)))) path = cb arr.
Proof.
  intros Hget Hl Hr Hval.
  assert (Hhas : has (doc (st w)) path = true)
    by (apply get_has; rewrite Hget; discriminate).
  unfold arrayUpdate. rewrite (run_bind _ _ w w (st w)) by reflexivity.
  rewrite Hget, Hl. unfold update.
  rewrite (update_writes cfg TheDoc); try assumption.
  - rewrite (written_object TheDoc) by assumption. cbn [object_of]. now apply get_set.
  - now rewrite Hget.
Qed.

Lemma includes_filter (x : value) (arr : list value) :
  includes (List.filter (fun val => negb (strictEq val x)) arr) x = false.
Proof.
  unfold includes, strictEq.
  induction arr as [|y arr IH]; [reflexivity|]. cbn [List.filter].
  destruct (sameValueZero y x) eqn:E; cbn [negb]; [exact IH|].
  cbn [existsb]. now rewrite E, IH.
Qed.

Lemma filter_length_le (f : value -> bool) (arr : list value) :
  (length (List.filter f arr) <= length arr)%nat.
Proof.
  induction arr as [|y arr IH]; [reflexivity|]. cbn [List.filter].
  destruct (f y); cbn [length]; lia.
Qed.

Lemma filter_length_lt (x : value) (arr : list value) :
  includes arr x = true ->
  (length (List.filter (fun val => negb (strictEq val x)) arr) < length arr)%nat.
Proof.
  unfold includes, strictEq.
  induction arr as [|y arr IH]; [discriminate|]. cbn [existsb List.filter].
  destruct (sameValueZero y x) eqn:E; cbn [negb orb length].
  - intros _.
    pose proof (filter_length_le (fun val => negb (sameValueZero val x)) arr). lia.
  - intros H. specialize (IH H). lia.
Qed.

Lemma filter_none (x : value) (arr : list value) :
  includes arr x = false ->
  List.filter (fun val => negb (strictEq val x)) arr = arr.
Proof.
  unfold includes, strictEq.
  induction arr as [|y arr IH]; [reflexivity|]. cbn [existsb List.filter].
  intros H. apply orb_false_iff in H as [-> H]. cbn [negb]. now rewrite IH.
Qed.

(** [$arrayRemove] of a value the array holds leaves the array without
    any occurrence of it, the other elements in their order; a second
    [$arrayRemove] of the same value returns [false] and changes neither
    the store nor the remote documents. *)
Theorem arrayRemove_removes_every_occurrence
    (path : string) (x : value) (shouldSync : option bool) (w : world)
    (arr : list value) :
  get (doc (st w)) path = VArr arr ->
  includes arr x = true ->
  (forall sch, docSchema cfg = Some sch ->
     validateSyncAt sch path
       (set (cloneDeep (doc (st w))) path
            (VArr (List.filter (fun val => negb (strictEq val x)) arr)))
     = None) ->
  let kept := List.filter (fun val => negb (strictEq val x)) arr in
  let once := fst (arrayRemove cfg path x shouldSync w) in
  let twice := arrayRemove cfg path x shouldSync once in
  get (doc (st once)) path = VArr kept
  /\ includes kept x = false
  /\ snd twice = inl false
  /\ st (fst twice) = st once
  /\ remote (fst twice) = remote once.
Proof.
  intros Hget Hin Hval kept once twice.
  pose proof (filter_length_lt x arr Hin) as Hlt. fold kept in Hlt.
  assert (Honce : get (doc (st once)) path = VArr kept).
  { subst once. unfold arrayRemove.
    apply (arrayUpdate_changed path
             (fun array => VArr (List.filter (fun val => negb (strictEq val x)) array))
             shouldSync w arr Hget).
    - apply isEqual_length. fold kept. lia.
    - apply isEqual_length. fold kept. lia.
    - exact Hval. }
  pose proof (includes_filter x arr) as Hout. fold kept in Hout.
  assert (Htwice : twice
            = (logged once [Log "info" ("Array " +:+ path +:+ " hasn't changed")],
               inl false)).
  { subst twice. unfold arrayRemove.
    apply (arrayUpdate_unchanged path
             (fun array => VArr (List.filter (fun val => negb (strictEq val x)) array))
             shouldSync once kept Honce).
    now rewrite filter_none. }
  rewrite Htwice. cbn [fst snd]. unfold logged. cbn [st remote]. auto.
Qed.

Lemma imap_same {A} (f : nat -> A -> A) (l : list A) :
  (forall i x, f i x = x) -> imap f l = l.
Proof.
  revert f. induction l as [|a l IH]; intros f H; [reflexivity|].
  cbn [imap]. rewrite H, IH; [reflexivity|]. intros i x. apply H.
Qed.

Lemma imap_replace (x : value) (arr : list value) :
  forall index,
    imap (fun i item => if Nat.eqb i index then x else item) arr
    = if (index <? length arr)%nat then <[index := x]> arr else arr.
Proof.
  induction arr as [|a arr IH]; intros index; [reflexivity|].
  cbn [imap]. destruct index as [|n].
  - cbn [Nat.eqb]. change (0 <? length (a :: arr))%nat with true. cbv iota.
    cbn [insert list_insert]. f_equal.
    now apply (imap_same (fun i item => if Nat.eqb (S i) 0 then x else item)).
  - cbn [Nat.eqb].
    change (imap ((fun i item => if Nat.eqb i (S n) then x else item) ∘ S) arr)
      with (imap (fun i item => if Nat.eqb i n then x else item) arr).
    rewrite IH. change (S n <? length (a :: arr))%nat with (n <? length arr)%nat.
    now destruct (n <? length arr)%nat.
Qed.

Lemma filter_offset (arr : list value) :
  forall (g : nat -> nat) (target : nat),
    (forall i, g i <> target) ->
    List.map snd
      (List.filter (fun iv : nat * value => negb (Nat.eqb (fst iv) target))
                   (imap (fun i v => (g i, v)) arr))
    = arr.
Proof.
  induction arr as [|a arr IH]; intros g target H; [reflexivity|].
  cbn [imap List.filter fst].
  destruct (Nat.eqb (g 0%nat) target) eqn:E;
    [apply Nat.eqb_eq in E; now apply H in E|].
  cbn [negb List.map snd]. f_equal.
  apply (IH (fun i => g (S i))). intros i. apply H.
Qed.

Lemma filter_index (arr : list value) :
  forall (g : nat -> nat) (index : nat),
    (forall i j, g i = g j -> i = j) ->
    List.map snd
      (List.filter (fun iv : nat * value => negb (Nat.eqb (fst iv) (g index)))
                   (imap (fun i v => (g i, v)) arr))
    = delete index arr.
Proof.
  induction arr as [|a arr IH]; intros g index Hg; [reflexivity|].
  cbn [imap List.filter fst]. destruct index as [|n].
  - rewrite Nat.eqb_refl. cbn [negb delete list_delete].
    apply (filter_offset arr (fun i => g (S i))).
    intros i H. apply Hg in H. discriminate.
  - destruct (Nat.eqb (g 0%nat) (g (S n))) eqn:E;
      [apply Nat.eqb_eq, Hg in E; discriminate|].
    cbn [negb List.map snd delete list_delete]. f_equal.
    apply (IH (fun i => g (S i)) n). intros i j H. apply Hg in H. congruence.
Qed.

Lemma remove_index (arr : list value) (index : nat) :
  List.map snd
    (List.filter (fun iv : nat * value => negb (Nat.eqb (fst iv) index))
                 (imap (fun i v => (i, v)) arr))
  = delete index arr.
Proof. apply (filter_index arr (fun i => i) index). auto. Qed.

Lemma delete_out_of_range {A} (l : list A) :
  forall i, (length l <= i)%nat -> delete i l = l.
Proof.
  induction l as [|a l IH]; intros [|i] H; cbn [delete list_delete length] in *;
    try reflexivity; [lia|].
  f_equal. apply IH. lia.
Qed.

(** With an index past the end of the array, [$arrayRemoveIndex] and
    [$arrayUpdateItem] find the array unchanged: they log that and return
    [false]; nothing is validated, written or sent. *)
Theorem array_index_out_of_range_is_noop
    (path : string) (index : nat) (x : value) (shouldSync : option bool)
    (w : world) (arr : list value) :
  get (doc (st w)) path = VArr arr ->
  (length arr <= index)%nat ->
  arrayRemoveIndex cfg path index shouldSync w
  = (logged w [Log "info" ("Array " +:+ path +:+ " hasn't changed")], inl false)
  /\ arrayUpdateItem cfg path index x shouldSync w
     = (logged w [Log "info" ("Array " +:+ path +:+ " hasn't changed")], inl false).
Proof.
  intros Hget Hle. split.
  - apply (arrayUpdate_unchanged path _ shouldSync w arr Hget).
    now rewrite remove_index, delete_out_of_range.
  - apply (arrayUpdate_unchanged path _ shouldSync w arr Hget).
    rewrite imap_replace. apply Nat.ltb_ge in Hle. now rewrite Hle.
Qed.

(** [$arrayRemoveIndex] with an index inside the array: the element at
    that position is gone from the array at the path, the others keep
    their order. *)
Theorem arrayRemoveIndex_removes_position
    (path : string) (index : nat) (shouldSync : option bool) (w : world)
    (arr : list value) :
  get (doc (st w)) path = VArr arr ->
  (index < length arr)%nat ->
  (forall sch, docSchema cfg = Some sch ->
     validateSyncAt sch path (set (cloneDeep (doc (st w))) path (VArr (delete index arr)))
     = None) ->
  get (doc (st (fst (arrayRemoveIndex cfg path index shouldSync w)))) path
  = VArr (delete index arr).
Proof.
  intros Hget Hlt Hval.
  assert (Hlen : S (length (delete index arr)) = length arr).
  { rewrite length_delete; [lia|]. now apply lookup_lt_is_Some_2. }
  unfold arrayRemoveIndex.
  rewrite (arrayUpdate_changed path _ shouldSync w arr Hget);
    rewrite ?remove_index; try reflexivity; try assumption;
    apply isEqual_length; lia.
Qed.

Lemma all2_insert_l (eq : value -> value -> bool) (x : value) (arr : list value) :
  forall index old,
    arr !! index = Some old -> eq x old = false ->
    all2 eq (<[index := x]> arr) arr = false.
Proof.
  induction arr as [|a arr IH]; intros [|n] old Hl He; try discriminate.
  - injection Hl as ->.
    change (eq x old && all2 eq arr arr = false). now rewrite He.
  - change (eq a a && all2 eq (<[n := x]> arr) arr = false).
    rewrite (IH n old Hl He). apply andb_false_r.
Qed.

Lemma all2_insert_r (eq : value -> value -> bool) (x : value) (arr : list value) :
  forall index old,
    arr !! index = Some old -> eq old x = false ->
    all2 eq arr (<[index := x]> arr) = false.
Proof.
  induction arr as [|a arr IH]; intros [|n] old Hl He; try discriminate.
  - injection Hl as ->.
    change (eq old x && all2 eq arr arr = false). now rewrite He.
  - change (eq a a && all2 eq arr (<[n := x]> arr) = false).
    rewrite (IH n old Hl He). apply andb_false_r.
Qed.

(** [$arrayUpdateItem] with an index inside the array and an item that
    differs from the one there: the array at the path is the old one with
    that position replaced, every other position as it was. *)
Theorem arrayUpdateItem_replaces_position
    (path : string) (index : nat) (x old : value) (shouldSync : option bool)
    (w : world) (arr : list value) :
  get (doc (st w)) path = VArr arr ->
  arr !! index = Some old ->
  isEqual x old = false ->
  isEqual old x = false ->
  (forall sch, docSchema cfg = Some sch ->
     validateSyncAt sch path (set (cloneDeep (doc (st w))) path (VArr (<[index := x]> arr)))
     = None) ->
  get (doc (st (fst (arrayUpdateItem cfg path index x shouldSync w)))) path
  = VArr (<[index := x]> arr).
Proof.
  intros Hget Hl Hxo Hox Hval.
  assert (Hlt : (index <? length arr)%nat = true)
    by (apply Nat.ltb_lt; eapply lookup_lt_Some; eauto).
  unfold arrayUpdateItem.
  rewrite (arrayUpdate_changed path _ shouldSync w arr Hget);
    rewrite ?imap_replace, ?Hlt; try reflexivity; try assumption.
  - now apply (all2_insert_l isEqual x arr index old).
  - now apply (all2_insert_r isEqual x arr index old).
Qed.

(** ** [$updateDoc] *)




End WithConfig.

Lemma update_without_sync_succeeds_witness :
  let w := Scenario.testWorld Scenario.quiet Scenario.quiet in
  exists w',
    _update Scenario.testConfig (Item 0) "title" (VStr "renamed") false w = (w', inl true)
    /\ object_of (Item 0) (st w') = set (object_of (Item 0) (st w)) "title" (VStr "renamed")
    /\ get (object_of (Item 0) (st w')) "title" = VStr "renamed"
    /\ remote w' = remote w
    /\ trace w' = trace w ++
         handler_call Scenario.testConfig (st w) "onValidationSuccess"
           [VStr (sid (st w)); VStr "title"].
Proof.
  apply (update_without_sync_succeeds Scenario.testConfig (Item 0) "title"
           (VStr "renamed") (Scenario.testWorld Scenario.quiet Scenario.quiet)
           VUndefined); try reflexivity.
  intros sch H. injection H as <-. reflexivity.
Defined.

Lemma update_again_returns_false_witness :
  let w := Scenario.testWorld Scenario.quiet Scenario.broken in
  let once := fst (update Scenario.testConfig "testValue" (VNum 20) true w) in
  get (doc (st once)) "testValue" = VNum 20
  /\ update Scenario.testConfig "testValue" (VNum 20) true once = (once, inl false).
Proof.
  apply (update_again_returns_false Scenario.testConfig "testValue" (VNum 20) true true
           (Scenario.testWorld Scenario.quiet Scenario.broken)); try reflexivity.
  intros sch H. injection H as <-. reflexivity.
Defined.

(** With an append-on-update handler that throws, the first [$update]
    returns [false] having sent nothing, and the second returns [false]
    as well: the remote document keeps the old value. *)
Example failed_sync_is_not_retried :
  let w := Scenario.testWorld Scenario.quiet Scenario.broken in
  let r1 := update Scenario.testConfig "testValue" (VNum 20) true w in
  let r2 := update Scenario.testConfig "testValue" (VNum 20) true (fst r1) in
  snd r1 = inl false
  /\ snd r2 = inl false
  /\ get (doc (st (fst r2))) "testValue" = VNum 20
  /\ remote (fst r2) !! "testCollection/doc1" = Some Scenario.testFields.
Proof. repeat split; vm_compute; reflexivity. Qed.

Lemma update_with_sync_reaches_remote_witness :
  let w := Scenario.testWorld Scenario.quiet Scenario.stamp in
  let appendData := VObj [("updatedBy", VStr "user2")] in
  let ref := _collectionPath (st w) +:+ "/" +:+ "doc1" in
  let patch := assign_fields [("parent.child", VNum 2)] (spread appendData) in
  exists w',
    update Scenario.testConfig "parent.child" (VNum 2) true w = (w', inl true)
    /\ doc (st w') = set (doc (st w)) "parent.child" (VNum 2)
    /\ remote w' =
       match remote w !! ref with
       | Some stored => <[ref := apply_patch stored patch]> (remote w)
       | None => remote w
       end
    /\ trace w' = trace w ++
         handler_call Scenario.testConfig (st w) "onValidationSuccess"
           [VStr (sid (st w)); VStr "parent.child"] ++
         handler_call Scenario.testConfig (st w) "appendToUpdated" [] ++
         UpdateDoc ref patch ::
         match remote w !! ref with
         | Some _ => []
         | None => [Log "error" "FirebaseError: no document to update"]
         end.
Proof.
  apply (update_with_sync_reaches_remote Scenario.testConfig "parent.child" (VNum 2)
           (Scenario.testWorld Scenario.quiet Scenario.stamp) "doc1" VUndefined
           (VObj [("updatedBy", VStr "user2")])); try reflexivity; try discriminate.
  intros sch H. injection H as <-. reflexivity.
Defined.

(** What the remote document holds after that [$update]. *)
Example update_with_sync_remote :
  let w' := fst (update Scenario.testConfig "parent.child" (VNum 2) true
                   (Scenario.testWorld Scenario.quiet Scenario.stamp)) in
  remote w' !! "testCollection/doc1" =
  Some [("title", VStr "");
        ("testValue", VNum 50);
        ("parent", VObj [("child", VNum 2)]);
        ("numbers", VArr [VNum 1; VNum 2; VNum 2; VNum 3]);
        ("updatedBy", VStr "user2")].
Proof. vm_compute. reflexivity. Qed.

Lemma sync_without_id_sends_nothing_witness :
  let s := MkStore "test" "testCollection" (fun _ => None)
                   (VObj [("title", VStr "draft")]) [] in
  let w := World s ∅ [] in
  sync Scenario.testConfig (KString "title") w =
  (logged w [Log "error" "Can't get ref without an id";
             Log "error" "Cannot sync. Error getting ref"],
   inl VUndefined).
Proof.
  exact (sync_without_id_sends_nothing Scenario.testConfig (KString "title") ["title"]
           (World (MkStore "test" "testCollection" (fun _ => None)
                           (VObj [("title", VStr "draft")]) []) ∅ [])
           eq_refl eq_refl eq_refl).
Defined.

Lemma arrayRemove_removes_every_occurrence_witness :
  let w := Scenario.testWorld Scenario.quiet Scenario.quiet in
  let arr := [VNum 1; VNum 2; VNum 2; VNum 3] in
  let kept := List.filter (fun val => negb (strictEq val (VNum 2))) arr in
  let once := fst (arrayRemove Scenario.testConfig "numbers" (VNum 2) None w) in
  let twice := arrayRemove Scenario.testConfig "numbers" (VNum 2) None once in
  get (doc (st once)) "numbers" = VArr kept
  /\ includes kept (VNum 2) = false
  /\ snd twice = inl false
  /\ st (fst twice) = st once
  /\ remote (fst twice) = remote once.
Proof.
  apply (arrayRemove_removes_every_occurrence Scenario.testConfig "numbers" (VNum 2)
           None (Scenario.testWorld Scenario.quiet Scenario.quiet)
           [VNum 1; VNum 2; VNum 2; VNum 3]); try reflexivity.
  intros sch H. injection H as <-. reflexivity.
Defined.

Lemma array_index_out_of_range_is_noop_witness :
  let w := Scenario.testWorld Scenario.quiet Scenario.quiet in
  arrayRemoveIndex Scenario.testConfig "numbers" 4 None w
  = (logged w [Log "info" ("Array " +:+ "numbers" +:+ " hasn't changed")], inl false)
  /\ arrayUpdateItem Scenario.testConfig "numbers" 4 (VNum 9) None w
     = (logged w [Log "info" ("Array " +:+ "numbers" +:+ " hasn't changed")], inl false).
Proof.
  apply (array_index_out_of_range_is_noop Scenario.testConfig "numbers" 4 (VNum 9) None
           (Scenario.testWorld Scenario.quiet Scenario.quiet)
           [VNum 1; VNum 2; VNum 2; VNum 3]).
  - reflexivity.
  - apply le_n.
Defined.

Lemma arrayRemoveIndex_removes_position_witness :
  let w := Scenario.testWorld Scenario.quiet Scenario.quiet in
  get (doc (st (fst (arrayRemoveIndex Scenario.testConfig "numbers" 1 None w)))) "numbers"
  = VArr (delete 1%nat [VNum 1; VNum 2; VNum 2; VNum 3]).
Proof.
  apply (arrayRemoveIndex_removes_position Scenario.testConfig "numbers" 1 None
           (Scenario.testWorld Scenario.quiet Scenario.quiet)
           [VNum 1; VNum 2; VNum 2; VNum 3]).
  - reflexivity.
  - apply Nat.ltb_lt. reflexivity.
  - intros sch H. injection H as <-. reflexivity.
Defined.

Lemma arrayUpdateItem_replaces_position_witness :
  let w := Scenario.testWorld Scenario.quiet Scenario.quiet in
  get (doc (st (fst (arrayUpdateItem Scenario.testConfig "numbers" 3 (VNum 9) None w))))
      "numbers"
  = VArr (<[3%nat := VNum 9]> [VNum 1; VNum 2; VNum 2; VNum 3]).
Proof.
  apply (arrayUpdateItem_replaces_position Scenario.testConfig "numbers" 3 (VNum 9)
           (VNum 3) None (Scenario.testWorld Scenario.quiet Scenario.quiet)
           [VNum 1; VNum 2; VNum 2; VNum 3]); try reflexivity.
  intros sch H. injection H as <-. reflexivity.
Defined.


(** The schema of the test store rejects 999 for [testValue]: the local
    element keeps 20, and the patch with 999 is sent all the same. *)
Example updateDoc_sends_rejected_value :
  let w := Scenario.testWorld Scenario.quiet Scenario.quiet in
  let r := updateDoc_ Scenario.testConfig "doc2" "testValue" (VNum 999) w in
  get (object_of (Item 0) (st (fst r))) "testValue" = VNum 20
  /\ In (UpdateDoc "testCollection/doc2" [("testValue", VNum 999)]) (trace (fst r)).
Proof. split; vm_compute; auto. Qed.

End ActionFacts.

(* ===================================================================== *)
(** * Subcollections                                                      *)
(* ===================================================================== *)

Module SubcollectionFacts.
Import Js Store Subcollection.

Lemma split_slash_app (a b : string) :
  forall cur,
    split_slash (a +:+ String "/" b) cur = split_slash a cur ++ split_slash b "".
Proof.
  induction a as [|c a IH]; intros cur; [reflexivity|].
  change (String c a +:+ String "/" b) with (String c (a +:+ String "/" b)).
  cbn [split_slash]. destruct (Ascii.eqb c "/"); [|apply IH].
  now rewrite IH.
Qed.

Lemma split_slash_length (s : string) : forall cur, (1 <= length (split_slash s cur))%nat.
Proof.
  induction s as [|c s IH]; intros cur; cbn [split_slash]; [reflexivity|].
  destruct (Ascii.eqb c "/"); [cbn [length]; lia|apply IH].
Qed.

(** [$setCollectionPath] takes the path of a document - an even number
    of segments - and makes the store's collection path that path
    followed by the collection name the store was defined with: when the
    name is a single segment the result has an odd number of segments, as
    a collection path must.  The name is the one given at definition, not
    the current path, so a second call replaces the first instead of
    nesting under it.  Nothing else in the store changes and nothing is
    logged. *)
Theorem setCollectionPath_makes_collection_path
    (collectionName path : string) (w : world) :
  (length (split_slash path "") mod 2 = 0)%nat ->
  length (split_slash collectionName "") = 1%nat ->
  let r := setCollectionPath collectionName path w in
  let w' := fst r in
  snd r = inl VUndefined
  /\ _collectionPath (st w') = path +:+ "/" +:+ collectionName
  /\ (length (split_slash (_collectionPath (st w')) "") mod 2 = 1)%nat
  /\ (forall earlier,
        (length (split_slash earlier "") mod 2 = 0)%nat ->
        fst (setCollectionPath collectionName path
               (fst (setCollectionPath collectionName earlier w))) = w')
  /\ doc (st w') = doc (st w)
  /\ collection (st w') = collection (st w)
  /\ remote w' = remote w
  /\ trace w' = trace w.
Proof.
  intros Hp Hn r w'.
  assert (Hrun : forall w0,
            setCollectionPath collectionName path w0
            = (World (MkStore (sid (st w0)) (path +:+ "/" +:+ collectionName)
                              (_globalOptions (st w0)) (doc (st w0))
                              (collection (st w0)))
                     (remote w0) (trace w0), inl VUndefined)).
  { intros w0. unfold setCollectionPath. rewrite Hp. reflexivity. }
  subst w' r. rewrite Hrun. cbn [fst snd st _collectionPath doc collection remote trace].
  split; [reflexivity|]. split; [reflexivity|]. split.
  - change (path +:+ "/" +:+ collectionName)
      with (path +:+ String "/" collectionName).
    rewrite split_slash_app, length_app, Hn.
    pose proof (split_slash_length path "") as Hl.
    rewrite Nat.add_1_r.
    destruct (Nat.Even_or_Odd (length (split_slash path ""))) as [[k Hk]|[k Hk]].
    + rewrite Hk. replace (S (2 * k)) with (1 + k * 2)%nat by lia.
      now rewrite Nat.Div0.mod_add.
    + rewrite Hk in Hp. replace (2 * k + 1)%nat with (1 + k * 2)%nat in Hp by lia.
      rewrite Nat.Div0.mod_add in Hp. discriminate.
  - split; [|now repeat split].
    intros earlier He. rewrite Hrun. cbn [fst].
    unfold setCollectionPath. rewrite He. reflexivity.
Qed.

Lemma setCollectionPath_makes_collection_path_witness :
  let w := Scenario.testWorld Scenario.quiet Scenario.quiet in
  let r := setCollectionPath "testCollection" "users/user1" w in
  let w' := fst r in
  snd r = inl VUndefined
  /\ _collectionPath (st w') = "users/user1" +:+ "/" +:+ "testCollection"
  /\ (length (split_slash (_collectionPath (st w')) "") mod 2 = 1)%nat
  /\ (forall earlier,
        (length (split_slash earlier "") mod 2 = 0)%nat ->
        fst (setCollectionPath "testCollection" "users/user1"
               (fst (setCollectionPath "testCollection" earlier w))) = w')
  /\ doc (st w') = doc (st w)
  /\ collection (st w') = collection (st w)
  /\ remote w' = remote w
  /\ trace w' = trace w.
Proof.
  exact (setCollectionPath_makes_collection_path "testCollection" "users/user1"
           (Scenario.testWorld Scenario.quiet Scenario.quiet) eq_refl eq_refl).
Defined.

(** A path with an odd number of segments - a collection, or the empty
    string - is refused: an error is logged and the store is left as it
    is. *)
Example setCollectionPath_refuses_collection :
  let w := Scenario.testWorld Scenario.quiet Scenario.quiet in
  setCollectionPath "testCollection" "users" w
  = (World (st w) (remote w) (trace w ++ [Log "error" "Invalid collection path"]),
     inl VUndefined)
  /\ st (fst (setCollectionPath "testCollection" "" w)) = st w.
Proof. split; reflexivity. Qed.

End SubcollectionFacts.
